(** * Replay performance entries and Vue lifecycle tracing mixins

    A shallow embedding of [createPerformanceEntries.ts]: the web-vital
    getters of the replay integration and its conversion of browser
    performance entries, and the tracing mixins that turn Vue lifecycle
    hooks into spans ([finishRootSpan], [createTracingMixins]).

    JavaScript values are modelled as follows.
    - [number] is a rational ([Q]); floating-point rounding is not modelled.
    - [undefined] in an optional position is [None].
    - An object used as a dictionary is a [gmap] keyed by strings.
    - A span or DOM node is an opaque identity; a span is the number the
      tracer handed out when it created it.
    - A call that may throw returns a [Completion]. *)

From Stdlib Require Import ZArith QArith List String Lia.
From stdpp Require Import base option list gmap strings.

Open Scope string_scope.
Open Scope list_scope.

(** ** Abrupt completion *)

Inductive JsError := TypeError (msg : string).

Inductive Completion (A : Type) :=
| Returned (a : A)
| Thrown (e : JsError).
Arguments Returned {A} a.
Arguments Thrown {A} e.

Definition returns {A} (c : Completion A) : bool :=
  match c with Returned _ => true | Thrown _ => false end.

(** ** Web vitals *)

Module PerformanceEntries.

Inductive Rating := good | needs_improvement | poor.

Section WebVitals.
(** DOM nodes and rectangles are opaque to this file. *)
Variable Node : Type.
Variable DOMRectReadOnly : Type.
(** [browserPerformanceTimeOrigin] of [@sentry/utils], possibly undefined. *)
Variable browserPerformanceTimeOrigin : option Q.
(** [WINDOW.performance.timeOrigin]. *)
Variable WINDOW_performance_timeOrigin : Q.
(** [record.mirror.getId]. *)
Variable record_mirror_getId : Node -> Z.

Record LayoutShiftAttribution := {
  node : option Node;
  previousRect : DOMRectReadOnly;
  currentRect : DOMRectReadOnly;
}.

(** The fields of a performance entry that the web-vital getters read. *)
Record PerformanceEntry := {
  element : option Node;
  sources : option (list LayoutShiftAttribution);
  target : option Node;
}.

Record Metric := {
  value : Q;
  rating : Rating;
  entries : list PerformanceEntry;
}.

Record WebVitalData := {
  wv_value : Q;
  wv_size : Q;
  wv_rating : Rating;
  nodeId : option Z;
}.

Record ReplayPerformanceEntry := {
  rpe_type : string;
  rpe_name : string;
  rpe_start : Q;
  rpe_end : Q;
  rpe_data : WebVitalData;
}.

(** [a || b] on an optional number: 0 and undefined are falsy. *)
Definition number_or (a : option Q) (b : Q) : Q :=
  match a with
  | Some x => if Qeq_bool x 0 then b else x
  | None => b
  end.

Definition getAbsoluteTime (time : Q) : Q :=
  ((number_or browserPerformanceTimeOrigin WINDOW_performance_timeOrigin + time) / 1000)%Q.

Definition getWebVital (metric : Metric) (name : string) (n : option Node)
  : ReplayPerformanceEntry :=
  let value := value metric in
  let rating := rating metric in
  let end_ := getAbsoluteTime value in
  {| rpe_type := "web-vital";
     rpe_name := name;
     rpe_start := end_;
     rpe_end := end_;
     rpe_data := {| wv_value := value;
                    wv_size := value;
                    wv_rating := rating;
                    nodeId := match n with
                              | Some nd => Some (record_mirror_getId nd)
                              | None => None
                              end |} |}.

(** [metric.entries[metric.entries.length - 1]] *)
Definition lastEntry (metric : Metric) : option PerformanceEntry :=
  last (entries metric).

Definition getLargestContentfulPaint (metric : Metric) : Completion ReplayPerformanceEntry :=
  let n := match lastEntry metric with
           | Some e => element e
           | None => None
           end in
  Returned (getWebVital metric "largest-contentful-paint" n).

(** [firstEntry.sources[0].node]: an array is truthy even when empty, and
    reading [.node] of the missing element [sources[0]] throws. *)
Definition getCumulativeLayoutShift (metric : Metric) : Completion ReplayPerformanceEntry :=
  match entries metric !! 0%nat with
  | None => Returned (getWebVital metric "cumulative-layout-shift" None)
  | Some firstEntry =>
      match sources firstEntry with
      | None => Returned (getWebVital metric "cumulative-layout-shift" None)
      | Some srcs =>
          match srcs !! 0%nat with
          | None => Thrown (TypeError "Cannot read properties of undefined (reading 'node')")
          | Some attribution =>
              Returned (getWebVital metric "cumulative-layout-shift" (node attribution))
          end
      end
  end.

Definition getFirstInputDelay (metric : Metric) : Completion ReplayPerformanceEntry :=
  let n := match lastEntry metric with
           | Some e => target e
           | None => None
           end in
  Returned (getWebVital metric "first-input-delay" n).

Definition getInteractionToNextPaint (metric : Metric) : Completion ReplayPerformanceEntry :=
  let n := match lastEntry metric with
           | Some e => target e
           | None => None
           end in
  Returned (getWebVital metric "interaction-to-next-paint" n).

End WebVitals.

Arguments node {Node DOMRectReadOnly} _.
Arguments sources {Node DOMRectReadOnly} _.
Arguments entries {Node DOMRectReadOnly} _.

End PerformanceEntries.

(** ** Vue tracing mixins *)

Module VueTracing.

Definition Span := nat.
(** Browser timer handles are positive integers, hence always truthy. *)
Definition TimerHandle := positive.
Definition Hook := string.
Definition Operation := string.

Definition VUE_OP : string := "ui.vue".
(** The attribute key exported by [@sentry/browser]. *)
Definition SEMANTIC_ATTRIBUTE_SENTRY_ORIGIN : string := "sentry.origin".

(** Argument of [startInactiveSpan]. *)
Record SpanOptions := {
  so_name : string;
  so_op : string;
  so_attributes : list (string * string);
}.

Record DataSentry := {
  _sentrySpans : option (gmap string Span);
  _sentryRootSpan : option Span;
  _sentryRootSpanTimer : option TimerHandle;
}.

(** What the [data] mixin returns for a fresh instance. *)
Definition mixins_data : DataSentry :=
  {| _sentrySpans := None; _sentryRootSpan := None; _sentryRootSpanTimer := None |}.

(** A component instance: its identity, the identity of [this.$root] and
    the result of [formatComponentName(this, false)]. [this.$data] lives in
    the heap of the world under [vm_id]. *)
Record VueSentry := {
  vm_id : nat;
  vm_root : nat;
  vm_name : string;
}.

Inductive TrackComponents :=
| TrackList (names : list string)
| TrackBool (b : bool)
| TrackAbsent.

Record TracingOptions := {
  hooks : option (list Operation);
  trackComponents : TrackComponents;
  timeout : Z;
}.

(** The closure handed to [setTimeout] by [finishRootSpan]: it captures
    [vm] and [timestamp]. *)
Record TimerTask := {
  t_handle : TimerHandle;
  t_due : Z;
  t_vm : VueSentry;
  t_timestamp : Q;
}.

(** What this code asked of the tracer, in the order it asked. *)
Inductive TracerCall :=
| SpanStarted (s : Span) (o : SpanOptions)
| SpanEnded (s : Span) (timestamp : option Q).

(** Everything the hooks read or write: instance data, the tracer, the
    timer queue, the clock (milliseconds) and the logger. *)
Record World := {
  heap : gmap nat DataSentry;
  activeSpan : option Span;
  nextSpan : Span;
  tracerCalls : list TracerCall;
  nextTimer : TimerHandle;
  pending : list TimerTask;
  now : Z;
  warnings : list string;
}.

Definition with_heap (h : gmap nat DataSentry) (w : World) : World :=
  {| heap := h; activeSpan := activeSpan w; nextSpan := nextSpan w;
     tracerCalls := tracerCalls w; nextTimer := nextTimer w;
     pending := pending w; now := now w; warnings := warnings w |}.

Definition with_pending (p : list TimerTask) (w : World) : World :=
  {| heap := heap w; activeSpan := activeSpan w; nextSpan := nextSpan w;
     tracerCalls := tracerCalls w; nextTimer := nextTimer w;
     pending := p; now := now w; warnings := warnings w |}.

(** [vm.$data] *)
Definition data (w : World) (i : nat) : DataSentry :=
  default mixins_data (heap w !! i).

Definition set_sentrySpans (i : nat) (m : option (gmap string Span)) (w : World) : World :=
  let d := data w i in
  with_heap (<[i := {| _sentrySpans := m;
                       _sentryRootSpan := _sentryRootSpan d;
                       _sentryRootSpanTimer := _sentryRootSpanTimer d |}]> (heap w)) w.

Definition set_sentryRootSpan (i : nat) (s : option Span) (w : World) : World :=
  let d := data w i in
  with_heap (<[i := {| _sentrySpans := _sentrySpans d;
                       _sentryRootSpan := s;
                       _sentryRootSpanTimer := _sentryRootSpanTimer d |}]> (heap w)) w.

Definition set_sentryRootSpanTimer (i : nat) (h : option TimerHandle) (w : World) : World :=
  let d := data w i in
  with_heap (<[i := {| _sentrySpans := _sentrySpans d;
                       _sentryRootSpan := _sentryRootSpan d;
                       _sentryRootSpanTimer := h |}]> (heap w)) w.

(** The spans started and the [end] calls made within a list of calls. *)
Definition startedIn (calls : list TracerCall) : list (Span * SpanOptions) :=
  omap (λ c, match c with SpanStarted s o => Some (s, o) | SpanEnded _ _ => None end) calls.

Definition endedIn (calls : list TracerCall) : list (Span * option Q) :=
  omap (λ c, match c with SpanEnded s t => Some (s, t) | SpanStarted _ _ => None end) calls.

Definition started (w : World) : list (Span * SpanOptions) := startedIn (tracerCalls w).
Definition ended (w : World) : list (Span * option Q) := endedIn (tracerCalls w).

(** *** The tracer, the clock, the timers and the logger *)

Definition getActiveSpan (w : World) : option Span := activeSpan w.

Definition startInactiveSpan (o : SpanOptions) (w : World) : Span * World :=
  (nextSpan w,
   {| heap := heap w; activeSpan := activeSpan w; nextSpan := S (nextSpan w);
      tracerCalls := tracerCalls w ++ [SpanStarted (nextSpan w) o];
      nextTimer := nextTimer w; pending := pending w; now := now w;
      warnings := warnings w |}).

(** [span.end(timestamp?)] *)
Definition span_end (s : Span) (timestamp : option Q) (w : World) : World :=
  {| heap := heap w; activeSpan := activeSpan w; nextSpan := nextSpan w;
     tracerCalls := tracerCalls w ++ [SpanEnded s timestamp];
     nextTimer := nextTimer w; pending := pending w; now := now w;
     warnings := warnings w |}.

Definition timestampInSeconds (w : World) : Q := (now w # 1000)%Q.

(** The longest delay that a platform timer takes as it is. The timer
    converts its delay to a signed 32-bit integer, so a longer delay does
    not wait that long, and a delay below 1 waits 0 or 1 ms, by platform. *)
Definition TIMEOUT_MAX : Z := 2147483647.

(** [setTimeout(() => ..., delay)]: the due time is exact for delays from
    1 to [TIMEOUT_MAX]. *)
Definition setTimeout (vm : VueSentry) (timestamp : Q) (delay : Z) (w : World)
  : TimerHandle * World :=
  (nextTimer w,
   {| heap := heap w; activeSpan := activeSpan w; nextSpan := nextSpan w;
      tracerCalls := tracerCalls w;
      nextTimer := Pos.succ (nextTimer w);
      pending := pending w ++ [{| t_handle := nextTimer w;
                                  t_due := now w + Z.max 0 delay;
                                  t_vm := vm;
                                  t_timestamp := timestamp |}];
      now := now w; warnings := warnings w |}).

Definition clearTimeout (h : TimerHandle) (w : World) : World :=
  with_pending (filter (fun t => t_handle t ≠ h) (pending w)) w.

Definition logger_warn (msg : string) (w : World) : World :=
  {| heap := heap w; activeSpan := activeSpan w; nextSpan := nextSpan w;
     tracerCalls := tracerCalls w; nextTimer := nextTimer w;
     pending := pending w; now := now w; warnings := warnings w ++ [msg] |}.

(** *** finishRootSpan *)

(** The body of the arrow function scheduled by [finishRootSpan]. *)
Definition rootSpanTimeout (vm : VueSentry) (timestamp : Q) (w : World) : World :=
  match _sentryRootSpan (data w (vm_root vm)) with
  | Some rootSpan =>
      set_sentryRootSpan (vm_root vm) None (span_end rootSpan (Some timestamp) w)
  | None => w
  end.

Definition finishRootSpan (vm : VueSentry) (timestamp : Q) (timeout : Z) (w : World) : World :=
  let w1 := match _sentryRootSpanTimer (data w (vm_id vm)) with
            | Some h => clearTimeout h w
            | None => w
            end in
  let '(h, w2) := setTimeout vm timestamp timeout w1 in
  set_sentryRootSpanTimer (vm_id vm) (Some h) w2.

(** *** The function installed for one lifecycle hook *)

Definition origin_attributes : list (string * string) :=
  [(SEMANTIC_ATTRIBUTE_SENTRY_ORIGIN, "auto.ui.vue")].

(** The argument of [startInactiveSpan] for the root span. *)
Definition rootSpanOptions : SpanOptions :=
  {| so_name := "Application Render";
     so_op := VUE_OP +:+ ".render";
     so_attributes := origin_attributes |}.

(** The argument of [startInactiveSpan] for the span of one operation. *)
Definition componentSpanOptions (name : string) (operation : Operation) : SpanOptions :=
  {| so_name := "Vue <" +:+ name +:+ ">";
     so_op := VUE_OP +:+ "." +:+ operation;
     so_attributes := origin_attributes |}.

Definition isRoot (this : VueSentry) : bool :=
  bool_decide (vm_root this = vm_id this).

(** [self.indexOf(value)], with [None] for -1. *)
Definition indexOf (self : list string) (value : string) : option nat :=
  fst <$> list_find (λ x, x = value) self.

(** [Array.isArray(options.trackComponents)
      ? options.trackComponents.indexOf(name) > -1 : options.trackComponents] *)
Definition shouldTrack (options : TracingOptions) (name : string) : bool :=
  match trackComponents options with
  | TrackList names => bool_decide (is_Some (indexOf names name))
  | TrackBool b => b
  | TrackAbsent => false
  end.

(** Whether the hook function gets past [if (!isRoot && !shouldTrack) return]. *)
Definition tracked (options : TracingOptions) (this : VueSentry) : bool :=
  isRoot this || shouldTrack options (vm_name this).

(** The [if (isRoot)] block at the top of the hook function. *)
Definition startRootSpan (this : VueSentry) (w : World) : World :=
  if isRoot this then
    match getActiveSpan w with
    | Some _ =>
        match _sentryRootSpan (data w (vm_id this)) with
        | Some _ => w
        | None =>
            let '(s, w1) := startInactiveSpan rootSpanOptions w in
            set_sentryRootSpan (vm_id this) (Some s) w1
        end
    | None => w
    end
  else w.

(** When that block calls [startInactiveSpan]: on the root, with an active
    span, with no root span stored. *)
Definition rootSpanDue (this : VueSentry) (w : World) : bool :=
  isRoot this && bool_decide (is_Some (getActiveSpan w))
  && bool_decide (_sentryRootSpan (data w (vm_id this)) = None).

(** [(this.$root && this.$root.$data._sentryRootSpan) || getActiveSpan()] *)
Definition startingSpan (this : VueSentry) (w : World) : option Span :=
  match _sentryRootSpan (data w (vm_root this)) with
  | Some s => Some s
  | None => getActiveSpan w
  end.

(** [this.$data._sentrySpans = this.$data._sentrySpans || {}] *)
Definition initSpans (this : VueSentry) (w : World) : World :=
  match _sentrySpans (data w (vm_id this)) with
  | Some _ => w
  | None => set_sentrySpans (vm_id this) (Some ∅) w
  end.

Definition spansOf (this : VueSentry) (w : World) : gmap string Span :=
  default ∅ (_sentrySpans (data w (vm_id this))).

Definition beforeHook (operation : Operation) (this : VueSentry) (w : World) : World :=
  match startingSpan this w with
  | Some _ =>
      let w1 := match spansOf this w !! operation with
                | Some oldSpan => span_end oldSpan None w
                | None => w
                end in
      let '(s, w2) := startInactiveSpan (componentSpanOptions (vm_name this) operation) w1 in
      set_sentrySpans (vm_id this) (Some (<[operation := s]> (spansOf this w2))) w2
  | None => w
  end.

Definition afterHook (options : TracingOptions) (operation : Operation)
    (this : VueSentry) (w : World) : World :=
  match spansOf this w !! operation with
  | None => w
  | Some span =>
      let w1 := span_end span None w in
      finishRootSpan this (timestampInSeconds w1) (timeout options) w1
  end.

(** [mixins[internalHook]], for the [operation] and [internalHooks] of the
    loop iteration that created it. *)
Definition hookFunction (options : TracingOptions) (operation : Operation)
    (internalHooks : list Hook) (internalHook : Hook)
    (this : VueSentry) (w : World) : World :=
  let w1 := startRootSpan this w in
  if negb (isRoot this) && negb (shouldTrack options (vm_name this)) then w1
  else
    let w2 := initSpans this w1 in
    if bool_decide (Some internalHook = internalHooks !! 0%nat)
    then beforeHook operation this w2
    else afterHook options operation this w2.

(** *** createTracingMixins *)

(** Mappings from operation to corresponding lifecycle hooks. *)
Definition HOOKS : gmap string (list Hook) :=
  list_to_map
    [("activate", ["activated"; "deactivated"]);
     ("create", ["beforeCreate"; "created"]);
     ("unmount", ["beforeUnmount"; "unmounted"]);
     ("destroy", ["beforeDestroy"; "destroyed"]);
     ("mount", ["beforeMount"; "mounted"]);
     ("update", ["beforeUpdate"; "updated"])].

(** [HOOKS] is an object literal, so a lookup that misses its own keys
    falls through to [Object.prototype]; what it finds there is truthy
    and not iterable. *)
Definition Object_prototype_keys : list string :=
  ["constructor"; "__defineGetter__"; "__defineSetter__"; "hasOwnProperty";
   "__lookupGetter__"; "__lookupSetter__"; "isPrototypeOf";
   "propertyIsEnumerable"; "toString"; "valueOf"; "__proto__"; "toLocaleString"].

Inductive Property :=
| Own (internalHooks : list Hook)
| Inherited
| Missing.

(** [HOOKS[operation]] *)
Definition HOOKS_get (operation : Operation) : Property :=
  match HOOKS !! operation with
  | Some internalHooks => Own internalHooks
  | None => if bool_decide (operation ∈ Object_prototype_keys) then Inherited else Missing
  end.

(** [.filter((value, index, self) => self.indexOf(value) === index)] *)
Definition removeDuplicates (self : list string) : list string :=
  (filter (λ iv, indexOf self iv.2 = Some iv.1) (imap pair self)).*2.

(** A property of the mixins object: the [data] function, or the hook
    function closed over [operation], [internalHooks] and [internalHook]. *)
Inductive Mixin :=
| DataMixin
| HookMixin (operation : Operation) (internalHooks : list Hook) (internalHook : Hook).

(** Calling the function stored under a hook name. *)
Definition callMixin (options : TracingOptions) (m : Mixin) (this : VueSentry) (w : World)
  : World :=
  match m with
  | DataMixin => w
  | HookMixin operation internalHooks internalHook =>
      hookFunction options operation internalHooks internalHook this w
  end.

Section Build.
(** [DEFAULT_HOOKS] of [./constants] and [DEBUG_BUILD] of [./debug-build]. *)
Variable DEFAULT_HOOKS : list Operation.
Variable DEBUG_BUILD : bool.

Definition resolveHooks (options : TracingOptions) : list Operation :=
  removeDuplicates (default [] (hooks options) ++ DEFAULT_HOOKS).

(** The inner [for (const internalHook of internalHooks)] loop. *)
Definition bindHooks (operation : Operation) (internalHooks : list Hook)
    (mixins : gmap string Mixin) : gmap string Mixin :=
  foldl (λ m internalHook, <[internalHook := HookMixin operation internalHooks internalHook]> m)
        mixins internalHooks.

(** The outer [for (const operation of hooks)] loop. *)
Fixpoint installHooks (ops : list Operation) (mixins : gmap string Mixin) (w : World)
  : Completion (gmap string Mixin * World) :=
  match ops with
  | [] => Returned (mixins, w)
  | operation :: rest =>
      match HOOKS_get operation with
      | Missing =>
          installHooks rest mixins
            (if DEBUG_BUILD then logger_warn ("Unknown hook: " +:+ operation) w else w)
      | Inherited => Thrown (TypeError "internalHooks is not iterable")
      | Own internalHooks =>
          installHooks rest (bindHooks operation internalHooks mixins) w
      end
  end.

Definition createTracingMixins (options : TracingOptions) (w : World)
  : Completion (gmap string Mixin * World) :=
  installHooks (resolveHooks options) {["data" := DataMixin]} w.
End Build.

(** *** The event loop *)

Inductive Event :=
| HookFired (operation : Operation) (internalHooks : list Hook) (internalHook : Hook)
            (this : VueSentry)
| TimerFired (h : TimerHandle)
| ActiveSpanChanged (a : option Span)
| ClockAdvanced (dt : Z).

Definition set_activeSpan (a : option Span) (w : World) : World :=
  {| heap := heap w; activeSpan := a; nextSpan := nextSpan w;
     tracerCalls := tracerCalls w; nextTimer := nextTimer w;
     pending := pending w; now := now w; warnings := warnings w |}.

Definition set_now (t : Z) (w : World) : World :=
  {| heap := heap w; activeSpan := activeSpan w; nextSpan := nextSpan w;
     tracerCalls := tracerCalls w; nextTimer := nextTimer w;
     pending := pending w; now := t; warnings := warnings w |}.

(** Run a timer task: it leaves the queue and its closure is called. *)
Definition runTask (t : TimerTask) (w : World) : World :=
  rootSpanTimeout (t_vm t) (t_timestamp t) (clearTimeout (t_handle t) w).

(** One event; [None] when the event cannot happen in this world (a timer
    that is not pending or not yet due, a clock running backwards). *)
Definition step (options : TracingOptions) (e : Event) (w : World) : option World :=
  match e with
  | HookFired operation internalHooks internalHook this =>
      Some (hookFunction options operation internalHooks internalHook this w)
  | TimerFired h =>
      match list_find (λ t, t_handle t = h) (pending w) with
      | Some (_, t) => if bool_decide (t_due t ≤ now w)%Z then Some (runTask t w) else None
      | None => None
      end
  | ActiveSpanChanged a => Some (set_activeSpan a w)
  | ClockAdvanced dt => if bool_decide (0 ≤ dt)%Z then Some (set_now (now w + dt) w) else None
  end.

Fixpoint run (options : TracingOptions) (es : list Event) (w : World) : option World :=
  match es with
  | [] => Some w
  | e :: es' =>
      match step options e w with
      | Some w' => run options es' w'
      | None => None
      end
  end.

(** A world in which no hook has run yet. *)
Definition initial (w : World) : Prop :=
  heap w = ∅ ∧ tracerCalls w = [] ∧ pending w = [].

(** The pending task that is due first among those due by [limit]. *)
Definition nextDue (limit : Z) (ts : list TimerTask) : option TimerTask :=
  foldl (λ best t,
           if bool_decide (t_due t ≤ limit)%Z then
             match best with
             | Some b => if bool_decide (t_due t < t_due b)%Z then Some t else Some b
             | None => Some t
             end
           else best)
        None ts.

(** Let [dt] milliseconds pass with every timer firing when it is due. *)
Fixpoint advanceTo (fuel : nat) (limit : Z) (w : World) : World :=
  match fuel with
  | O => set_now limit w
  | S fuel' =>
      match nextDue limit (pending w) with
      | Some t => advanceTo fuel' limit (runTask t (set_now (Z.max (now w) (t_due t)) w))
      | None => set_now limit w
      end
  end.

Definition advance (dt : Z) (w : World) : World :=
  advanceTo (length (pending w)) (now w + dt) w.





(** The ids of the spans that were started as root spans. *)
Definition isRootSpanOptions (o : SpanOptions) : bool :=
  bool_decide (so_name o = "Application Render").

Definition rootSpansIn (calls : list TracerCall) : list Span :=
  (filter (λ so, isRootSpanOptions so.2 = true) (startedIn calls)).*1.

Definition rootSpans (w : World) : list Span := rootSpansIn (tracerCalls w).

(** How often [end] was called on span [s]. *)
Definition endCallsIn (s : Span) (calls : list TracerCall) : nat :=
  length (filter (λ e, e.1 = s) (endedIn calls)).

Definition endCalls (s : Span) (w : World) : nat := endCallsIn s (tracerCalls w).

(** What every world reached from an initial one satisfies: the tracer
    only ever saw spans it numbered itself; a stored root span was started
    as one, is stored once and has not been ended; a stored operation span
    is not a root span; and no root span was ended twice. *)
Definition consistent (w : World) : Prop :=
  (∀ s o, SpanStarted s o ∈ tracerCalls w → (s < nextSpan w)%nat)
  ∧ (∀ s t, SpanEnded s t ∈ tracerCalls w → (s < nextSpan w)%nat)
  ∧ (∀ j s, _sentryRootSpan (data w j) = Some s → s ∈ rootSpans w ∧ endCalls s w = 0%nat)
  ∧ (∀ i j s, _sentryRootSpan (data w i) = Some s → _sentryRootSpan (data w j) = Some s →
              i = j)
  ∧ (∀ that operation s, spansOf that w !! operation = Some s →
                         (s < nextSpan w)%nat ∧ s ∉ rootSpans w)
  ∧ (∀ s, s ∈ rootSpans w → (endCalls s w ≤ 1)%nat).

(** Every span started for an operation is either ended or stored in the
    slot of some instance and operation, and no span is stored in two
    slots: a slot accounts for at most one span that is still open. *)
Definition accounted (w : World) : Prop :=
  (∀ s o, SpanStarted s o ∈ tracerCalls w → isRootSpanOptions o = false →
          (∃ t, SpanEnded s t ∈ tracerCalls w)
          ∨ ∃ that operation, spansOf that w !! operation = Some s)
  ∧ (∀ a b op1 op2 s, spansOf a w !! op1 = Some s → spansOf b w !! op2 = Some s →
                      vm_id a = vm_id b ∧ op1 = op2).

(** What the timers of every reachable world satisfy, for the [options]
    the hooks were built with: pending handles are distinct and were handed
    out by [setTimeout]; a pending task's handle is the one stored on the
    instance that armed it; a task records the clock reading at which it
    was armed and is due [options.timeout] later; and an end call with an
    explicit timestamp was made no earlier than that. *)
Definition timersOk (options : TracingOptions) (w : World) : Prop :=
  (∀ t, t ∈ pending w → (t_handle t < nextTimer w)%positive)
  ∧ NoDup (t_handle <$> pending w)
  ∧ (∀ t, t ∈ pending w →
          _sentryRootSpanTimer (data w (vm_id (t_vm t))) = Some (t_handle t))
  ∧ (∀ t, t ∈ pending w →
          ∃ n, t_timestamp t = (n # 1000)%Q
               ∧ t_due t = (n + Z.max 0 (timeout options))%Z ∧ (n ≤ now w)%Z)
  ∧ (∀ s ts, SpanEnded s (Some ts) ∈ tracerCalls w →
             ∃ n, ts = (n # 1000)%Q ∧ (n + Z.max 0 (timeout options) ≤ now w)%Z).

(** Walking the tracer calls in order, every [end] is for a span in [seen]
    or started earlier in the walk. *)
Fixpoint endsFollowStarts (seen : list Span) (calls : list TracerCall) : Prop :=
  match calls with
  | [] => True
  | SpanStarted s _ :: rest => endsFollowStarts (s :: seen) rest
  | SpanEnded s _ :: rest => s ∈ seen ∧ endsFollowStarts seen rest
  end.

(** The spans started within a list of calls. *)
Definition startedIds (calls : list TracerCall) : list Span := (startedIn calls).*1.

(** Every stored span was started by a call in the log, the calls are in
    order, and an end call carries a timestamp exactly for root spans. *)
Definition tracerOk (w : World) : Prop :=
  endsFollowStarts [] (tracerCalls w)
  ∧ (∀ j s, _sentryRootSpan (data w j) = Some s → s ∈ startedIds (tracerCalls w))
  ∧ (∀ that operation s, spansOf that w !! operation = Some s →
                         s ∈ startedIds (tracerCalls w))
  ∧ (∀ s ts, SpanEnded s (Some ts) ∈ tracerCalls w → s ∈ rootSpans w)
  ∧ (∀ s, SpanEnded s None ∈ tracerCalls w → s ∉ rootSpans w)
  ∧ (∀ s o, SpanStarted s o ∈ tracerCalls w →
            o = rootSpanOptions
            ∨ ∃ name operation, o = componentSpanOptions name operation).

(** No span is stored or pending anywhere, and none is active. *)
Definition quiet (w : World) : Prop :=
  activeSpan w = None ∧ tracerCalls w = [] ∧ pending w = []
  ∧ (∀ j, _sentryRootSpan (data w j) = None)
  ∧ (∀ that operation, spansOf that w !! operation = None).

End VueTracing.

(** ** Replay entries from browser performance entries *)

Module ReplayEntries.

(** The fields of a browser performance entry that the [create*] functions
    read. An entry carries the fields of its class; [createPerformanceEntry]
    picks the function by [entryType], so a field that the class of an entry
    lacks is not read for it and its value here is immaterial. *)
Record AllPerformanceEntry := {
  entryType : string;
  name : string;
  startTime : Q;
  duration : Q;
  decodedBodySize : Q;
  encodedBodySize : Q;
  transferSize : Q;
  domComplete : Q;
  domContentLoadedEventStart : Q;
  domContentLoadedEventEnd : Q;
  domInteractive : Q;
  loadEventStart : Q;
  loadEventEnd : Q;
  redirectCount : Q;
  type : string;
  initiatorType : string;
  responseEnd : Q;
  responseStatus : option Q;
}.

Record NavigationData := {
  nd_size : Q;
  nd_decodedBodySize : Q;
  nd_encodedBodySize : Q;
  nd_duration : Q;
  nd_domInteractive : Q;
  nd_domContentLoadedEventStart : Q;
  nd_domContentLoadedEventEnd : Q;
  nd_loadEventStart : Q;
  nd_loadEventEnd : Q;
  nd_domComplete : Q;
  nd_redirectCount : Q;
}.

Record ResourceData := {
  rd_size : Q;
  rd_statusCode : option Q;
  rd_decodedBodySize : Q;
  rd_encodedBodySize : Q;
}.

(** [PaintData] is [undefined]: a paint entry has no data. *)
Inductive AllPerformanceEntryData :=
| Navigation (d : NavigationData)
| Resource (d : ResourceData).

Record ReplayPerformanceEntry := {
  rpe_type : string;
  rpe_name : string;
  rpe_start : Q;
  rpe_end : Q;
  rpe_data : option AllPerformanceEntryData;
}.

(** [entries.map(f)], where [f] may throw: the first throw ends the loop. *)
Fixpoint mapCompletion {A B} (f : A → Completion B) (l : list A) : Completion (list B) :=
  match l with
  | [] => Returned []
  | x :: rest =>
      match f x with
      | Thrown e => Thrown e
      | Returned y =>
          match mapCompletion f rest with
          | Thrown e => Thrown e
          | Returned ys => Returned (y :: ys)
          end
      end
  end.

(** [replay.replayPerformanceEntries.push(getter(metric))]: what the buffer
    holds after the handler returned, or the error [getter] threw before
    anything was pushed. *)
Definition webVitalHandler {Metric Entry : Type} (getter : Metric → Completion Entry)
    (replayPerformanceEntries : list Entry) (metric : Metric) : Completion (list Entry) :=
  match getter metric with
  | Returned e => Returned (replayPerformanceEntries ++ [e])
  | Thrown err => Thrown err
  end.

Section Entries.
(** [browserPerformanceTimeOrigin] and [WINDOW.performance.timeOrigin]. *)
Variable browserPerformanceTimeOrigin : option Q.
Variable WINDOW_performance_timeOrigin : Q.
(** [ENTRY_TYPES] is an object literal, so an [entryType] that names a
    property of [Object.prototype] finds that property, which is truthy,
    and calls it with the entry. [callInherited] is what that call does:
    it throws, or returns a falsy value ([None]) or a truthy one, which
    is no replay entry. *)
Variable Foreign : Type.
Variable callInherited : string → AllPerformanceEntry → Completion (option Foreign).

Definition getAbsoluteTime (time : Q) : Q :=
  PerformanceEntries.getAbsoluteTime browserPerformanceTimeOrigin
    WINDOW_performance_timeOrigin time.

Definition createPaintEntry (entry : AllPerformanceEntry) : ReplayPerformanceEntry :=
  let start := getAbsoluteTime (startTime entry) in
  {| rpe_type := entryType entry;
     rpe_name := name entry;
     rpe_start := start;
     rpe_end := (start + duration entry)%Q;
     rpe_data := None |}.

Definition createNavigationEntry (entry : AllPerformanceEntry)
  : option ReplayPerformanceEntry :=
  if Qeq_bool (duration entry) 0 then None
  else
    Some {| rpe_type := entryType entry +:+ "." +:+ type entry;
            rpe_start := getAbsoluteTime (startTime entry);
            rpe_end := getAbsoluteTime (domComplete entry);
            rpe_name := name entry;
            rpe_data :=
              Some (Navigation
                      {| nd_size := transferSize entry;
                         nd_decodedBodySize := decodedBodySize entry;
                         nd_encodedBodySize := encodedBodySize entry;
                         nd_duration := duration entry;
                         nd_domInteractive := domInteractive entry;
                         nd_domContentLoadedEventStart := domContentLoadedEventStart entry;
                         nd_domContentLoadedEventEnd := domContentLoadedEventEnd entry;
                         nd_loadEventStart := loadEventStart entry;
                         nd_loadEventEnd := loadEventEnd entry;
                         nd_domComplete := domComplete entry;
                         nd_redirectCount := redirectCount entry |}) |}.

Definition createResourceEntry (entry : AllPerformanceEntry)
  : option ReplayPerformanceEntry :=
  if bool_decide (initiatorType entry ∈ ["fetch"; "xmlhttprequest"]) then None
  else
    Some {| rpe_type := entryType entry +:+ "." +:+ initiatorType entry;
            rpe_start := getAbsoluteTime (startTime entry);
            rpe_end := getAbsoluteTime (responseEnd entry);
            rpe_name := name entry;
            rpe_data :=
              Some (Resource
                      {| rd_size := transferSize entry;
                         rd_statusCode := responseStatus entry;
                         rd_decodedBodySize := decodedBodySize entry;
                         rd_encodedBodySize := encodedBodySize entry |}) |}.

(** Map entryType -> function to normalize data for event. *)
Definition ENTRY_TYPES : gmap string (AllPerformanceEntry → option ReplayPerformanceEntry) :=
  list_to_map
    [("resource", createResourceEntry);
     ("paint", λ entry, Some (createPaintEntry entry));
     ("navigation", createNavigationEntry)].

(** What [createPerformanceEntry] returns: [None] for [null] or another
    falsy value, else a replay entry or whatever an inherited property
    produced. *)
Definition createPerformanceEntry (entry : AllPerformanceEntry)
  : Completion (option (ReplayPerformanceEntry + Foreign)) :=
  match ENTRY_TYPES !! entryType entry with
  | Some create => Returned (inl <$> create entry)
  | None =>
      if bool_decide (entryType entry ∈ VueTracing.Object_prototype_keys)
      then match callInherited (entryType entry) entry with
           | Returned v => Returned (inr <$> v)
           | Thrown e => Thrown e
           end
      else Returned None
  end.

(** [entries.map(createPerformanceEntry).filter(Boolean)] *)
Definition createPerformanceEntries (entries : list AllPerformanceEntry)
  : Completion (list (ReplayPerformanceEntry + Foreign)) :=
  match mapCompletion createPerformanceEntry entries with
  | Returned results => Returned (omap id results)
  | Thrown e => Thrown e
  end.

(** Whether an entry of a type with a [create*] function gets past its
    early return: a paint entry always, a navigation entry with a
    duration, a resource entry that neither [fetch] nor XHR initiated. *)
Definition recorded (entry : AllPerformanceEntry) : bool :=
  bool_decide (entryType entry = "paint")
  || (bool_decide (entryType entry = "navigation") && negb (Qeq_bool (duration entry) 0))
  || (bool_decide (entryType entry = "resource")
      && negb (bool_decide (initiatorType entry ∈ ["fetch"; "xmlhttprequest"]))).
End Entries.

End ReplayEntries.

(** ** A small component tree used in the examples *)

Module Scenario.
Import VueTracing.

Definition App : VueSentry := {| vm_id := 0; vm_root := 0; vm_name := "App" |}.
Definition Foo : VueSentry := {| vm_id := 1; vm_root := 0; vm_name := "Foo" |}.
Definition Bar : VueSentry := {| vm_id := 2; vm_root := 0; vm_name := "Bar" |}.

Definition mount : list Hook := ["beforeMount"; "mounted"].
Definition update : list Hook := ["beforeUpdate"; "updated"].

Definition trackAll : TracingOptions :=
  {| hooks := None; trackComponents := TrackBool true; timeout := 100 |}.
Definition trackFoo : TracingOptions :=
  {| hooks := None; trackComponents := TrackList ["Foo"]; timeout := 100 |}.

(** Three layout-shift metrics: no entries, an entry without [sources],
    and an entry whose [sources] is an empty array. *)
Definition clsNoEntries : PerformanceEntries.Metric nat unit :=
  {| PerformanceEntries.value := 0; PerformanceEntries.rating := PerformanceEntries.good;
     PerformanceEntries.entries := [] |}.
Definition clsNoSources : PerformanceEntries.Metric nat unit :=
  {| PerformanceEntries.value := 1 # 10; PerformanceEntries.rating := PerformanceEntries.good;
     PerformanceEntries.entries :=
       [{| PerformanceEntries.element := None; PerformanceEntries.sources := None;
           PerformanceEntries.target := None |}] |}.
Definition clsEmptySources : PerformanceEntries.Metric nat unit :=
  {| PerformanceEntries.value := 1 # 10; PerformanceEntries.rating := PerformanceEntries.poor;
     PerformanceEntries.entries :=
       [{| PerformanceEntries.element := None; PerformanceEntries.sources := Some [];
           PerformanceEntries.target := None |}] |}.

(** [DEFAULT_HOOKS] as the Vue integration defines it, and a configuration
    that asks for an operation no hook is known for. *)
Definition defaultHooks : list Operation := ["activate"; "mount"; "update"].
Definition withUnknown : TracingOptions :=
  {| hooks := Some ["mount"; "foo"; "create"]; trackComponents := TrackAbsent; timeout := 2000 |}.

(** A span of the surrounding trace, owned by the application. *)
Definition trace : Span := 1000%nat.

(** Nothing has happened yet; [a] is what [getActiveSpan] returns. *)
Definition idle (a : option Span) : World :=
  {| heap := ∅; activeSpan := a; nextSpan := 0%nat; tracerCalls := [];
     nextTimer := 1%positive; pending := []; now := 0; warnings := [] |}.

(** [Foo] is between [beforeMount] and [mounted] under an active trace. *)
Definition mounting : World :=
  hookFunction trackAll "mount" mount "beforeMount" Foo (idle (Some trace)).

(** The trace went away while [Foo]'s mount span is still stored. *)
Definition orphaned : World := set_activeSpan None mounting.

(** The root and [Foo] mount under a trace: [Foo] is mounted after 5 ms,
    the root 50 ms later. *)
Definition mountBoth : list Event :=
  [HookFired "mount" mount "beforeMount" App;
   HookFired "mount" mount "beforeMount" Foo;
   ClockAdvanced 5;
   HookFired "mount" mount "mounted" Foo;
   ClockAdvanced 50;
   HookFired "mount" mount "mounted" App].

Definition bothMounted : World :=
  default (idle None) (run trackAll mountBoth (idle (Some trace))).

(** Then both close timers fire, late and one after the other. *)
Definition bothTimersFired : World :=
  default (idle None)
    (run trackAll [ClockAdvanced 60; TimerFired 1%positive; ClockAdvanced 50;
                   TimerFired 2%positive] bothMounted).




(** A browser entry that started at [startTime] and finished loading at
    [finish], of navigation type or with initiator [kind]. *)
Definition browserEntry (entryType name : string) (startTime duration finish : Q)
    (kind : string) : ReplayEntries.AllPerformanceEntry :=
  {| ReplayEntries.entryType := entryType; ReplayEntries.name := name;
     ReplayEntries.startTime := startTime; ReplayEntries.duration := duration;
     ReplayEntries.decodedBodySize := 900; ReplayEntries.encodedBodySize := 300;
     ReplayEntries.transferSize := 350; ReplayEntries.domComplete := finish;
     ReplayEntries.domContentLoadedEventStart := 0;
     ReplayEntries.domContentLoadedEventEnd := 0;
     ReplayEntries.domInteractive := 0; ReplayEntries.loadEventStart := 0;
     ReplayEntries.loadEventEnd := 0; ReplayEntries.redirectCount := 0;
     ReplayEntries.type := kind; ReplayEntries.initiatorType := kind;
     ReplayEntries.responseEnd := finish; ReplayEntries.responseStatus := Some 200%Q |}.

(** What a performance observer may deliver: the navigation, a navigation
    entry without duration, the first paint, a script, a request made with
    [fetch] and a user-timing mark. *)
Definition navigationEntry : ReplayEntries.AllPerformanceEntry :=
  browserEntry "navigation" "https://example.com/" 0 250 240 "navigate".
Definition emptyNavigation : ReplayEntries.AllPerformanceEntry :=
  browserEntry "navigation" "https://example.com/" 0 0 0 "navigate".
Definition paintEntry : ReplayEntries.AllPerformanceEntry :=
  browserEntry "paint" "first-paint" 90 0 0 "".
Definition scriptEntry : ReplayEntries.AllPerformanceEntry :=
  browserEntry "resource" "https://example.com/app.js" 120 60 180 "script".
Definition fetchEntry : ReplayEntries.AllPerformanceEntry :=
  browserEntry "resource" "https://example.com/api" 200 30 230 "fetch".
Definition markEntry : ReplayEntries.AllPerformanceEntry :=
  browserEntry "mark" "app-ready" 300 0 0 "".

Definition observed : list ReplayEntries.AllPerformanceEntry :=
  [navigationEntry; emptyNavigation; paintEntry; scriptEntry; fetchEntry; markEntry].

(** No inherited property is ever called in the examples. *)
Definition noInherited (key : string) (entry : ReplayEntries.AllPerformanceEntry)
  : Completion (option Empty_set) := Returned None.

(** A layout shift attributed to one node, and a largest contentful paint. *)
Definition clsOneSource : PerformanceEntries.Metric nat unit :=
  {| PerformanceEntries.value := 1 # 10; PerformanceEntries.rating := PerformanceEntries.good;
     PerformanceEntries.entries :=
       [{| PerformanceEntries.element := None;
           PerformanceEntries.sources :=
             Some [{| PerformanceEntries.node := Some 7%nat;
                      PerformanceEntries.previousRect := tt;
                      PerformanceEntries.currentRect := tt |}];
           PerformanceEntries.target := None |}] |}.
Definition lcpMetric : PerformanceEntries.Metric nat unit :=
  {| PerformanceEntries.value := 2500; PerformanceEntries.rating := PerformanceEntries.good;
     PerformanceEntries.entries :=
       [{| PerformanceEntries.element := Some 3%nat; PerformanceEntries.sources := None;
           PerformanceEntries.target := None |}] |}.

End Scenario.

(** * Properties *)

Import VueTracing.

(** ** Reading the heap after a write *)

Section HeapLemmas.
Implicit Types (w : World) (i j : nat).

Lemma data_set_sentrySpans i m w j :
  data (set_sentrySpans i m w) j =
  if decide (i = j)
  then {| _sentrySpans := m;
          _sentryRootSpan := _sentryRootSpan (data w i);
          _sentryRootSpanTimer := _sentryRootSpanTimer (data w i) |}
  else data w j.
Proof.
  unfold data, set_sentrySpans; simpl. rewrite lookup_insert.
  by destruct (decide (i = j)).
Qed.

Lemma data_set_sentryRootSpan i s w j :
  data (set_sentryRootSpan i s w) j =
  if decide (i = j)
  then {| _sentrySpans := _sentrySpans (data w i);
          _sentryRootSpan := s;
          _sentryRootSpanTimer := _sentryRootSpanTimer (data w i) |}
  else data w j.
Proof.
  unfold data, set_sentryRootSpan; simpl. rewrite lookup_insert.
  by destruct (decide (i = j)).
Qed.

Lemma data_set_sentryRootSpanTimer i h w j :
  data (set_sentryRootSpanTimer i h w) j =
  if decide (i = j)
  then {| _sentrySpans := _sentrySpans (data w i);
          _sentryRootSpan := _sentryRootSpan (data w i);
          _sentryRootSpanTimer := h |}
  else data w j.
Proof.
  unfold data, set_sentryRootSpanTimer; simpl. rewrite lookup_insert.
  by destruct (decide (i = j)).
Qed.

Lemma data_same_heap w w' j : heap w' = heap w → data w' j = data w j.
Proof. unfold data. by intros ->. Qed.
End HeapLemmas.

Lemma startedIn_app l k : startedIn (l ++ k) = startedIn l ++ startedIn k.
Proof. apply omap_app. Qed.

Lemma endedIn_app l k : endedIn (l ++ k) = endedIn l ++ endedIn k.
Proof. apply omap_app. Qed.

Ltac heap_simpl :=
  repeat first
    [ rewrite data_set_sentrySpans
    | rewrite data_set_sentryRootSpan
    | rewrite data_set_sentryRootSpanTimer
    | progress simpl ].

(** ** The three ways through the hook function *)

Section HookCases.
Variables (options : TracingOptions) (operation : Operation).
Variables (internalHooks : list Hook) (internalHook : Hook).
Variables (this : VueSentry) (w : World).

Lemma hookFunction_untracked :
  isRoot this = false →
  tracked options this = false →
  hookFunction options operation internalHooks internalHook this w = w.
Proof.
  unfold tracked, hookFunction, startRootSpan. intros -> Hs.
  simpl in Hs. by rewrite Hs.
Qed.

Lemma hookFunction_before :
  tracked options this = true →
  internalHooks !! 0%nat = Some internalHook →
  hookFunction options operation internalHooks internalHook this w
  = beforeHook operation this (initSpans this (startRootSpan this w)).
Proof.
  unfold tracked, hookFunction. intros Ht Hb.
  replace (negb (isRoot this) && negb (shouldTrack options (vm_name this))) with false
    by (destruct (isRoot this), (shouldTrack options (vm_name this)); done).
  by rewrite bool_decide_true.
Qed.

Lemma hookFunction_after :
  tracked options this = true →
  internalHooks !! 0%nat ≠ Some internalHook →
  hookFunction options operation internalHooks internalHook this w
  = afterHook options operation this (initSpans this (startRootSpan this w)).
Proof.
  unfold tracked, hookFunction. intros Ht Hb.
  replace (negb (isRoot this) && negb (shouldTrack options (vm_name this))) with false
    by (destruct (isRoot this), (shouldTrack options (vm_name this)); done).
  by rewrite bool_decide_false.
Qed.
End HookCases.

(** ** What [initSpans] and [startRootSpan] leave alone *)

Section Prelude.
Variables (this : VueSentry) (w : World).

Lemma initSpans_spansOf that : spansOf that (initSpans this w) = spansOf that w.
Proof.
  unfold initSpans, spansOf.
  destruct (_sentrySpans (data w (vm_id this))) eqn:E; [done|].
  heap_simpl. case_decide as Hij; [|done]. simpl. by rewrite <- Hij, E.
Qed.

Lemma initSpans_rootSpan j :
  _sentryRootSpan (data (initSpans this w) j) = _sentryRootSpan (data w j).
Proof.
  unfold initSpans. destruct (_sentrySpans (data w (vm_id this))); [done|].
  heap_simpl. case_decide as Hij; [|done]. by rewrite <- Hij.
Qed.

Lemma initSpans_timer j :
  _sentryRootSpanTimer (data (initSpans this w) j) = _sentryRootSpanTimer (data w j).
Proof.
  unfold initSpans. destruct (_sentrySpans (data w (vm_id this))); [done|].
  heap_simpl. case_decide as Hij; [|done]. by rewrite <- Hij.
Qed.

Lemma initSpans_tracer :
  tracerCalls (initSpans this w) = tracerCalls w
  ∧ nextSpan (initSpans this w) = nextSpan w ∧ activeSpan (initSpans this w) = activeSpan w.
Proof. unfold initSpans. by destruct (_sentrySpans _). Qed.

Lemma initSpans_timers :
  pending (initSpans this w) = pending w ∧ nextTimer (initSpans this w) = nextTimer w
  ∧ now (initSpans this w) = now w ∧ warnings (initSpans this w) = warnings w.
Proof. unfold initSpans. by destruct (_sentrySpans _). Qed.

Lemma initSpans_id : is_Some (_sentrySpans (data w (vm_id this))) → initSpans this w = w.
Proof. unfold initSpans. by intros [m ->]. Qed.

Lemma startingSpan_initSpans that : startingSpan that (initSpans this w) = startingSpan that w.
Proof.
  unfold startingSpan, getActiveSpan.
  rewrite initSpans_rootSpan. by destruct initSpans_tracer as (_ & _ & ->).
Qed.

Lemma startRootSpan_spans j :
  _sentrySpans (data (startRootSpan this w) j) = _sentrySpans (data w j).
Proof.
  unfold startRootSpan, getActiveSpan.
  destruct (isRoot this), (activeSpan w), (_sentryRootSpan (data w (vm_id this))); try done.
  heap_simpl. case_decide as Hij; [|done]. by rewrite <- Hij.
Qed.

Lemma startRootSpan_spansOf that : spansOf that (startRootSpan this w) = spansOf that w.
Proof. unfold spansOf. by rewrite startRootSpan_spans. Qed.

Lemma startRootSpan_timer j :
  _sentryRootSpanTimer (data (startRootSpan this w) j) = _sentryRootSpanTimer (data w j).
Proof.
  unfold startRootSpan, getActiveSpan.
  destruct (isRoot this), (activeSpan w), (_sentryRootSpan (data w (vm_id this))); try done.
  heap_simpl. case_decide as Hij; [|done]. by rewrite <- Hij.
Qed.

Lemma startRootSpan_rest :
  activeSpan (startRootSpan this w) = activeSpan w
  ∧ pending (startRootSpan this w) = pending w ∧ nextTimer (startRootSpan this w) = nextTimer w
  ∧ now (startRootSpan this w) = now w ∧ warnings (startRootSpan this w) = warnings w.
Proof.
  unfold startRootSpan, getActiveSpan.
  destruct (isRoot this), (activeSpan w) eqn:?, (_sentryRootSpan (data w (vm_id this)));
    by repeat split.
Qed.

Lemma startRootSpan_tracer :
  tracerCalls (startRootSpan this w)
  = tracerCalls w ++ (if rootSpanDue this w
                      then [SpanStarted (nextSpan w) rootSpanOptions] else [])
  ∧ nextSpan (startRootSpan this w)
    = if rootSpanDue this w then S (nextSpan w) else nextSpan w.
Proof.
  unfold startRootSpan, rootSpanDue, getActiveSpan.
  destruct (isRoot this), (activeSpan w) eqn:?, (_sentryRootSpan (data w (vm_id this)));
    simpl; by rewrite ?app_nil_r.
Qed.

Lemma startRootSpan_rootSpan j :
  _sentryRootSpan (data (startRootSpan this w) j)
  = if rootSpanDue this w && bool_decide (vm_id this = j)
    then Some (nextSpan w) else _sentryRootSpan (data w j).
Proof.
  unfold startRootSpan, rootSpanDue, getActiveSpan.
  destruct (isRoot this), (activeSpan w) eqn:?, (_sentryRootSpan (data w (vm_id this)));
    simpl; try done.
  heap_simpl. by case_decide; case_bool_decide.
Qed.

Lemma rootSpanDue_false :
  isRoot this = false ∨ activeSpan w = None
  ∨ is_Some (_sentryRootSpan (data w (vm_id this))) →
  rootSpanDue this w = false.
Proof.
  unfold rootSpanDue, getActiveSpan.
  intros [-> | [-> | [s ->]]]; [done | |].
  - rewrite bool_decide_false; [by rewrite andb_false_r | by intros [? ?]].
  - by rewrite andb_false_r.
Qed.


(** The block is a no-op unless [this] is the root, a trace is active and
    no root span is stored. *)
Lemma startRootSpan_noop :
  isRoot this = false ∨ activeSpan w = None
  ∨ is_Some (_sentryRootSpan (data w (vm_id this))) →
  startRootSpan this w = w.
Proof.
  unfold startRootSpan, getActiveSpan.
  intros [-> | [-> | [s ->]]]; [done | by destruct (isRoot this) |].
  by destruct (isRoot this), (activeSpan w).
Qed.

Lemma startRootSpan_starts a :
  isRoot this = true → activeSpan w = Some a →
  _sentryRootSpan (data w (vm_id this)) = None →
  startRootSpan this w
  = set_sentryRootSpan (vm_id this) (Some (nextSpan w))
      (startInactiveSpan rootSpanOptions w).2.
Proof. unfold startRootSpan, getActiveSpan. by intros -> -> ->. Qed.

Lemma startingSpan_startRootSpan :
  is_Some (startingSpan this (startRootSpan this w)) ↔ is_Some (startingSpan this w).
Proof.
  unfold startRootSpan, startingSpan, getActiveSpan, isRoot.
  case_bool_decide as Hr; [|done]. rewrite Hr.
  destruct (activeSpan w) eqn:Ha. 2:{ by rewrite ?Ha. }
  destruct (_sentryRootSpan (data w (vm_id this))) eqn:Hs.
  - by rewrite Hs.
  - heap_simpl. rewrite decide_True by done. simpl. rewrite ?Ha. split; eauto.
Qed.
End Prelude.

(** ** Removing duplicates from the operation list *)

Section RemoveDuplicates.
Implicit Types (self : list string) (v : string).

Lemma indexOf_Some self v i :
  indexOf self v = Some i ↔
  self !! i = Some v ∧ ∀ j, (j < i)%nat → self !! j ≠ Some v.
Proof.
  unfold indexOf. split.
  - destruct (list_find _ self) as [[i' x]|] eqn:E; [|done]. simpl. intros [= ->].
    apply list_find_Some in E as (Hl & -> & Hmin). split; [done|].
    intros j Hj Hv. by apply (Hmin j v).
  - intros [Hl Hmin].
    assert (list_find (λ x, x = v) self = Some (i, v)) as ->; [|done].
    apply list_find_Some. split; [done|]. split; [done|].
    intros j y Hy Hj ->. by apply (Hmin j).
Qed.

Lemma indexOf_elem_of self v : v ∈ self → is_Some (indexOf self v).
Proof.
  intros Hv. unfold indexOf.
  destruct (list_find_elem_of (λ x, x = v) self v Hv eq_refl) as [[i x] ->]. by eexists.
Qed.

Lemma indexOf_is_Some self v : is_Some (indexOf self v) ↔ v ∈ self.
Proof.
  split; [|apply indexOf_elem_of].
  intros [i [Hi _]%indexOf_Some]. by eapply list_elem_of_lookup_2.
Qed.

(** An element is kept exactly at its first index. *)
Lemma elem_of_kept self i v :
  (i, v) ∈ filter (λ iv, indexOf self iv.2 = Some iv.1) (imap pair self)
  ↔ indexOf self v = Some i.
Proof.
  rewrite list_elem_of_filter. simpl. split; [by intros [? _]|].
  intros Hi. split; [done|].
  apply indexOf_Some in Hi as [Hl _]. by apply (elem_of_lookup_imap_2 pair).
Qed.

Lemma elem_of_removeDuplicates self v : v ∈ removeDuplicates self ↔ v ∈ self.
Proof.
  unfold removeDuplicates. rewrite list_elem_of_fmap. split.
  - intros ([i x] & -> & Hk). apply elem_of_kept, indexOf_Some in Hk as [Hl _].
    simpl. by eapply list_elem_of_lookup_2.
  - intros Hv. destruct (indexOf_elem_of self v Hv) as [i Hi].
    exists (i, v). split; [done|]. by apply elem_of_kept.
Qed.

Lemma NoDup_removeDuplicates self : NoDup (removeDuplicates self).
Proof.
  unfold removeDuplicates. apply NoDup_fmap_2_strong.
  - intros [i x] [j y] Hx Hy. simpl. intros <-.
    apply elem_of_kept in Hx, Hy. congruence.
  - apply NoDup_filter. apply NoDup_alt. intros i j [k x].
    rewrite !list_lookup_imap. intros Hi Hj.
    destruct (self !! i), (self !! j); simplify_eq/=. done.
Qed.
End RemoveDuplicates.

Lemma filter_agree {A} (P Q : A → Prop) `{∀ x, Decision (P x)} `{∀ x, Decision (Q x)}
    (l : list A) :
  (∀ x, x ∈ l → (P x ↔ Q x)) → filter P l = filter Q l.
Proof.
  induction l as [|x l IH]; intros Hext; [done|].
  assert (Hl : filter P l = filter Q l).
  { apply IH. intros y Hy. apply Hext. by apply list_elem_of_further. }
  destruct (decide (P x)) as [Hp | Hp].
  - rewrite !filter_cons_True; [by rewrite Hl | | done].
    apply Hext; [apply list_elem_of_here | done].
  - rewrite !filter_cons_False; [done | | done].
    intros Hq. apply Hp, Hext; [apply list_elem_of_here | done].
Qed.

Lemma indexOf_app_l (l : list string) x v : v ∈ l → indexOf (l ++ [x]) v = indexOf l v.
Proof.
  intros Hv. destruct (indexOf_elem_of l v Hv) as [i Hi]. rewrite Hi.
  apply indexOf_Some in Hi as [Hl Hmin]. apply indexOf_Some. split.
  - rewrite lookup_app_l; [done | by eapply lookup_lt_Some].
  - intros j Hj. rewrite lookup_app_l; [by apply Hmin|].
    apply lookup_lt_Some in Hl. lia.
Qed.

Lemma indexOf_app_last (l : list string) x : indexOf (l ++ [x]) x = Some (length l) ↔ x ∉ l.
Proof.
  rewrite indexOf_Some. split.
  - intros [_ Hmin] [j Hj]%list_elem_of_lookup.
    apply (Hmin j); [by eapply lookup_lt_Some|].
    rewrite lookup_app_l; [done | by eapply lookup_lt_Some].
  - intros Hx. split.
    + rewrite lookup_app_r by done. by rewrite Nat.sub_diag.
    + intros j Hj. rewrite lookup_app_l by done. intros Hl.
      apply Hx. by eapply list_elem_of_lookup_2.
Qed.

Lemma removeDuplicates_snoc (l : list string) x :
  removeDuplicates (l ++ [x])
  = if decide (x ∈ l) then removeDuplicates l else removeDuplicates l ++ [x].
Proof.
  unfold removeDuplicates. rewrite imap_app, filter_app, fmap_app. simpl.
  rewrite Nat.add_0_r.
  rewrite (filter_agree (λ iv, indexOf (l ++ [x]) iv.2 = Some iv.1)
             (λ iv, indexOf l iv.2 = Some iv.1) (imap pair l)).
  2: { intros [i v] Hin. simpl.
       apply (elem_of_lookup_imap_1 pair) in Hin as (i' & v' & [= -> ->] & Hl).
       rewrite indexOf_app_l; [done | by eapply list_elem_of_lookup_2]. }
  destruct (decide (x ∈ l)) as [Hx | Hx].
  - rewrite filter_cons_False; [by rewrite app_nil_r|]. simpl.
    intros Hi. by apply indexOf_app_last in Hi.
  - rewrite filter_cons_True; [done|]. simpl. by apply indexOf_app_last.
Qed.

Lemma removeDuplicates_sublist (l : list string) : removeDuplicates l `sublist_of` l.
Proof.
  unfold removeDuplicates.
  assert (Hl : (imap pair l).*2 = l).
  { rewrite fmap_imap. rewrite (imap_ext _ (λ _ v, v)) by done.
    induction l as [|v l IH]; [done|]. rewrite imap_cons. f_equal. exact IH. }
  rewrite <- Hl at 2. apply fmap_sublist, sublist_filter.
Qed.

Lemma removeDuplicates_NoDup (l : list string) : NoDup l → removeDuplicates l = l.
Proof.
  induction l as [|x l IH] using rev_ind; [done|].
  intros [Hl [Hx _]]%NoDup_app. rewrite removeDuplicates_snoc.
  rewrite decide_False.
  - by rewrite IH.
  - intros Hin. apply (Hx x Hin). apply list_elem_of_here.
Qed.

(** The kept names stand in the order of their first occurrences. *)
Lemma removeDuplicates_order (l : list string) :
  ∀ i j a b,
    removeDuplicates l !! i = Some a → removeDuplicates l !! j = Some b → (i < j)%nat →
    ∃ i' j', indexOf l a = Some i' ∧ indexOf l b = Some j' ∧ (i' < j')%nat.
Proof.
  induction l as [|x l IH] using rev_ind; intros i j a b; [done|].
  rewrite removeDuplicates_snoc.
  assert (Hold : removeDuplicates l !! i = Some a → removeDuplicates l !! j = Some b →
                 (i < j)%nat →
                 ∃ i' j', indexOf (l ++ [x]) a = Some i' ∧ indexOf (l ++ [x]) b = Some j'
                          ∧ (i' < j')%nat).
  { intros Ha Hb Hij. destruct (IH i j a b Ha Hb Hij) as (i' & j' & Hi & Hj & Hlt).
    exists i', j'. rewrite !indexOf_app_l; [done | |].
    - apply elem_of_removeDuplicates. by eapply list_elem_of_lookup_2.
    - apply elem_of_removeDuplicates. by eapply list_elem_of_lookup_2. }
  destruct (decide (x ∈ l)) as [Hx | Hx]; [done|].
  intros Ha Hb Hij.
  destruct (decide (j < length (removeDuplicates l))%nat) as [Hj | Hj].
  - rewrite lookup_app_l in Ha by lia. rewrite lookup_app_l in Hb by lia. by apply Hold.
  - assert (Hjl : j = length (removeDuplicates l)).
    { apply lookup_lt_Some in Hb. rewrite length_app in Hb. simpl in Hb. lia. }
    subst j. rewrite lookup_app_l in Ha by lia.
    rewrite lookup_app_r, Nat.sub_diag in Hb by lia. injection Hb as <-.
    assert (Hal : a ∈ l).
    { apply elem_of_removeDuplicates. by eapply list_elem_of_lookup_2. }
    destruct (indexOf_elem_of l a Hal) as [i' Hi'].
    exists i', (length l). rewrite indexOf_app_l by done.
    split; [done|]. split; [by apply indexOf_app_last|].
    apply indexOf_Some in Hi' as [Hl _]. by eapply lookup_lt_Some.
Qed.


(** ** The before-hook and after-hook branches *)

Section BeforeAfter.
Variables (options : TracingOptions) (operation : Operation).
Variables (this : VueSentry) (w : World).

Lemma beforeHook_no_context :
  startingSpan this w = None → beforeHook operation this w = w.
Proof. unfold beforeHook. by intros ->. Qed.

Lemma beforeHook_tracer :
  is_Some (startingSpan this w) →
  tracerCalls (beforeHook operation this w)
  = tracerCalls w
    ++ match spansOf this w !! operation with
       | Some oldSpan => [SpanEnded oldSpan None]
       | None => []
       end
    ++ [SpanStarted (nextSpan w) (componentSpanOptions (vm_name this) operation)]
  ∧ nextSpan (beforeHook operation this w) = S (nextSpan w)
  ∧ activeSpan (beforeHook operation this w) = activeSpan w.
Proof.
  unfold beforeHook. intros [c ->].
  destruct (spansOf this w !! operation); simpl; by rewrite <- ?app_assoc.
Qed.

Lemma beforeHook_spansOf :
  is_Some (startingSpan this w) →
  spansOf this (beforeHook operation this w) = <[operation := nextSpan w]> (spansOf this w)
  ∧ ∀ that, vm_id that ≠ vm_id this →
            spansOf that (beforeHook operation this w) = spansOf that w.
Proof.
  unfold beforeHook. intros [c ->].
  destruct (spansOf this w !! operation); unfold spansOf;
    (split; [| intros that Hne]; heap_simpl;
     [by rewrite decide_True | by rewrite decide_False]).
Qed.

Lemma beforeHook_root j :
  _sentryRootSpan (data (beforeHook operation this w) j) = _sentryRootSpan (data w j)
  ∧ _sentryRootSpanTimer (data (beforeHook operation this w) j)
    = _sentryRootSpanTimer (data w j).
Proof.
  unfold beforeHook. destruct (startingSpan this w); [|done].
  destruct (spansOf this w !! operation); heap_simpl;
    (case_decide as Hij; [by rewrite <- Hij | done]).
Qed.

Lemma beforeHook_timers :
  pending (beforeHook operation this w) = pending w
  ∧ nextTimer (beforeHook operation this w) = nextTimer w
  ∧ now (beforeHook operation this w) = now w
  ∧ warnings (beforeHook operation this w) = warnings w.
Proof.
  unfold beforeHook. destruct (startingSpan this w); [|done].
  by destruct (spansOf this w !! operation).
Qed.

Lemma afterHook_none :
  spansOf this w !! operation = None → afterHook options operation this w = w.
Proof. unfold afterHook. by intros ->. Qed.

(** The timer queue after [finishRootSpan] has run for [this]. *)
Lemma afterHook_timers span :
  spansOf this w !! operation = Some span →
  pending (afterHook options operation this w)
  = match _sentryRootSpanTimer (data w (vm_id this)) with
    | Some h => filter (λ t, t_handle t ≠ h) (pending w)
    | None => pending w
    end
    ++ [{| t_handle := nextTimer w;
           t_due := now w + Z.max 0 (timeout options);
           t_vm := this;
           t_timestamp := timestampInSeconds w |}]
  ∧ nextTimer (afterHook options operation this w) = Pos.succ (nextTimer w)
  ∧ now (afterHook options operation this w) = now w
  ∧ warnings (afterHook options operation this w) = warnings w.
Proof.
  unfold afterHook, finishRootSpan. intros ->.
  change (data (span_end span None w)) with (data w).
  by destruct (_sentryRootSpanTimer (data w (vm_id this))).
Qed.

Lemma afterHook_tracer span :
  spansOf this w !! operation = Some span →
  tracerCalls (afterHook options operation this w) = tracerCalls w ++ [SpanEnded span None]
  ∧ nextSpan (afterHook options operation this w) = nextSpan w
  ∧ activeSpan (afterHook options operation this w) = activeSpan w.
Proof.
  unfold afterHook, finishRootSpan. intros ->.
  change (data (span_end span None w)) with (data w).
  by destruct (_sentryRootSpanTimer (data w (vm_id this))).
Qed.

Lemma afterHook_data span j :
  spansOf this w !! operation = Some span →
  _sentrySpans (data (afterHook options operation this w) j) = _sentrySpans (data w j)
  ∧ _sentryRootSpan (data (afterHook options operation this w) j)
    = _sentryRootSpan (data w j)
  ∧ _sentryRootSpanTimer (data (afterHook options operation this w) j)
    = if decide (vm_id this = j) then Some (nextTimer w)
      else _sentryRootSpanTimer (data w j).
Proof.
  unfold afterHook, finishRootSpan. intros ->.
  change (data (span_end span None w)) with (data w).
  destruct (_sentryRootSpanTimer (data w (vm_id this))); heap_simpl;
    (case_decide as Hij; [by rewrite <- Hij | done]).
Qed.

Lemma afterHook_spansOf that :
  spansOf that (afterHook options operation this w) = spansOf that w.
Proof.
  destruct (spansOf this w !! operation) as [span|] eqn:E; unfold spansOf.
  - by destruct (afterHook_data span (vm_id that) E) as (-> & _).
  - by rewrite afterHook_none.
Qed.
End BeforeAfter.

(** ** The hook function as a whole *)

Section HookFrame.
Variables (options : TracingOptions) (operation : Operation).
Variables (internalHooks : list Hook) (internalHook : Hook).
Variables (this : VueSentry) (w : World).

Let w' := hookFunction options operation internalHooks internalHook this w.
Let w0 := initSpans this (startRootSpan this w).

Lemma hookFunction_cases :
  (isRoot this = false ∧ tracked options this = false ∧ w' = w)
  ∨ (tracked options this = true ∧ internalHooks !! 0%nat = Some internalHook
     ∧ w' = beforeHook operation this w0)
  ∨ (tracked options this = true ∧ internalHooks !! 0%nat ≠ Some internalHook
     ∧ spansOf this w !! operation = None ∧ w' = w0)
  ∨ (∃ span, tracked options this = true ∧ internalHooks !! 0%nat ≠ Some internalHook
     ∧ spansOf this w0 !! operation = Some span
     ∧ spansOf this w !! operation = Some span
     ∧ w' = afterHook options operation this w0).
Proof.
  subst w' w0. unfold tracked.
  destruct (isRoot this) eqn:Hr, (shouldTrack options (vm_name this)) eqn:Hs; simpl.
  4: { left. repeat split. apply hookFunction_untracked; unfold tracked; by rewrite ?Hr, ?Hs. }
  all: right.
  all: assert (Ht : tracked options this = true) by (unfold tracked; by rewrite Hr, Hs).
  all: destruct (decide (internalHooks !! 0%nat = Some internalHook)) as [Hb | Hb];
    [left; repeat split; [done | by apply hookFunction_before] | right].
  all: rewrite hookFunction_after by done.
  all: destruct (spansOf this w !! operation) as [span|] eqn:E;
    [right; exists span | left]; repeat split; try done.
  all: try (by rewrite initSpans_spansOf, startRootSpan_spansOf).
  all: apply afterHook_none; by rewrite initSpans_spansOf, startRootSpan_spansOf.
Qed.

Lemma hookFunction_warnings : warnings w' = warnings w.
Proof.
  destruct hookFunction_cases
    as [(_ & _ & ->) | [(_ & _ & ->) | [(_ & _ & _ & ->) | (s & _ & _ & E & _ & ->)]]];
    [done | | |].
  - destruct (beforeHook_timers operation this w0) as (_ & _ & _ & ->). subst w0.
    destruct (initSpans_timers this (startRootSpan this w)) as (_ & _ & _ & ->).
    by destruct (startRootSpan_rest this w) as (_ & _ & _ & _ & ->).
  - subst w0.
    destruct (initSpans_timers this (startRootSpan this w)) as (_ & _ & _ & ->).
    by destruct (startRootSpan_rest this w) as (_ & _ & _ & _ & ->).
  - destruct (afterHook_timers options operation this _ _ E) as (_ & _ & _ & ->). subst w0.
    destruct (initSpans_timers this (startRootSpan this w)) as (_ & _ & _ & ->).
    by destruct (startRootSpan_rest this w) as (_ & _ & _ & _ & ->).
Qed.

(** Only the block at the top of the function writes [_sentryRootSpan]. *)
Lemma hookFunction_rootSpan j :
  _sentryRootSpan (data w' j)
  = if rootSpanDue this w && bool_decide (vm_id this = j)
    then Some (nextSpan w) else _sentryRootSpan (data w j).
Proof.
  destruct hookFunction_cases
    as [(Hr & _ & ->) | [(_ & _ & ->) | [(_ & _ & _ & ->) | (s & _ & _ & E & _ & ->)]]].
  - by rewrite rootSpanDue_false by auto.
  - destruct (beforeHook_root operation this w0 j) as [-> _]. subst w0.
    by rewrite initSpans_rootSpan, startRootSpan_rootSpan.
  - subst w0. by rewrite initSpans_rootSpan, startRootSpan_rootSpan.
  - destruct (afterHook_data options operation this _ _ j E) as (_ & -> & _). subst w0.
    by rewrite initSpans_rootSpan, startRootSpan_rootSpan.
Qed.
End HookFrame.

(** ** Steady state: the root block and [initSpans] have nothing to do *)

Section Steady.
Variables (options : TracingOptions) (operation : Operation).
Variables (internalHooks : list Hook) (internalHook : Hook).
Variables (this : VueSentry) (w : World).

Lemma steady_prelude :
  rootSpanDue this w = false → is_Some (_sentrySpans (data w (vm_id this))) →
  initSpans this (startRootSpan this w) = w.
Proof.
  intros Hd Hs. unfold startRootSpan. unfold rootSpanDue, getActiveSpan in Hd.
  destruct (isRoot this); [|by apply initSpans_id].
  unfold getActiveSpan. destruct (activeSpan w); [|by apply initSpans_id].
  destruct (_sentryRootSpan (data w (vm_id this))); [by apply initSpans_id|].
  by simpl in Hd.
Qed.

Lemma prelude_steady :
  let w0 := initSpans this (startRootSpan this w) in
  rootSpanDue this w0 = false ∧ is_Some (_sentrySpans (data w0 (vm_id this))).
Proof.
  intros w0. subst w0. split.
  - unfold rootSpanDue, getActiveSpan.
    rewrite initSpans_rootSpan, startRootSpan_rootSpan.
    destruct (initSpans_tracer this (startRootSpan this w)) as (_ & _ & ->).
    destruct (startRootSpan_rest this w) as (-> & _).
    unfold rootSpanDue, getActiveSpan.
    destruct (isRoot this); [|done].
    destruct (activeSpan w); [|done].
    destruct (_sentryRootSpan (data w (vm_id this))); simpl; [done|].
    by rewrite (bool_decide_true (vm_id this = vm_id this)).
  - unfold initSpans.
    destruct (_sentrySpans (data (startRootSpan this w) (vm_id this))) eqn:E.
    + rewrite E. eauto.
    + heap_simpl. rewrite decide_True by done. simpl. eauto.
Qed.

Lemma beforeHook_steady :
  is_Some (startingSpan this w) → rootSpanDue this w = false →
  let w1 := beforeHook operation this w in
  rootSpanDue this w1 = false
  ∧ is_Some (_sentrySpans (data w1 (vm_id this)))
  ∧ is_Some (startingSpan this w1).
Proof.
  intros Hc Hd w1. subst w1. split; [|split].
  - unfold rootSpanDue, getActiveSpan in *.
    destruct (beforeHook_root operation this w (vm_id this)) as [-> _].
    by destruct (beforeHook_tracer operation this w Hc) as (_ & _ & ->).
  - destruct (beforeHook_spansOf operation this w Hc) as [E _].
    unfold beforeHook. destruct Hc as [c ->].
    destruct (spansOf this w !! operation); heap_simpl;
      rewrite decide_True by done; simpl; eauto.
  - unfold startingSpan, getActiveSpan in *.
    destruct (beforeHook_root operation this w (vm_root this)) as [-> _].
    by destruct (beforeHook_tracer operation this w Hc) as (_ & _ & ->).
Qed.
End Steady.

(** ** Web vitals: layout shift without attribution *)

(** C10. [getCumulativeLayoutShift] is partial: on a metric whose first
    entry carries a [sources] array that is present but empty it throws
    instead of returning; on a metric without entries, or whose first entry
    has no [sources], it returns an entry whose [nodeId] is undefined. *)
Theorem getCumulativeLayoutShift_partial
    {Node Rect : Type} (origin : option Q) (windowOrigin : Q) (getId : Node → Z)
    (metric : PerformanceEntries.Metric Node Rect) :
  let result :=
    PerformanceEntries.getCumulativeLayoutShift Node Rect origin windowOrigin getId metric in
  (∀ firstEntry,
      PerformanceEntries.entries metric !! 0%nat = Some firstEntry →
      PerformanceEntries.sources firstEntry = Some [] →
      returns result = false)
  ∧ (PerformanceEntries.entries metric = [] →
     ∃ e, result = Returned e
          ∧ PerformanceEntries.nodeId (PerformanceEntries.rpe_data e) = None)
  ∧ (∀ firstEntry,
      PerformanceEntries.entries metric !! 0%nat = Some firstEntry →
      PerformanceEntries.sources firstEntry = None →
      ∃ e, result = Returned e
           ∧ PerformanceEntries.nodeId (PerformanceEntries.rpe_data e) = None).
Proof.
  unfold PerformanceEntries.getCumulativeLayoutShift. cbv zeta.
  split; [|split].
  - intros firstEntry -> ->. reflexivity.
  - intros ->. eexists; split; reflexivity.
  - intros firstEntry -> ->. eexists; split; reflexivity.
Qed.

Lemma getCumulativeLayoutShift_partial_witness :
  returns (PerformanceEntries.getCumulativeLayoutShift nat unit None 0 Z.of_nat
             Scenario.clsEmptySources) = false
  ∧ (∃ e, PerformanceEntries.getCumulativeLayoutShift nat unit None 0 Z.of_nat
            Scenario.clsNoEntries = Returned e
          ∧ PerformanceEntries.nodeId (PerformanceEntries.rpe_data e) = None)
  ∧ (∃ e, PerformanceEntries.getCumulativeLayoutShift nat unit None 0 Z.of_nat
            Scenario.clsNoSources = Returned e
          ∧ PerformanceEntries.nodeId (PerformanceEntries.rpe_data e) = None).
Proof.
  split; [|split].
  - eapply (proj1 (getCumulativeLayoutShift_partial None 0 Z.of_nat Scenario.clsEmptySources));
      reflexivity.
  - apply (proj1 (proj2 (getCumulativeLayoutShift_partial None 0 Z.of_nat
                           Scenario.clsNoEntries))).
    reflexivity.
  - eapply (proj2 (proj2 (getCumulativeLayoutShift_partial None 0 Z.of_nat
                            Scenario.clsNoSources)));
      reflexivity.
Defined.

(** ** The component filter *)

Section Filter.
Variables (options : TracingOptions) (operation : Operation).
Variables (internalHooks : list Hook) (internalHook : Hook).
Variables (this : VueSentry) (w : World).

(** Past the filter, the function reads [options] only for its timeout. *)
Lemma hookFunction_tracked_any options' :
  tracked options this = true → tracked options' this = true →
  timeout options' = timeout options →
  hookFunction options' operation internalHooks internalHook this w
  = hookFunction options operation internalHooks internalHook this w.
Proof.
  intros Ht Ht' Hto.
  destruct (decide (internalHooks !! 0%nat = Some internalHook)).
  - by rewrite !hookFunction_before.
  - rewrite !hookFunction_after by done. unfold afterHook. by rewrite Hto.
Qed.
End Filter.


(** ** The after-hook *)

(** An after-hook that finds a span stored: what it does to the tracer,
    the span map and the timers. *)
Lemma after_with_span
    (options : TracingOptions) (operation : Operation)
    (internalHooks : list Hook) (internalHook : Hook) (this : VueSentry) (w : World)
    (span : Span) :
  tracked options this = true →
  internalHooks !! 0%nat ≠ Some internalHook →
  spansOf this w !! operation = Some span →
  let w' := hookFunction options operation internalHooks internalHook this w in
  tracerCalls w'
  = tracerCalls w
    ++ (if rootSpanDue this w then [SpanStarted (nextSpan w) rootSpanOptions] else [])
    ++ [SpanEnded span None]
  ∧ spansOf this w' !! operation = Some span
  ∧ pending w'
    = match _sentryRootSpanTimer (data w (vm_id this)) with
      | Some h => filter (λ t, t_handle t ≠ h) (pending w)
      | None => pending w
      end
      ++ [{| t_handle := nextTimer w;
             t_due := now w + Z.max 0 (timeout options);
             t_vm := this;
             t_timestamp := timestampInSeconds w |}]
  ∧ _sentryRootSpanTimer (data w' (vm_id this)) = Some (nextTimer w)
  ∧ now w' = now w.
Proof.
  intros Ht Ha Hs w'.
  destruct (hookFunction_cases options operation internalHooks internalHook this w)
    as [(_ & Hu & _) | [(_ & Hb & _) | [(_ & _ & Hn & _) | (s & _ & _ & E0 & E & Hw)]]];
    [congruence | congruence | congruence |].
  assert (s = span) as -> by congruence.
  fold w' in Hw. set (w0 := initSpans this (startRootSpan this w)) in *.
  destruct (afterHook_tracer options operation this w0 span E0) as (Hc & _ & _).
  destruct (afterHook_timers options operation this w0 span E0) as (Hp & _ & Hnow & _).
  destruct (afterHook_data options operation this w0 span (vm_id this) E0) as (_ & _ & Hd).
  assert (Hc0 : tracerCalls w0 = tracerCalls w
                ++ (if rootSpanDue this w
                    then [SpanStarted (nextSpan w) rootSpanOptions] else [])).
  { subst w0. destruct (initSpans_tracer this (startRootSpan this w)) as (-> & _).
    by destruct (startRootSpan_tracer this w) as (-> & _). }
  rewrite Hw. repeat split.
  - by rewrite Hc, Hc0, <- app_assoc.
  - by rewrite afterHook_spansOf.
  - rewrite Hp. subst w0. unfold timestampInSeconds.
    rewrite initSpans_timer, startRootSpan_timer.
    destruct (initSpans_timers this (startRootSpan this w)) as (-> & -> & -> & _).
    by destruct (startRootSpan_rest this w) as (_ & -> & -> & -> & _).
  - rewrite Hd, decide_True by done. subst w0.
    destruct (initSpans_timers this (startRootSpan this w)) as (_ & -> & _).
    by destruct (startRootSpan_rest this w) as (_ & _ & -> & _).
  - rewrite Hnow. subst w0.
    destruct (initSpans_timers this (startRootSpan this w)) as (_ & _ & -> & _).
    by destruct (startRootSpan_rest this w) as (_ & _ & _ & -> & _).
Qed.

(** C4 (amended). When the after-hook of a tracked instance, root or not,
    finds a span stored for its operation, it ends that span without an
    explicit timestamp, leaves the entry stored in the instance's map, and
    calls [finishRootSpan] with the current time: the handle stored on this
    instance is cancelled, and a new close timer for the root span, due
    [options.timeout] milliseconds from now and carrying the completion
    timestamp, is queued and stored on this instance. *)
Theorem afterHook_ends_span_and_arms_timer
    (options : TracingOptions) (operation : Operation)
    (internalHooks : list Hook) (internalHook : Hook) (this : VueSentry) (w : World)
    (span : Span) :
  tracked options this = true →
  internalHooks !! 0%nat ≠ Some internalHook →
  spansOf this w !! operation = Some span →
  let w' := hookFunction options operation internalHooks internalHook this w in
  ended w' = ended w ++ [(span, None)]
  ∧ (∃ calls, tracerCalls w' = calls ++ [SpanEnded span None])
  ∧ spansOf this w' !! operation = Some span
  ∧ pending w'
    = match _sentryRootSpanTimer (data w (vm_id this)) with
      | Some h => filter (λ t, t_handle t ≠ h) (pending w)
      | None => pending w
      end
      ++ [{| t_handle := nextTimer w;
             t_due := now w + Z.max 0 (timeout options);
             t_vm := this;
             t_timestamp := timestampInSeconds w |}]
  ∧ _sentryRootSpanTimer (data w' (vm_id this)) = Some (nextTimer w).
Proof.
  intros Ht Ha Hs w'.
  destruct (after_with_span options operation internalHooks internalHook this w span Ht Ha Hs)
    as (Hc & Hsp & Hp & Hd & _).
  fold w' in Hc, Hsp, Hp, Hd. repeat split; try done.
  - unfold ended. rewrite Hc, !endedIn_app.
    destruct (rootSpanDue this w); simpl; by rewrite ?app_nil_r.
  - rewrite Hc, app_assoc. eauto.
Qed.

Lemma afterHook_ends_span_and_arms_timer_witness :
  let w' := hookFunction Scenario.trackAll "mount" Scenario.mount "mounted" Scenario.Foo
              Scenario.mounting in
  ended w' = [(0%nat, None)]
  ∧ spansOf Scenario.Foo w' !! "mount" = Some 0%nat
  ∧ pending w' = [{| t_handle := 1%positive; t_due := 100; t_vm := Scenario.Foo;
                     t_timestamp := 0 # 1000 |}].
Proof.
  destruct (afterHook_ends_span_and_arms_timer Scenario.trackAll "mount" Scenario.mount
              "mounted" Scenario.Foo Scenario.mounting 0%nat)
    as (He & _ & Hs & Hp & _); [reflexivity | discriminate | reflexivity |].
  split; [exact He | split; [exact Hs | exact Hp]].
Defined.

(** C4, as stated, fails: after [beforeMount] and [mounted] on a tracked
    component the span is still stored under ["mount"]. *)
Lemma afterHook_keeps_entry :
  tracked Scenario.trackAll Scenario.Foo = true
  ∧ spansOf Scenario.Foo Scenario.mounting !! "mount" = Some 0%nat
  ∧ spansOf Scenario.Foo
      (hookFunction Scenario.trackAll "mount" Scenario.mount "mounted" Scenario.Foo
         Scenario.mounting) !! "mount" ≠ None.
Proof. repeat split. vm_compute. discriminate. Qed.

(** ** The before-hook over a stale span *)

Section Sequence.
Variables (options : TracingOptions) (operation : Operation).
Variables (internalHooks : list Hook) (before after : Hook).
Variables (this : VueSentry).
Hypothesis Htracked : tracked options this = true.
Hypothesis Hbefore : internalHooks !! 0%nat = Some before.
Hypothesis Hafter : after ≠ before.

Lemma steady_before w :
  rootSpanDue this w = false → is_Some (_sentrySpans (data w (vm_id this))) →
  hookFunction options operation internalHooks before this w = beforeHook operation this w.
Proof. intros Hd Hs. rewrite hookFunction_before by done. by rewrite steady_prelude. Qed.

Lemma steady_after w :
  rootSpanDue this w = false → is_Some (_sentrySpans (data w (vm_id this))) →
  hookFunction options operation internalHooks after this w
  = afterHook options operation this w.
Proof.
  intros Hd Hs. rewrite hookFunction_after by (done || congruence).
  by rewrite steady_prelude.
Qed.

(** One before-hook, with a starting span available. *)
Lemma before_with_context w :
  is_Some (startingSpan this w) →
  let w0 := initSpans this (startRootSpan this w) in
  let w1 := hookFunction options operation internalHooks before this w in
  w1 = beforeHook operation this w0
  ∧ tracerCalls w1
    = tracerCalls w
      ++ (if rootSpanDue this w then [SpanStarted (nextSpan w) rootSpanOptions] else [])
      ++ match spansOf this w !! operation with
         | Some oldSpan => [SpanEnded oldSpan None]
         | None => []
         end
      ++ [SpanStarted (nextSpan (startRootSpan this w))
            (componentSpanOptions (vm_name this) operation)]
  ∧ spansOf this w1 !! operation = Some (nextSpan (startRootSpan this w))
  ∧ nextSpan w1 = S (nextSpan (startRootSpan this w))
  ∧ rootSpanDue this w1 = false
  ∧ is_Some (_sentrySpans (data w1 (vm_id this)))
  ∧ is_Some (startingSpan this w1).
Proof.
  intros Hc w0 w1.
  assert (Hc0 : is_Some (startingSpan this w0)).
  { subst w0. rewrite startingSpan_initSpans. by apply startingSpan_startRootSpan. }
  assert (E : w1 = beforeHook operation this w0) by (by apply hookFunction_before).
  destruct (prelude_steady this w) as [Hd0 Hs0]. fold w0 in Hd0, Hs0.
  destruct (beforeHook_tracer operation this w0 Hc0) as (Ht & Hn & _).
  destruct (beforeHook_spansOf operation this w0 Hc0) as (Hsp & _).
  destruct (beforeHook_steady operation this w0 Hc0 Hd0) as (Hd1 & Hs1 & Hc1).
  assert (Hn0 : nextSpan w0 = nextSpan (startRootSpan this w)).
  { subst w0. by destruct (initSpans_tracer this (startRootSpan this w)) as (_ & -> & _). }
  assert (Hsp0 : spansOf this w0 = spansOf this w).
  { subst w0. by rewrite initSpans_spansOf, startRootSpan_spansOf. }
  rewrite E. repeat split; try done.
  - rewrite Ht, Hn0, Hsp0. subst w0.
    destruct (initSpans_tracer this (startRootSpan this w)) as (-> & _).
    destruct (startRootSpan_tracer this w) as (-> & _).
    by rewrite <- !app_assoc.
  - by rewrite Hsp, lookup_insert_eq, Hn0.
  - by rewrite Hn, Hn0.
Qed.
End Sequence.


(** C7. With a list of names a non-root instance produces spans only if
    its display name is a member of the list, and a member is handled as
    if every component were tracked; a boolean decides all non-root
    instances alike, and an absent setting counts as false; the root is
    handled as if every component were tracked, whatever the setting. An
    instance that is the root, is listed or is tracked by [true] does
    produce spans: its before-hook, given a starting span, starts and
    stores the span [Vue <name>] of the operation, after ending a span
    left in the slot, and its after-hook ends the span it finds stored. *)
Theorem component_filter
    (options : TracingOptions) (operation : Operation)
    (internalHooks : list Hook) (internalHook : Hook) (this : VueSentry) (w : World) :
  let always := {| hooks := hooks options; trackComponents := TrackBool true;
                   timeout := timeout options |} in
  let w' := hookFunction options operation internalHooks internalHook this w in
  let all := hookFunction always operation internalHooks internalHook this w in
  (∀ names, trackComponents options = TrackList names → isRoot this = false →
            (tracerCalls w' ≠ tracerCalls w → vm_name this ∈ names)
            ∧ (vm_name this ∉ names → w' = w)
            ∧ (vm_name this ∈ names → w' = all))
  ∧ (∀ b, trackComponents options = TrackBool b → isRoot this = false →
          w' = if b then all else w)
  ∧ (trackComponents options = TrackAbsent → isRoot this = false → w' = w)
  ∧ (isRoot this = true → w' = all)
  ∧ all = (if bool_decide (Some internalHook = internalHooks !! 0%nat)
           then beforeHook operation this (initSpans this (startRootSpan this w))
           else afterHook always operation this (initSpans this (startRootSpan this w)))
  ∧ (isRoot this = true
     ∨ (∃ names, trackComponents options = TrackList names ∧ vm_name this ∈ names)
     ∨ trackComponents options = TrackBool true →
     let root := if rootSpanDue this w
                 then [SpanStarted (nextSpan w) rootSpanOptions] else [] in
     (internalHooks !! 0%nat = Some internalHook → is_Some (startingSpan this w) →
      tracerCalls w'
      = tracerCalls w ++ root
        ++ match spansOf this w !! operation with
           | Some oldSpan => [SpanEnded oldSpan None]
           | None => []
           end
        ++ [SpanStarted (nextSpan (startRootSpan this w))
              (componentSpanOptions (vm_name this) operation)]
      ∧ so_name (componentSpanOptions (vm_name this) operation)
        = "Vue <" +:+ vm_name this +:+ ">"
      ∧ spansOf this w' !! operation = Some (nextSpan (startRootSpan this w)))
     ∧ (internalHooks !! 0%nat ≠ Some internalHook →
        ∀ span, spansOf this w !! operation = Some span →
                tracerCalls w' = tracerCalls w ++ root ++ [SpanEnded span None])).
Proof.
  intros always w' all.
  assert (Hall : tracked always this = true)
    by (unfold tracked, shouldTrack; simpl; apply orb_true_r).
  assert (Hin : ∀ names, trackComponents options = TrackList names →
                         isRoot this = false → vm_name this ∈ names → w' = all).
  { intros names Htc Hr Hin. symmetry. apply hookFunction_tracked_any; [| done | done].
    unfold tracked, shouldTrack.
    rewrite Htc, bool_decide_true by (by apply indexOf_is_Some). apply orb_true_r. }
  assert (Hout : ∀ names, trackComponents options = TrackList names →
                          isRoot this = false → vm_name this ∉ names → w' = w).
  { intros names Htc Hr Hni. apply hookFunction_untracked; [done|].
    unfold tracked, shouldTrack.
    by rewrite Hr, Htc, bool_decide_false by (by rewrite indexOf_is_Some). }
  split; [|split; [|split; [|split; [|split]]]].
  6: { intros Hcond root.
       assert (Ht : tracked options this = true).
       { unfold tracked, shouldTrack.
         destruct Hcond as [-> | [(names & -> & Hn) | ->]]; [done | |].
         - rewrite bool_decide_true by (by apply indexOf_is_Some). apply orb_true_r.
         - apply orb_true_r. }
       split.
       - intros Hb Hc.
         destruct (before_with_context options operation internalHooks internalHook this
                     Ht Hb w Hc) as (_ & Hcalls & Hsp & _).
         done.
       - intros Ha span Hs.
         by destruct (after_with_span options operation internalHooks internalHook this w
                        span Ht Ha Hs) as (Hcalls & _). }
  1: intros names Htc Hr; split; [|split].
  - intros Hne. destruct (decide (vm_name this ∈ names)) as [|Hni]; [done|].
    exfalso. apply Hne. by rewrite (Hout names).
  - by apply Hout.
  - by apply Hin.
  - intros b Htc Hr. destruct b.
    + symmetry. apply hookFunction_tracked_any; [| done | done].
      unfold tracked, shouldTrack. rewrite Htc. apply orb_true_r.
    + apply hookFunction_untracked; [done|].
      unfold tracked, shouldTrack. by rewrite Hr, Htc.
  - intros Htc Hr. apply hookFunction_untracked; [done|].
    unfold tracked, shouldTrack. by rewrite Hr, Htc.
  - intros Hr. symmetry. apply hookFunction_tracked_any; [| done | done].
    unfold tracked. by rewrite Hr.
  - subst all. case_bool_decide as Hb.
    + by apply hookFunction_before.
    + apply hookFunction_after; [done | congruence].
Qed.

Lemma component_filter_witness :
  hookFunction Scenario.trackFoo "mount" Scenario.mount "beforeMount" Scenario.Bar
    (Scenario.idle (Some Scenario.trace))
  = Scenario.idle (Some Scenario.trace)
  ∧ hookFunction Scenario.trackFoo "mount" Scenario.mount "beforeMount" Scenario.Foo
      (Scenario.idle (Some Scenario.trace))
    = Scenario.mounting
  ∧ hookFunction Scenario.trackFoo "mount" Scenario.mount "beforeMount" Scenario.App
      (Scenario.idle (Some Scenario.trace))
    = hookFunction Scenario.trackAll "mount" Scenario.mount "beforeMount" Scenario.App
        (Scenario.idle (Some Scenario.trace))
  ∧ tracerCalls (hookFunction Scenario.trackFoo "mount" Scenario.mount "beforeMount"
                   Scenario.Foo (Scenario.idle (Some Scenario.trace)))
    = [SpanStarted 0%nat (componentSpanOptions "Foo" "mount")]
  ∧ tracerCalls (hookFunction Scenario.trackFoo "mount" Scenario.mount "beforeMount"
                   Scenario.App (Scenario.idle (Some Scenario.trace)))
    = [SpanStarted 0%nat rootSpanOptions;
       SpanStarted 1%nat (componentSpanOptions "App" "mount")]
  ∧ tracerCalls (hookFunction Scenario.trackFoo "mount" Scenario.mount "mounted"
                   Scenario.Foo Scenario.mounting)
    = [SpanStarted 0%nat (componentSpanOptions "Foo" "mount"); SpanEnded 0%nat None].
Proof.
  assert (Hctx : ∀ this, is_Some (startingSpan this (Scenario.idle (Some Scenario.trace))))
    by (intros this; exists Scenario.trace; reflexivity).
  split; [|split; [|split; [|split; [|split]]]].
  4: { destruct (component_filter Scenario.trackFoo "mount" Scenario.mount "beforeMount"
                   Scenario.Foo (Scenario.idle (Some Scenario.trace)))
         as (_ & _ & _ & _ & _ & Hs).
       destruct Hs as [Hb _].
       { right; left. exists ["Foo"]. split; [reflexivity | apply list_elem_of_here]. }
       destruct (Hb eq_refl (Hctx _)) as [Hc _].
       etransitivity; [exact Hc | vm_compute; reflexivity]. }
  4: { destruct (component_filter Scenario.trackFoo "mount" Scenario.mount "beforeMount"
                   Scenario.App (Scenario.idle (Some Scenario.trace)))
         as (_ & _ & _ & _ & _ & Hs).
       destruct Hs as [Hb _]; [by left|].
       destruct (Hb eq_refl (Hctx _)) as [Hc _].
       etransitivity; [exact Hc | vm_compute; reflexivity]. }
  4: { destruct (component_filter Scenario.trackFoo "mount" Scenario.mount "mounted"
                   Scenario.Foo Scenario.mounting)
         as (_ & _ & _ & _ & _ & Hs).
       destruct Hs as [_ Ha].
       { right; left. exists ["Foo"]. split; [reflexivity | apply list_elem_of_here]. }
       etransitivity; [apply (Ha ltac:(discriminate) 0%nat); vm_compute; reflexivity|].
       vm_compute. reflexivity. }
  - eapply (proj1 (component_filter Scenario.trackFoo "mount" Scenario.mount "beforeMount"
                     Scenario.Bar (Scenario.idle (Some Scenario.trace))));
      [reflexivity | reflexivity |].
    simpl. intros H. apply list_elem_of_singleton in H. discriminate H.
  - eapply (proj1 (component_filter Scenario.trackFoo "mount" Scenario.mount "beforeMount"
                     Scenario.Foo (Scenario.idle (Some Scenario.trace))));
      [reflexivity | reflexivity | by apply list_elem_of_singleton].
  - apply (proj1 (proj2 (proj2 (proj2
             (component_filter Scenario.trackFoo "mount" Scenario.mount "beforeMount"
                Scenario.App (Scenario.idle (Some Scenario.trace))))))).
    reflexivity.
Defined.

(** ** Hooks that find nothing to do *)

Lemma startingSpan_None this w :
  startingSpan this w = None →
  _sentryRootSpan (data w (vm_root this)) = None ∧ activeSpan w = None.
Proof.
  unfold startingSpan, getActiveSpan.
  by destruct (_sentryRootSpan (data w (vm_root this))).
Qed.

(** C6 (amended). A before-hook that finds neither a root span on the
    tree's root nor an active span makes no tracer call, arms no timer and
    logs nothing; all it may do is give a tracked instance its empty span
    map. An after-hook that finds no span stored for its operation ends
    nothing, arms no timer and logs nothing; besides initialising the span
    map it may, on the root while a trace is active and no root span is
    stored, start the root span. The starting span is the root's root span
    when there is one, else the active span. *)
Theorem missing_context_skip
    (options : TracingOptions) (operation : Operation)
    (internalHooks : list Hook) (internalHook : Hook) (this : VueSentry) (w : World) :
  let w' := hookFunction options operation internalHooks internalHook this w in
  (internalHooks !! 0%nat = Some internalHook → startingSpan this w = None →
     tracerCalls w' = tracerCalls w ∧ pending w' = pending w ∧ warnings w' = warnings w
     ∧ (∀ that, spansOf that w' = spansOf that w)
     ∧ (∀ j, _sentryRootSpan (data w' j) = _sentryRootSpan (data w j)
             ∧ _sentryRootSpanTimer (data w' j) = _sentryRootSpanTimer (data w j))
     ∧ (is_Some (_sentrySpans (data w (vm_id this))) → w' = w))
  ∧ (internalHooks !! 0%nat ≠ Some internalHook → spansOf this w !! operation = None →
     tracerCalls w'
     = tracerCalls w
       ++ (if rootSpanDue this w then [SpanStarted (nextSpan w) rootSpanOptions] else [])
     ∧ ended w' = ended w ∧ pending w' = pending w ∧ warnings w' = warnings w
     ∧ (∀ that, spansOf that w' = spansOf that w)
     ∧ (∀ j, _sentryRootSpanTimer (data w' j) = _sentryRootSpanTimer (data w j))
     ∧ (rootSpanDue this w = false → is_Some (_sentrySpans (data w (vm_id this))) → w' = w))
  ∧ (∀ s, _sentryRootSpan (data w (vm_root this)) = Some s → startingSpan this w = Some s)
  ∧ (_sentryRootSpan (data w (vm_root this)) = None → startingSpan this w = activeSpan w).
Proof.
  intros w'.
  pose proof (hookFunction_cases options operation internalHooks internalHook this w) as Hcases.
  fold w' in Hcases.
  split; [|split; [|split]].
  - intros Hb Hnone.
    destruct (startingSpan_None this w Hnone) as [Hroot Hact].
    assert (Hnoop : startRootSpan this w = w) by (apply startRootSpan_noop; auto).
    destruct Hcases as [(_ & _ & ->) | [(_ & _ & E) | [(_ & Hn & _) | (s & _ & Hn & _)]]];
      [done | | congruence | congruence].
    rewrite Hnoop in E. rewrite beforeHook_no_context in E
      by (by rewrite startingSpan_initSpans).
    rewrite E.
    destruct (initSpans_tracer this w) as (-> & _).
    destruct (initSpans_timers this w) as (-> & _ & _ & ->).
    repeat split; try done.
    + apply initSpans_spansOf.
    + apply initSpans_rootSpan.
    + apply initSpans_timer.
    + apply initSpans_id.
  - intros Ha Hnone.
    destruct Hcases
      as [(Hr & _ & ->) | [(_ & Hb & _) | [(_ & _ & _ & E) | (s & _ & _ & _ & Hs & _)]]];
      [ | congruence | | congruence].
    + rewrite rootSpanDue_false by auto. by rewrite app_nil_r.
    + rewrite E.
      destruct (initSpans_tracer this (startRootSpan this w)) as (Hc & _).
      destruct (initSpans_timers this (startRootSpan this w)) as (-> & _ & _ & ->).
      destruct (startRootSpan_rest this w) as (_ & -> & _ & _ & ->).
      destruct (startRootSpan_tracer this w) as (Hc' & _).
      repeat split; try done.
      * by rewrite Hc, Hc'.
      * unfold ended. rewrite Hc, Hc', endedIn_app.
        destruct (rootSpanDue this w); simpl; by rewrite app_nil_r.
      * intros that. by rewrite initSpans_spansOf, startRootSpan_spansOf.
      * intros j. by rewrite initSpans_timer, startRootSpan_timer.
      * intros Hd Hsp. by apply steady_prelude.
  - intros s Hs. unfold startingSpan. by rewrite Hs.
  - intros Hs. unfold startingSpan. by rewrite Hs.
Qed.

Lemma missing_context_skip_witness :
  hookFunction Scenario.trackAll "mount" Scenario.mount "beforeMount" Scenario.Foo
    Scenario.orphaned = Scenario.orphaned
  ∧ pending (hookFunction Scenario.trackAll "mount" Scenario.mount "mounted" Scenario.Foo
               (Scenario.idle (Some Scenario.trace))) = []
  ∧ startingSpan Scenario.Foo Scenario.mounting = Some Scenario.trace.
Proof.
  split; [|split].
  - destruct (proj1 (missing_context_skip Scenario.trackAll "mount" Scenario.mount
                       "beforeMount" Scenario.Foo Scenario.orphaned) eq_refl eq_refl)
      as (_ & _ & _ & _ & _ & H).
    apply H. eexists; reflexivity.
  - assert (Ha : Scenario.mount !! 0%nat ≠ Some "mounted") by discriminate.
    destruct (proj1 (proj2 (missing_context_skip Scenario.trackAll "mount" Scenario.mount
                       "mounted" Scenario.Foo (Scenario.idle (Some Scenario.trace))))
                Ha eq_refl)
      as (_ & _ & H & _).
    exact H.
  - rewrite (proj2 (proj2 (proj2 (missing_context_skip Scenario.trackAll "mount"
               Scenario.mount "beforeMount" Scenario.Foo Scenario.mounting))));
      reflexivity.
Defined.

(** C6, as stated, fails for the root: its after-hook with no stored span
    is not a no-op, it starts the root span. *)
Lemma root_after_hook_not_noop :
  Scenario.mount !! 0%nat ≠ Some "mounted"
  ∧ spansOf Scenario.App (Scenario.idle (Some Scenario.trace)) !! "mount" = None
  ∧ tracerCalls (Scenario.idle (Some Scenario.trace)) = []
  ∧ tracerCalls (hookFunction Scenario.trackFoo "mount" Scenario.mount "mounted" Scenario.App
                   (Scenario.idle (Some Scenario.trace)))
    = [SpanStarted 0%nat rootSpanOptions].
Proof. repeat split. discriminate. Qed.

(** ** Starting the root span *)

Lemma rootSpansIn_app l k : rootSpansIn (l ++ k) = rootSpansIn l ++ rootSpansIn k.
Proof. unfold rootSpansIn. by rewrite startedIn_app, filter_app, fmap_app. Qed.

Lemma rootSpansIn_component s name operation :
  rootSpansIn [SpanStarted s (componentSpanOptions name operation)] = [].
Proof. done. Qed.

(** The effect of one hook on the tracer and on the span maps: the root
    span if it is due, then what the before- or after-branch does. *)
Lemma hookFunction_effect options operation internalHooks internalHook this w :
  let w' := hookFunction options operation internalHooks internalHook this w in
  let n := nextSpan (startRootSpan this w) in
  ∃ rest,
    tracerCalls w'
    = tracerCalls w
      ++ (if rootSpanDue this w then [SpanStarted (nextSpan w) rootSpanOptions] else [])
      ++ rest
    ∧ ((rest = [] ∧ nextSpan w' = n ∧ ∀ that, spansOf that w' = spansOf that w)
       ∨ (rest = match spansOf this w !! operation with
                 | Some oldSpan => [SpanEnded oldSpan None]
                 | None => []
                 end
                 ++ [SpanStarted n (componentSpanOptions (vm_name this) operation)]
          ∧ nextSpan w' = S n
          ∧ spansOf this w' = <[operation := n]> (spansOf this w)
          ∧ ∀ that, vm_id that ≠ vm_id this → spansOf that w' = spansOf that w)
       ∨ (∃ span, spansOf this w !! operation = Some span ∧ rest = [SpanEnded span None]
                  ∧ nextSpan w' = n ∧ ∀ that, spansOf that w' = spansOf that w)).
Proof.
  intros w' n.
  pose proof (hookFunction_cases options operation internalHooks internalHook this w) as Hcases.
  fold w' in Hcases.
  set (w0 := initSpans this (startRootSpan this w)) in *.
  assert (Hc0 : tracerCalls w0
                = tracerCalls w
                  ++ (if rootSpanDue this w
                      then [SpanStarted (nextSpan w) rootSpanOptions] else [])).
  { subst w0. destruct (initSpans_tracer this (startRootSpan this w)) as (-> & _).
    by destruct (startRootSpan_tracer this w) as (-> & _). }
  assert (Hn0 : nextSpan w0 = n).
  { subst w0. by destruct (initSpans_tracer this (startRootSpan this w)) as (_ & -> & _). }
  assert (Hs0 : ∀ that, spansOf that w0 = spansOf that w).
  { intros that. subst w0. by rewrite initSpans_spansOf, startRootSpan_spansOf. }
  destruct Hcases
    as [(Hr & _ & E) | [(Ht & Hb & E) | [(_ & _ & _ & E) | (s & _ & _ & E0 & Hs & E)]]].
  - exists []. rewrite E. rewrite rootSpanDue_false by auto. rewrite !app_nil_r.
    split; [done|]. left. subst n. by rewrite startRootSpan_noop by auto.
  - destruct (startingSpan this w0) as [c|] eqn:Hc.
    + assert (Hc' : is_Some (startingSpan this w)).
      { apply startingSpan_startRootSpan. rewrite <- (startingSpan_initSpans this). eauto. }
      destruct (before_with_context options operation internalHooks internalHook this
                  Ht Hb w Hc') as (_ & Hcalls & _ & Hn & _).
      assert (Hc0' : is_Some (startingSpan this w0)) by eauto.
      destruct (beforeHook_spansOf operation this w0 Hc0') as (Hsp & Hother).
      eexists. split; [exact Hcalls|]. right; left.
      split; [done|]. split; [done|]. rewrite E. split.
      * by rewrite Hsp, Hn0, Hs0.
      * intros that Hne. by rewrite Hother, Hs0.
    + rewrite beforeHook_no_context in E by done. rewrite E, Hc0.
      exists []. rewrite app_nil_r. split; [done|]. left. auto.
  - exists []. rewrite E, Hc0, app_nil_r. split; [done|]. left. auto.
  - destruct (afterHook_tracer options operation this w0 s E0) as (Hc & Hn & _).
    exists [SpanEnded s None]. rewrite E, Hc, Hc0, <- app_assoc.
    split; [done|]. right; right. exists s. repeat split; try done.
    + by rewrite Hn.
    + intros that. by rewrite afterHook_spansOf.
Qed.

Lemma hookFunction_rootSpans options operation internalHooks internalHook this w :
  rootSpans (hookFunction options operation internalHooks internalHook this w)
  = rootSpans w ++ (if rootSpanDue this w then [nextSpan w] else []).
Proof.
  destruct (hookFunction_effect options operation internalHooks internalHook this w)
    as (rest & Hc & Hrest).
  unfold rootSpans. rewrite Hc, !rootSpansIn_app.
  assert (rootSpansIn rest = []) as ->.
  { destruct Hrest as [(-> & _) | [(-> & _) | (s & _ & -> & _)]]; [done | | done].
    rewrite rootSpansIn_app, rootSpansIn_component.
    by destruct (spansOf this w !! operation). }
  rewrite app_nil_r. by destruct (rootSpanDue this w).
Qed.

(** C8 (amended). The root span is started at the top of every hook of the
    root instance, before- and after-hooks alike, and by no hook of another
    instance; it is started exactly when a span is active and no root span
    is stored. Otherwise every stored root span stays as it is and no root
    span is created; when it is started, exactly one new span, named
    "Application Render", is created and stored on the root. *)
Theorem root_span_ensure_started
    (options : TracingOptions) (operation : Operation)
    (internalHooks : list Hook) (internalHook : Hook) (this : VueSentry) (w : World) :
  let w' := hookFunction options operation internalHooks internalHook this w in
  (rootSpanDue this w = true
   ↔ isRoot this = true ∧ is_Some (activeSpan w)
     ∧ _sentryRootSpan (data w (vm_id this)) = None)
  ∧ (∀ j, _sentryRootSpan (data w' j)
          = if rootSpanDue this w && bool_decide (vm_id this = j)
            then Some (nextSpan w) else _sentryRootSpan (data w j))
  ∧ rootSpans w' = rootSpans w ++ (if rootSpanDue this w then [nextSpan w] else [])
  ∧ (rootSpanDue this w = true →
     ∃ rest, tracerCalls w' = tracerCalls w ++ SpanStarted (nextSpan w) rootSpanOptions :: rest).
Proof.
  intros w'. split; [|split; [|split]].
  - unfold rootSpanDue, getActiveSpan. split.
    + intros H. apply andb_true_iff in H as [H H3]. apply andb_true_iff in H as [H1 H2].
      apply bool_decide_eq_true in H2, H3. done.
    + intros (-> & Ha & ->). by rewrite bool_decide_true.
  - apply hookFunction_rootSpan.
  - apply hookFunction_rootSpans.
  - intros Hd.
    destruct (hookFunction_effect options operation internalHooks internalHook this w)
      as (rest & Hc & _).
    fold w' in Hc. rewrite Hd in Hc. exists rest. by rewrite Hc.
Qed.

Lemma root_span_ensure_started_witness :
  ∃ rest,
    tracerCalls (hookFunction Scenario.trackAll "mount" Scenario.mount "beforeMount"
                   Scenario.App (Scenario.idle (Some Scenario.trace)))
    = tracerCalls (Scenario.idle (Some Scenario.trace))
      ++ SpanStarted 0%nat rootSpanOptions :: rest.
Proof.
  apply (proj2 (proj2 (proj2 (root_span_ensure_started Scenario.trackAll "mount"
           Scenario.mount "beforeMount" Scenario.App (Scenario.idle (Some Scenario.trace)))))).
  reflexivity.
Defined.

(** C8, as stated, fails: the root's after-hook [updated] starts and
    stores the root span as well. *)
Lemma root_span_started_by_after_hook :
  Scenario.update !! 0%nat ≠ Some "updated"
  ∧ isRoot Scenario.App = true
  ∧ _sentryRootSpan (data (Scenario.idle (Some Scenario.trace)) 0%nat) = None
  ∧ _sentryRootSpan
      (data (hookFunction Scenario.trackAll "update" Scenario.update "updated" Scenario.App
               (Scenario.idle (Some Scenario.trace))) 0%nat) = Some 0%nat
  ∧ rootSpans (hookFunction Scenario.trackAll "update" Scenario.update "updated" Scenario.App
                 (Scenario.idle (Some Scenario.trace))) = [0%nat].
Proof. repeat split. discriminate. Qed.

(** ** The hook table *)

Lemma HOOKS_entries operation internalHooks :
  HOOKS !! operation = Some internalHooks →
  (operation, internalHooks)
  ∈ [("activate", ["activated"; "deactivated"]);
     ("create", ["beforeCreate"; "created"]);
     ("unmount", ["beforeUnmount"; "unmounted"]);
     ("destroy", ["beforeDestroy"; "destroyed"]);
     ("mount", ["beforeMount"; "mounted"]);
     ("update", ["beforeUpdate"; "updated"])].
Proof. apply elem_of_list_to_map_2. Qed.

Ltac hooks_cases H :=
  apply HOOKS_entries in H;
  repeat (apply elem_of_cons in H as [H | H]; [injection H as -> -> |]);
  [.. | by apply elem_of_nil in H].

Ltac hook_cases H :=
  repeat (apply elem_of_cons in H as [H | H]; [subst |]);
  [.. | by apply elem_of_nil in H].

(** Every operation has a before- and an after-hook, different from each
    other and from the [data] property of the mixins. *)
Lemma HOOKS_pair operation internalHooks :
  HOOKS !! operation = Some internalHooks →
  ∃ before after, internalHooks = [before; after] ∧ before ≠ after
                  ∧ "data" ∉ internalHooks.
Proof.
  intros H. hooks_cases H; do 2 eexists; (split; [reflexivity|]);
    (split; [discriminate|]); intros Hd; hook_cases Hd; discriminate.
Qed.

(** A hook name belongs to one operation only. *)
Lemma HOOKS_disjoint op1 op2 hs1 hs2 h :
  HOOKS !! op1 = Some hs1 → HOOKS !! op2 = Some hs2 →
  h ∈ hs1 → h ∈ hs2 → op1 = op2.
Proof.
  intros H1 H2 Hh1 Hh2.
  hooks_cases H1; hook_cases Hh1; hooks_cases H2; hook_cases Hh2; done.
Qed.

Lemma HOOKS_get_Own operation internalHooks :
  HOOKS_get operation = Own internalHooks ↔ HOOKS !! operation = Some internalHooks.
Proof.
  unfold HOOKS_get. destruct (HOOKS !! operation); [naive_solver|].
  case_bool_decide; naive_solver.
Qed.

Lemma HOOKS_get_Missing operation :
  operation ∉ Object_prototype_keys →
  HOOKS_get operation = Missing ↔ HOOKS !! operation = None.
Proof.
  intros Hk. unfold HOOKS_get. destruct (HOOKS !! operation); [naive_solver|].
  by rewrite bool_decide_false.
Qed.

(** ** Building the mixins *)

Section BuildLemmas.
Variables (DEFAULT_HOOKS : list Operation) (DEBUG_BUILD : bool).

Lemma foldl_insert_lookup (g : Hook → Mixin) (l : list Hook) (mixins : gmap string Mixin) h :
  foldl (λ m k, <[k := g k]> m) mixins l !! h
  = if decide (h ∈ l) then Some (g h) else mixins !! h.
Proof.
  revert mixins. induction l as [|x l IH] using rev_ind; intros mixins.
  - destruct (decide (h ∈ [])) as [H%elem_of_nil|]; done.
  - rewrite foldl_app. simpl. rewrite lookup_insert.
    destruct (decide (x = h)) as [->|Hne].
    + by rewrite decide_True by (apply elem_of_app; right; by apply list_elem_of_singleton).
    + rewrite IH. destruct (decide (h ∈ l)) as [Hl|Hl].
      * by rewrite decide_True by (apply elem_of_app; by left).
      * rewrite decide_False; [done|].
        intros [?|Hx%list_elem_of_singleton]%elem_of_app; congruence.
Qed.

Lemma bindHooks_lookup operation internalHooks mixins h :
  bindHooks operation internalHooks mixins !! h
  = if decide (h ∈ internalHooks)
    then Some (HookMixin operation internalHooks h) else mixins !! h.
Proof. apply (foldl_insert_lookup (HookMixin operation internalHooks)). Qed.

(** The mixins hold [data] and the hooks of the operations in [seen]. *)
Let bound (mixins : gmap string Mixin) (seen : list Operation) : Prop :=
  ∀ h m, mixins !! h = Some m ↔
         (h = "data" ∧ m = DataMixin)
         ∨ ∃ operation internalHooks,
             operation ∈ seen ∧ HOOKS !! operation = Some internalHooks
             ∧ h ∈ internalHooks ∧ m = HookMixin operation internalHooks h.

(** The messages logged for a list of operations. *)
Let unknown (ops : list Operation) : list string :=
  if DEBUG_BUILD
  then (λ operation, "Unknown hook: " +:+ operation) <$> filter (λ op, HOOKS !! op = None) ops
  else [].

Lemma bound_bindHooks mixins seen operation internalHooks :
  HOOKS !! operation = Some internalHooks → bound mixins seen →
  bound (bindHooks operation internalHooks mixins) (seen ++ [operation]).
Proof.
  intros Hop Hb h m. rewrite bindHooks_lookup.
  destruct (HOOKS_pair _ _ Hop) as (b & a & _ & _ & Hdata).
  case_decide as Hin.
  - split.
    + intros [= <-]. right. exists operation, internalHooks.
      split; [apply elem_of_app; right; by apply list_elem_of_singleton | done].
    + intros [[-> _] | (op & hs & _ & Hop' & Hin' & ->)]; [done|].
      assert (op = operation) as -> by (by eapply HOOKS_disjoint).
      congruence.
  - rewrite (Hb h m). split.
    + intros [? | (op & hs & Hs & ?)]; [by left|].
      right. exists op, hs. split; [apply elem_of_app; by left | done].
    + intros [? | (op & hs & [Hs | ->%list_elem_of_singleton]%elem_of_app & Hop' & Hin' & ->)];
        [by left | | by simplify_eq].
      right. by exists op, hs.
Qed.

Lemma bound_skip mixins seen operation :
  HOOKS !! operation = None → bound mixins seen → bound mixins (seen ++ [operation]).
Proof.
  intros Hop Hb h m. rewrite (Hb h m). split.
  - intros [? | (op & hs & Hs & ?)]; [by left|].
    right. exists op, hs. split; [apply elem_of_app; by left | done].
  - intros [? | (op & hs & [Hs | ->%list_elem_of_singleton]%elem_of_app & Hop' & ?)];
      [by left | | congruence].
    right. by exists op, hs.
Qed.

Lemma installHooks_spec ops :
  ∀ seen mixins w,
    (∀ operation, operation ∈ ops → operation ∉ Object_prototype_keys) →
    bound mixins seen →
    ∃ mixins',
      installHooks DEBUG_BUILD ops mixins w
      = Returned (mixins', foldl (λ w msg, logger_warn msg w) w (unknown ops))
      ∧ bound mixins' (seen ++ ops).
Proof.
  induction ops as [|operation rest IH]; intros seen mixins w Hkeys Hb.
  - exists mixins. subst unknown. simpl. rewrite app_nil_r.
    split; [by destruct DEBUG_BUILD | done].
  - assert (Hrest : ∀ op, op ∈ rest → op ∉ Object_prototype_keys).
    { intros op Hop. apply Hkeys. by apply elem_of_cons; right. }
    assert (Hk : operation ∉ Object_prototype_keys) by (apply Hkeys, elem_of_cons; by left).
    simpl. destruct (HOOKS !! operation) as [internalHooks|] eqn:Hop.
    + rewrite (proj2 (HOOKS_get_Own operation internalHooks) Hop).
      destruct (IH (seen ++ [operation]) (bindHooks operation internalHooks mixins) w Hrest)
        as (mixins' & -> & Hb'); [by apply bound_bindHooks|].
      exists mixins'. rewrite <- app_assoc in Hb'. split; [|done].
      subst unknown. simpl. rewrite filter_cons_False by congruence. done.
    + rewrite (proj2 (HOOKS_get_Missing operation Hk) Hop).
      destruct (IH (seen ++ [operation]) mixins
                  (if DEBUG_BUILD then logger_warn ("Unknown hook: " +:+ operation) w else w)
                  Hrest)
        as (mixins' & -> & Hb'); [by apply bound_skip|].
      exists mixins'. rewrite <- app_assoc in Hb'. split; [|done].
      subst unknown. simpl. rewrite filter_cons_True by done.
      by destruct DEBUG_BUILD.
Qed.

Lemma bound_data : bound {["data" := DataMixin]} [].
Proof.
  intros h m. rewrite lookup_singleton. split.
  - case_decide; [|done]. intros [= <-]. by left.
  - intros [[-> ->] | (op & hs & Hs%elem_of_nil & _)]; [|done].
    by rewrite decide_True.
Qed.

(** C9 (amended). The operations iterated are the configured ones
    followed by the defaults, each kept once at its first position: the
    kept names are a sublist of the requested ones and stand in the order
    of their first occurrences. Every
    one of them that has an entry in [HOOKS] gets both its hooks bound to
    the function for that operation, and no hook name is shared between
    operations; every one that has none is skipped, with a warning only in
    a debug build. Provided no requested name is a property inherited from
    [Object.prototype], the build returns, and the world changes by the
    warnings alone. *)
Theorem hook_table_built (options : TracingOptions) (w : World) :
  let requested := default [] (hooks options) ++ DEFAULT_HOOKS in
  let ops := resolveHooks DEFAULT_HOOKS options in
  NoDup ops
  ∧ (∀ operation, operation ∈ ops ↔ operation ∈ requested)
  ∧ ops `sublist_of` requested
  ∧ (∀ i j a b, ops !! i = Some a → ops !! j = Some b → (i < j)%nat →
                ∃ i' j', indexOf requested a = Some i' ∧ indexOf requested b = Some j'
                         ∧ (i' < j')%nat)
  ∧ (∀ op1 op2 hs1 hs2 h,
       HOOKS !! op1 = Some hs1 → HOOKS !! op2 = Some hs2 → h ∈ hs1 → h ∈ hs2 → op1 = op2)
  ∧ ((∀ operation, operation ∈ requested → operation ∉ Object_prototype_keys) →
     ∃ mixins,
       createTracingMixins DEFAULT_HOOKS DEBUG_BUILD options w
       = Returned (mixins,
                   foldl (λ w msg, logger_warn msg w) w
                     (if DEBUG_BUILD
                      then (λ operation, "Unknown hook: " +:+ operation)
                             <$> filter (λ op, HOOKS !! op = None) ops
                      else []))
       ∧ ∀ h m, mixins !! h = Some m ↔
                (h = "data" ∧ m = DataMixin)
                ∨ ∃ operation internalHooks,
                    operation ∈ requested ∧ HOOKS !! operation = Some internalHooks
                    ∧ h ∈ internalHooks ∧ m = HookMixin operation internalHooks h).
Proof.
  intros requested ops.
  assert (Hmem : ∀ operation, operation ∈ ops ↔ operation ∈ requested)
    by (intros; apply elem_of_removeDuplicates).
  split; [apply NoDup_removeDuplicates|].
  split; [done|].
  split; [apply removeDuplicates_sublist|].
  split; [apply removeDuplicates_order|].
  split; [apply HOOKS_disjoint|].
  intros Hkeys. unfold createTracingMixins. fold ops.
  destruct (installHooks_spec ops [] {["data" := DataMixin]} w) as (mixins & -> & Hb).
  - intros op Hop. by apply Hkeys, Hmem.
  - apply bound_data.
  - exists mixins. split; [done|]. intros h m. rewrite (Hb h m). simpl.
    split; (intros [? | (op & hs & Hs & ?)]; [by left|]; right; exists op, hs;
            split; [by apply Hmem | done]).
Qed.
End BuildLemmas.

Lemma hook_table_built_witness :
  (∃ mixins,
     createTracingMixins Scenario.defaultHooks true Scenario.withUnknown (Scenario.idle None)
     = Returned (mixins, logger_warn "Unknown hook: foo" (Scenario.idle None))
     ∧ mixins !! "beforeCreate"
       = Some (HookMixin "create" ["beforeCreate"; "created"] "beforeCreate"))
  ∧ ∃ i' j',
      indexOf (default [] (hooks Scenario.withUnknown) ++ Scenario.defaultHooks) "mount"
      = Some i'
      ∧ indexOf (default [] (hooks Scenario.withUnknown) ++ Scenario.defaultHooks) "activate"
        = Some j'
      ∧ (i' < j')%nat.
Proof.
  destruct (hook_table_built Scenario.defaultHooks true Scenario.withUnknown (Scenario.idle None))
    as (_ & _ & _ & Hord & _ & H).
  split.
  - destruct H as (mixins & Hret & Hm).
    + intros operation Hop Hk. hook_cases Hop; hook_cases Hk; discriminate.
    + exists mixins. split; [exact Hret|].
      apply Hm. right. exists "create", ["beforeCreate"; "created"].
      split; [| split; [reflexivity | split; [|reflexivity]]].
      * do 2 (apply list_elem_of_further). apply list_elem_of_here.
      * apply list_elem_of_here.
  - apply (Hord 0%nat 3%nat "mount" "activate"); [vm_compute; reflexivity.. | lia].
Defined.

(** C9, as stated, fails outside debug builds: the unknown operation is
    skipped without any warning. *)
Lemma unknown_hook_silent_without_debug :
  HOOKS_get "foo" = Missing
  ∧ ∃ mixins,
      createTracingMixins Scenario.defaultHooks false Scenario.withUnknown (Scenario.idle None)
      = Returned (mixins, Scenario.idle None)
      ∧ warnings (Scenario.idle None) = [].
Proof. split; [reflexivity|]. eexists. split; reflexivity. Qed.

(** A requested name that [HOOKS] inherits from [Object.prototype] is
    neither bound nor skipped: iterating over what the lookup finds throws. *)
Example inherited_key_throws :
  returns (createTracingMixins Scenario.defaultHooks true
             {| hooks := Some ["constructor"]; trackComponents := TrackAbsent; timeout := 0 |}
             (Scenario.idle None)) = false.
Proof. reflexivity. Qed.

(** ** Consistency of reachable worlds *)

Lemma elem_of_startedIn s o calls : (s, o) ∈ startedIn calls ↔ SpanStarted s o ∈ calls.
Proof.
  unfold startedIn. rewrite list_elem_of_omap. split.
  - intros ([s' o'|s' t] & Hin & [= <- <-]). done.
  - intros Hin. by exists (SpanStarted s o).
Qed.

Lemma elem_of_endedIn s t calls : (s, t) ∈ endedIn calls ↔ SpanEnded s t ∈ calls.
Proof.
  unfold endedIn. rewrite list_elem_of_omap. split.
  - intros ([s' o'|s' t'] & Hin & [= <- <-]). done.
  - intros Hin. by exists (SpanEnded s t).
Qed.

Lemma elem_of_rootSpansIn s calls :
  s ∈ rootSpansIn calls ↔ ∃ o, SpanStarted s o ∈ calls ∧ isRootSpanOptions o = true.
Proof.
  unfold rootSpansIn. rewrite list_elem_of_fmap. split.
  - intros ([s' o] & -> & [Hroot Hin]%list_elem_of_filter). exists o.
    by apply elem_of_startedIn in Hin.
  - intros (o & Hin & Hroot). exists (s, o). split; [done|].
    apply list_elem_of_filter. split; [done|]. by apply elem_of_startedIn.
Qed.

Lemma endCallsIn_app s l k : endCallsIn s (l ++ k) = (endCallsIn s l + endCallsIn s k)%nat.
Proof. unfold endCallsIn. by rewrite endedIn_app, filter_app, length_app. Qed.

Lemma endCallsIn_none s calls : (∀ t, SpanEnded s t ∉ calls) → endCallsIn s calls = 0%nat.
Proof.
  intros Hnone. unfold endCallsIn.
  destruct (filter (λ e, e.1 = s) (endedIn calls)) as [|[s' t] l] eqn:E; [done|].
  assert (Hin : (s', t) ∈ filter (λ e : Span * option Q, e.1 = s) (endedIn calls))
    by (rewrite E; apply list_elem_of_here).
  apply list_elem_of_filter in Hin as [Hs Hin]. simpl in Hs. subst s'.
  apply elem_of_endedIn in Hin. by destruct (Hnone t).
Qed.

Lemma spansOf_id a b w : vm_id a = vm_id b → spansOf a w = spansOf b w.
Proof. unfold spansOf. by intros ->. Qed.

Lemma consistent_initial w : initial w → consistent w.
Proof.
  intros (Hh & Hc & _). unfold consistent, rootSpans, endCalls, spansOf, data.
  rewrite Hh, Hc. split; [|split; [|split; [|split; [|split]]]].
  - intros s o Hin. by apply elem_of_nil in Hin.
  - intros s t Hin. by apply elem_of_nil in Hin.
  - intros j s. by rewrite lookup_empty.
  - intros i j s. by rewrite lookup_empty.
  - intros that operation s. rewrite lookup_empty. simpl. by rewrite lookup_empty.
  - intros s Hin. by apply elem_of_nil in Hin.
Qed.

Lemma rootSpans_lt w s :
  (∀ s o, SpanStarted s o ∈ tracerCalls w → (s < nextSpan w)%nat) →
  s ∈ rootSpans w → (s < nextSpan w)%nat.
Proof. intros I1 (o & Hin & _)%elem_of_rootSpansIn. by eapply I1. Qed.

Section HookPreserves.
Variables (options : TracingOptions) (operation : Operation).
Variables (internalHooks : list Hook) (internalHook : Hook).
Variables (this : VueSentry) (w : World).
Hypothesis Hw : consistent w.

Lemma consistent_hook :
consistent (hookFunction options operation internalHooks internalHook this w).
Proof.
destruct Hw as (I1 & I6 & I2 & I3 & I4 & I5).
destruct (hookFunction_effect options operation internalHooks internalHook this w)
  as (rest & Hcalls & Hrest).
pose proof (hookFunction_rootSpan options operation internalHooks internalHook this w)
  as Hroot.
destruct (startRootSpan_tracer this w) as (_ & HnN).
set (w' := hookFunction options operation internalHooks internalHook this w) in *.
set (N := nextSpan w) in *.
set (n := nextSpan (startRootSpan this w)) in *.
set (due := rootSpanDue this w) in *.
assert (F1 : (N ≤ n ∧ n ≤ nextSpan w')%nat).
{ split; [destruct due; lia|].
  destruct Hrest as [(_ & -> & _) | [(_ & -> & _) | (s & _ & _ & -> & _)]]; lia. }
assert (F2 : ∀ s o, SpanStarted s o ∈ rest →
                    s = n ∧ isRootSpanOptions o = false ∧ nextSpan w' = S n).
{ intros s o Hin.
  destruct Hrest as [(-> & _) | [(-> & Hn & _) | (s' & _ & -> & _)]].
  - by apply elem_of_nil in Hin.
  - apply elem_of_app in Hin as [Hin | Hin%list_elem_of_singleton].
    + destruct (spansOf this w !! operation); [|by apply elem_of_nil in Hin].
      by apply list_elem_of_singleton in Hin.
    + by injection Hin as -> ->.
  - by apply list_elem_of_singleton in Hin. }
assert (F3 : ∀ s t, SpanEnded s t ∈ rest → spansOf this w !! operation = Some s).
{ intros s t Hin.
  destruct Hrest as [(-> & _) | [(-> & _) | (s' & Hs' & -> & _)]].
  - by apply elem_of_nil in Hin.
  - apply elem_of_app in Hin as [Hin | Hin%list_elem_of_singleton]; [|done].
    destruct (spansOf this w !! operation); [|by apply elem_of_nil in Hin].
    apply list_elem_of_singleton in Hin. by injection Hin as ->.
  - apply list_elem_of_singleton in Hin. by injection Hin as -> _. }
assert (F4 : ∀ that op s, spansOf that w' !! op = Some s →
                          spansOf that w !! op = Some s ∨ (s = n ∧ nextSpan w' = S n)).
{ intros that op s Hs.
  destruct Hrest as [(_ & _ & Hsp) | [(_ & Hn & Hsp & Hother) | (s' & _ & _ & _ & Hsp)]].
  - left. by rewrite <- Hsp.
  - destruct (decide (vm_id that = vm_id this)) as [Hid|Hid].
    + rewrite (spansOf_id that this w' Hid), Hsp in Hs.
      rewrite (spansOf_id that this w Hid).
      apply lookup_insert_Some in Hs as [[_ <-] | [_ Hs]]; auto.
    + left. by rewrite <- Hother.
  - left. by rewrite <- Hsp. }
assert (F5 : ∀ s, s ∈ rootSpans w' ↔ s ∈ rootSpans w ∨ (due = true ∧ s = N)).
{ intros s. unfold rootSpans. rewrite Hcalls, !rootSpansIn_app, !elem_of_app.
  assert (Hnone : s ∉ rootSpansIn rest).
  { intros (o & Hin & Ho)%elem_of_rootSpansIn.
    destruct (F2 s o Hin) as (_ & Ho' & _). congruence. }
  destruct due.
  - change (rootSpansIn [SpanStarted N rootSpanOptions]) with [N].
    rewrite list_elem_of_singleton.
    split; [intros [?|[?|?]]; [auto | auto | done] | intros [?|[_ ?]]; auto].
  - change (rootSpansIn []) with (@nil Span).
    rewrite elem_of_nil.
    split; [intros [?|[?|?]]; [auto | done | done] | intros [?|[? _]]; [auto | done]]. }
assert (F6 : ∀ s, (∀ s' op, spansOf this w !! op = Some s' → s' ≠ s) →
                  endCalls s w' = endCalls s w).
{ intros s Hne. unfold endCalls. rewrite Hcalls, !endCallsIn_app.
  rewrite (endCallsIn_none s rest).
  - rewrite (endCallsIn_none s (if due then _ else _)); [lia|].
    intros t Hin. destruct due; [|by apply elem_of_nil in Hin].
    by apply list_elem_of_singleton in Hin.
  - intros t Hin. apply F3 in Hin. by apply Hne in Hin. }
assert (F7 : ∀ s, s ∈ rootSpans w → endCalls s w' = endCalls s w).
{ intros s Hs. apply F6. intros s' op Hs' ->. by destruct (I4 _ _ _ Hs'). }
assert (F8 : endCalls N w' = 0%nat).
{ rewrite F6.
  - apply endCallsIn_none. intros t Hin. apply I6 in Hin. lia.
  - intros s' op Hs' ->. destruct (I4 _ _ _ Hs'). lia. }
assert (F9 : ∀ j s, _sentryRootSpan (data w' j) = Some s →
                    (due = true ∧ vm_id this = j ∧ s = N)
                    ∨ _sentryRootSpan (data w j) = Some s).
{ intros j s. rewrite Hroot. destruct due; simpl; [|auto].
  case_bool_decide; [|auto]. intros [= <-]. auto. }
split; [|split; [|split; [|split; [|split]]]].
- intros s o. rewrite Hcalls, !elem_of_app. intros [Hin | [Hin | Hin]].
  + apply I1 in Hin. lia.
  + destruct due; [|by apply elem_of_nil in Hin].
    apply list_elem_of_singleton in Hin. injection Hin as -> _. lia.
  + destruct (F2 s o Hin) as (-> & _ & ->). lia.
- intros s t. rewrite Hcalls, !elem_of_app. intros [Hin | [Hin | Hin]].
  + apply I6 in Hin. lia.
  + destruct due; [|by apply elem_of_nil in Hin].
    by apply list_elem_of_singleton in Hin.
  + apply F3, I4 in Hin. lia.
- intros j s Hs. apply F9 in Hs as [(Hd & _ & ->) | Hs].
  + split; [apply F5; auto | done].
  + destruct (I2 j s Hs) as [Hr He]. split; [apply F5; auto|]. by rewrite F7.
- intros i j s Hi Hj.
  apply F9 in Hi as [(_ & <- & ->) | Hi]; apply F9 in Hj as [(_ & <- & Hj) | Hj];
    try done; subst.
  + destruct (I2 _ _ Hj) as [Hr _]. apply (rootSpans_lt w _ I1) in Hr. lia.
  + destruct (I2 _ _ Hi) as [Hr _]. apply (rootSpans_lt w _ I1) in Hr. lia.
  + by eapply I3.
- intros that op s Hs. apply F4 in Hs as [Hs | [-> Hn]].
  + destruct (I4 _ _ _ Hs) as [Hlt Hnr]. split; [lia|].
    rewrite F5. intros [? | [_ ->]]; [done | lia].
  + split; [lia|]. rewrite F5. intros [Hr | [Hd Hs]].
    * apply (rootSpans_lt w _ I1) in Hr. lia.
    * rewrite Hd in HnN. lia.
- intros s [Hs | [_ ->]]%F5.
  + rewrite F7 by done. by apply I5.
  + rewrite F8. lia.
Qed.
End HookPreserves.

(** ** A close timer fires *)

Lemma runTask_frame t w :
  nextSpan (runTask t w) = nextSpan w
  ∧ activeSpan (runTask t w) = activeSpan w
  ∧ pending (runTask t w) = filter (λ t', t_handle t' ≠ t_handle t) (pending w)
  ∧ nextTimer (runTask t w) = nextTimer w
  ∧ now (runTask t w) = now w
  ∧ warnings (runTask t w) = warnings w
  ∧ (∀ that, spansOf that (runTask t w) = spansOf that w)
  ∧ (∀ j, _sentryRootSpanTimer (data (runTask t w) j) = _sentryRootSpanTimer (data w j)).
Proof.
  unfold runTask, rootSpanTimeout.
  change (data (clearTimeout (t_handle t) w)) with (data w).
  destruct (_sentryRootSpan (data w (vm_root (t_vm t)))) eqn:E; repeat split; try done.
  - intros that. unfold spansOf. heap_simpl. change (data (span_end _ _ _)) with (data w).
    case_decide as Hj; [|done]. simpl. by rewrite <- Hj.
  - intros j. heap_simpl. change (data (span_end _ _ _)) with (data w).
    case_decide as Hj; [|done]. simpl. by rewrite <- Hj.
Qed.

(** The fire handler ends the root span only if one is still stored, and
    then clears it. *)
Lemma runTask_tracer t w :
  match _sentryRootSpan (data w (vm_root (t_vm t))) with
  | Some s =>
      tracerCalls (runTask t w) = tracerCalls w ++ [SpanEnded s (Some (t_timestamp t))]
      ∧ ∀ j, _sentryRootSpan (data (runTask t w) j)
             = if decide (vm_root (t_vm t) = j) then None else _sentryRootSpan (data w j)
  | None => tracerCalls (runTask t w) = tracerCalls w
            ∧ ∀ j, _sentryRootSpan (data (runTask t w) j) = _sentryRootSpan (data w j)
  end.
Proof.
  unfold runTask, rootSpanTimeout.
  change (data (clearTimeout (t_handle t) w)) with (data w).
  destruct (_sentryRootSpan (data w (vm_root (t_vm t)))) eqn:E; [|done].
  split; [done|]. intros j. heap_simpl. by case_decide.
Qed.

Lemma consistent_runTask t w : consistent w → consistent (runTask t w).
Proof.
  intros (I1 & I6 & I2 & I3 & I4 & I5).
  destruct (runTask_frame t w) as (Hn & _ & _ & _ & _ & _ & Hsp & _).
  pose proof (runTask_tracer t w) as Ht.
  destruct (_sentryRootSpan (data w (vm_root (t_vm t)))) as [s|] eqn:E.
  - destruct Ht as [Hc Hroot]. destruct (I2 _ _ E) as [Hsr Hs0].
    assert (Hr : rootSpans (runTask t w) = rootSpans w).
    { unfold rootSpans. rewrite Hc, rootSpansIn_app. apply app_nil_r. }
    assert (He : ∀ s', endCalls s' (runTask t w)
                       = (endCalls s' w + if decide (s = s') then 1 else 0)%nat).
    { intros s'. unfold endCalls. rewrite Hc, endCallsIn_app. f_equal.
      unfold endCallsIn. simpl. rewrite filter_cons, filter_nil. simpl.
      by destruct (decide (s = s')). }
    split; [|split; [|split; [|split; [|split]]]].
    + intros s' o. rewrite Hc, Hn, elem_of_app. intros [Hin | Hin%list_elem_of_singleton].
      * by eapply I1.
      * done.
    + intros s' t'. rewrite Hc, Hn, elem_of_app. intros [Hin | Hin%list_elem_of_singleton].
      * by eapply I6.
      * injection Hin as -> _. by apply (rootSpans_lt w).
    + intros j s'. rewrite Hroot, Hr, He. case_decide as Hj; [done|]. intros Hs'.
      destruct (I2 _ _ Hs') as [? ->]. split; [done|].
      rewrite decide_False; [done|]. intros ->. by apply Hj, (I3 _ _ s').
    + intros i j s'. rewrite !Hroot. repeat case_decide; try done. apply I3.
    + intros that op s'. rewrite Hsp, Hn, Hr. apply I4.
    + intros s'. rewrite Hr, He. intros Hs'. case_decide as Hss.
      * subst s'. rewrite Hs0. lia.
      * specialize (I5 _ Hs'). lia.
  - destruct Ht as [Hc Hroot].
    unfold consistent, rootSpans, endCalls. rewrite Hc, Hn.
    split; [|split; [|split; [|split; [|split]]]]; try done.
    + intros j s. rewrite Hroot. apply I2.
    + intros i j s. rewrite !Hroot. apply I3.
    + intros that op s. rewrite Hsp. apply I4.
Qed.

Lemma consistent_step options e w w' :
  consistent w → step options e w = Some w' → consistent w'.
Proof.
  intros Hw. destruct e as [operation internalHooks internalHook this | h | a | dt]; simpl.
  - intros [= <-]. by apply consistent_hook.
  - destruct (list_find _ (pending w)) as [[i t]|]; [|done].
    case_bool_decide; [|done]. intros [= <-]. by apply consistent_runTask.
  - by intros [= <-].
  - case_bool_decide; [|done]. by intros [= <-].
Qed.

Lemma consistent_run options es :
  ∀ w w', consistent w → run options es w = Some w' → consistent w'.
Proof.
  induction es as [|e es IH]; intros w w' Hw; simpl.
  - by intros [= <-].
  - destruct (step options e w) as [w1|] eqn:E; [|done].
    apply IH. by eapply consistent_step.
Qed.

(** C1. In every world reached from an initial one by hooks firing on any
    instances, close timers firing in any order, the active span changing
    and time passing, each root span has been ended at most once. A close
    timer that fires when no root span is stored makes no tracer call; one
    that finds a root span ends it and clears it, so that the next timer
    to fire finds none. *)
Theorem root_span_ended_at_most_once
    (options : TracingOptions) (es : list Event) (w0 w : World) :
  initial w0 →
  run options es w0 = Some w →
  (∀ s, s ∈ rootSpans w → (endCalls s w ≤ 1)%nat)
  ∧ (∀ t, _sentryRootSpan (data w (vm_root (t_vm t))) = None →
          tracerCalls (runTask t w) = tracerCalls w)
  ∧ (∀ t s, _sentryRootSpan (data w (vm_root (t_vm t))) = Some s →
            endCalls s w = 0%nat
            ∧ tracerCalls (runTask t w) = tracerCalls w ++ [SpanEnded s (Some (t_timestamp t))]
            ∧ ∀ t', vm_root (t_vm t') = vm_root (t_vm t) →
                    tracerCalls (runTask t' (runTask t w)) = tracerCalls (runTask t w)).
Proof.
  intros Hinit Hrun.
  assert (Hw : consistent w).
  { eapply consistent_run; [|exact Hrun]. by apply consistent_initial. }
  destruct Hw as (I1 & I6 & I2 & I3 & I4 & I5).
  split; [done|]. split.
  - intros t Hnone. pose proof (runTask_tracer t w) as Ht. rewrite Hnone in Ht. tauto.
  - intros t s Hs. pose proof (runTask_tracer t w) as Ht. rewrite Hs in Ht.
    destruct Ht as [Hc Hroot]. destruct (I2 _ _ Hs) as [_ He].
    split; [done|]. split; [done|]. intros t' Heq.
    pose proof (runTask_tracer t' (runTask t w)) as Ht'.
    rewrite Heq, Hroot, decide_True in Ht' by done. tauto.
Qed.

(** ** Open spans are accounted for *)

Lemma accounted_initial w : initial w → accounted w.
Proof.
  intros (Hh & Hc & _). unfold accounted, spansOf, data. rewrite Hh, Hc. split.
  - intros s o Hin. by apply elem_of_nil in Hin.
  - intros a b op1 op2 s. rewrite lookup_empty. simpl. by rewrite lookup_empty.
Qed.

Lemma accounted_hook options operation internalHooks internalHook this w :
  consistent w → accounted w →
  accounted (hookFunction options operation internalHooks internalHook this w).
Proof.
  intros (_ & _ & _ & _ & I4 & _) (A1 & A2).
  destruct (hookFunction_effect options operation internalHooks internalHook this w)
    as (rest & Hcalls & Hrest).
  destruct (startRootSpan_tracer this w) as (_ & HnN).
  set (w' := hookFunction options operation internalHooks internalHook this w) in *.
  set (n := nextSpan (startRootSpan this w)) in *.
  assert (Hn : (nextSpan w ≤ n)%nat) by (destruct (rootSpanDue this w); lia).
  assert (Hroot : ∀ s o, SpanStarted s o
                         ∈ (if rootSpanDue this w
                            then [SpanStarted (nextSpan w) rootSpanOptions] else []) →
                         isRootSpanOptions o = true).
  { intros s o Hin. destruct (rootSpanDue this w); [|by apply elem_of_nil in Hin].
    apply list_elem_of_singleton in Hin. by injection Hin as _ ->. }
  assert (Hold : ∀ s o, SpanStarted s o ∈ tracerCalls w → isRootSpanOptions o = false →
                        (∃ t, SpanEnded s t ∈ tracerCalls w')
                        ∨ ∃ that op, spansOf that w !! op = Some s).
  { intros s o Hin Ho. destruct (A1 s o Hin Ho) as [[t Ht] | Hst]; [left | by right].
    exists t. rewrite Hcalls. apply elem_of_app. by left. }
  destruct Hrest as [(-> & _ & Hsp) | [(-> & _ & Hsp & Hother) | (span & Hspan & -> & _ & Hsp)]].
  - split.
    + intros s o Hin Ho. rewrite Hcalls, app_nil_r, elem_of_app in Hin.
      destruct Hin as [Hin | Hin].
      * destruct (Hold s o Hin Ho) as [? | (that & op & Hs)]; [by left|].
        right. exists that, op. by rewrite Hsp.
      * apply Hroot in Hin. congruence.
    + intros a b op1 op2 s. rewrite !Hsp. apply A2.
  - split.
    + intros s o Hin Ho. rewrite Hcalls, !elem_of_app in Hin.
      destruct Hin as [Hin | [Hin | [Hin | Hin%list_elem_of_singleton]]].
      * destruct (Hold s o Hin Ho) as [? | (that & op & Hs)]; [by left|].
        destruct (decide (vm_id that = vm_id this ∧ op = operation)) as [[Hid ->] | Hne].
        -- left. exists None. rewrite Hcalls, !elem_of_app. right; right; left.
           assert (E : spansOf this w !! operation = Some s)
             by (by rewrite <- (spansOf_id that this w Hid)).
           rewrite E. apply list_elem_of_here.
        -- right. exists that, op.
           destruct (decide (vm_id that = vm_id this)) as [Hid | Hid].
           ++ rewrite (spansOf_id that this w' Hid), Hsp.
              rewrite lookup_insert_ne by (intros ->; by apply Hne).
              by rewrite <- (spansOf_id that this w Hid).
           ++ by rewrite Hother.
      * apply Hroot in Hin. congruence.
      * destruct (spansOf this w !! operation); [|by apply elem_of_nil in Hin].
        by apply list_elem_of_singleton in Hin.
      * injection Hin as -> ->. right. exists this, operation.
        by rewrite Hsp, lookup_insert_eq.
    + assert (Hlook : ∀ a op s, spansOf a w' !! op = Some s →
                                (vm_id a = vm_id this ∧ op = operation ∧ s = n)
                                ∨ ((vm_id a ≠ vm_id this ∨ op ≠ operation)
                                   ∧ spansOf a w !! op = Some s)).
      { intros a op s Hs. destruct (decide (vm_id a = vm_id this)) as [Hid | Hid].
        - rewrite (spansOf_id a this w' Hid), Hsp in Hs.
          apply lookup_insert_Some in Hs as [[<- <-] | [Hne Hs]]; [by left|].
          right. rewrite (spansOf_id a this w Hid). split; [right; congruence | done].
        - right. rewrite Hother in Hs by done. auto. }
      intros a b op1 op2 s Ha Hb.
      apply Hlook in Ha as [(Ha1 & -> & ->) | [_ Ha]];
        apply Hlook in Hb as [(Hb1 & -> & Hb) | [_ Hb]].
      * split; congruence.
      * destruct (I4 _ _ _ Hb). lia.
      * subst s. destruct (I4 _ _ _ Ha). lia.
      * by eapply A2.
  - split.
    + intros s o Hin Ho. rewrite Hcalls, !elem_of_app in Hin.
      destruct Hin as [Hin | [Hin | Hin%list_elem_of_singleton]]; [| | done].
      * destruct (Hold s o Hin Ho) as [? | (that & op & Hs)]; [by left|].
        right. exists that, op. by rewrite Hsp.
      * apply Hroot in Hin. congruence.
    + intros a b op1 op2 s. rewrite !Hsp. apply A2.
Qed.

Lemma accounted_runTask t w : accounted w → accounted (runTask t w).
Proof.
  intros (A1 & A2).
  destruct (runTask_frame t w) as (_ & _ & _ & _ & _ & _ & Hsp & _).
  assert (Hc : ∃ l, tracerCalls (runTask t w) = tracerCalls w ++ l
                    ∧ ∀ s o, SpanStarted s o ∉ l).
  { pose proof (runTask_tracer t w) as Ht.
    destruct (_sentryRootSpan (data w (vm_root (t_vm t)))) as [s|].
    - destruct Ht as [-> _]. eexists. split; [done|].
      intros s' o Hin. by apply list_elem_of_singleton in Hin.
    - destruct Ht as [-> _]. exists []. rewrite app_nil_r. split; [done|].
      intros s' o Hin. by apply elem_of_nil in Hin. }
  destruct Hc as (l & Hc & Hl). split.
  - intros s o Hin Ho. rewrite Hc, elem_of_app in Hin.
    destruct Hin as [Hin | Hin]; [|by apply Hl in Hin].
    destruct (A1 s o Hin Ho) as [[t' Ht'] | (that & op & Hs)].
    + left. exists t'. rewrite Hc. apply elem_of_app. by left.
    + right. exists that, op. by rewrite Hsp.
  - intros a b op1 op2 s. rewrite !Hsp. apply A2.
Qed.

Lemma reachable_accounted options es :
  ∀ w w', consistent w → accounted w → run options es w = Some w' →
          consistent w' ∧ accounted w'.
Proof.
  induction es as [|e es IH]; intros w w' Hw Ha; simpl.
  - by intros [= <-].
  - destruct (step options e w) as [w1|] eqn:E; [|done].
    apply IH; [by eapply consistent_step|].
    destruct e as [operation internalHooks internalHook this | h | a | dt]; simpl in E.
    + injection E as <-. by apply accounted_hook.
    + destruct (list_find _ (pending w)) as [[i t]|]; [|done].
      case_bool_decide; [|done]. injection E as <-. by apply accounted_runTask.
    + by injection E as <-.
    + case_bool_decide; [|done]. by injection E as <-.
Qed.

Lemma endCallsIn_zero s calls : endCallsIn s calls = 0%nat → ∀ t, SpanEnded s t ∉ calls.
Proof.
  unfold endCallsIn. intros Hz t Hin%elem_of_endedIn.
  assert (Hf : (s, t) ∈ filter (λ e : Span * option Q, e.1 = s) (endedIn calls))
    by (by apply list_elem_of_filter).
  destruct (filter _ (endedIn calls)); [by apply elem_of_nil in Hf | done].
Qed.

(** C5 (amended). For a tracked instance whose before-hook finds a
    starting span (the root's root span or an active span): if a span is
    still stored for the operation, the hook first ends that span and only
    then starts and stores the new one; and from an empty slot the hooks
    before, before, after start two spans and end both, each after its own
    start, so none is left open. In every reachable world, whatever events
    led to it, every span started for an operation and not yet ended is
    stored in the slot of exactly one instance and operation, so a slot
    never accounts for more than one open span. *)
Theorem defensive_close
    (options : TracingOptions) (operation : Operation)
    (internalHooks : list Hook) (before after : Hook) (this : VueSentry) (w : World) :
  tracked options this = true →
  internalHooks !! 0%nat = Some before →
  after ≠ before →
  is_Some (startingSpan this w) →
  let hook h := hookFunction options operation internalHooks h this in
  let o := componentSpanOptions (vm_name this) operation in
  let s1 := nextSpan (startRootSpan this w) in
  (∀ oldSpan, spansOf this w !! operation = Some oldSpan →
      tracerCalls (hook before w)
      = tracerCalls (startRootSpan this w) ++ [SpanEnded oldSpan None; SpanStarted s1 o]
      ∧ spansOf this (hook before w) !! operation = Some s1)
  ∧ (spansOf this w !! operation = None →
      tracerCalls (hook after (hook before (hook before w)))
      = tracerCalls (startRootSpan this w)
        ++ [SpanStarted s1 o; SpanEnded s1 None; SpanStarted (S s1) o; SpanEnded (S s1) None]
      ∧ spansOf this (hook after (hook before (hook before w))) !! operation = Some (S s1))
  ∧ (∀ es w0 w', initial w0 → run options es w0 = Some w' →
      ∀ s o', SpanStarted s o' ∈ tracerCalls w' →
              isRootSpanOptions o' = false →
              endCalls s w' = 0%nat →
              ∃ that op, spansOf that w' !! op = Some s
                         ∧ ∀ b op', spansOf b w' !! op' = Some s →
                                    vm_id b = vm_id that ∧ op' = op).
Proof.
  intros Ht Hb Ha Hc hook o s1.
  destruct (before_with_context options operation internalHooks before this Ht Hb w Hc)
    as (_ & Hcalls & Hsp & Hn & Hd1 & Hs1 & Hc1).
  destruct (startRootSpan_tracer this w) as (Hroot & _).
  split; [|split].
  - intros oldSpan Hold. split; [|done].
    subst hook. simpl. rewrite Hcalls, Hold, Hroot. by rewrite <- !app_assoc.
  - intros Hnone. subst hook. simpl.
    set (w1 := hookFunction options operation internalHooks before this w) in *.
    rewrite (steady_before options operation internalHooks before this Ht Hb w1 Hd1 Hs1).
    destruct (beforeHook_tracer operation this w1 Hc1) as (Ht2 & Hn2 & _).
    destruct (beforeHook_spansOf operation this w1 Hc1) as (Hsp2 & _).
    destruct (beforeHook_steady operation this w1 Hc1 Hd1) as (Hd2 & Hs2 & _).
    set (w2 := beforeHook operation this w1) in *.
    rewrite (steady_after options operation internalHooks before after this Ht Hb Ha w2 Hd2 Hs2).
    assert (E2 : spansOf this w2 !! operation = Some (S s1)).
    { by rewrite Hsp2, lookup_insert_eq, Hn. }
    destruct (afterHook_tracer options operation this w2 _ E2) as (-> & _).
    split; [|by rewrite afterHook_spansOf].
    rewrite Ht2, Hsp, Hn, Hcalls, Hnone, Hroot. simpl. by rewrite <- !app_assoc.
  - intros es w0 w' Hinit Hrun s o' Hin Ho He.
    destruct (reachable_accounted options es w0 w') as [_ (A1 & A2)];
      [by apply consistent_initial | by apply accounted_initial | done |].
    destruct (A1 s o' Hin Ho) as [[t Ht'] | (that & op & Hs)].
    + by apply (endCallsIn_zero _ _ He) in Ht'.
    + exists that, op. split; [done|]. intros b op' Hb'.
      destruct (A2 b that op' op s Hb' Hs). done.
Qed.

Lemma defensive_close_witness :
  tracerCalls (hookFunction Scenario.trackAll "mount" Scenario.mount "beforeMount"
                 Scenario.Foo Scenario.mounting)
  = tracerCalls Scenario.mounting
    ++ [SpanEnded 0%nat None; SpanStarted 1%nat (componentSpanOptions "Foo" "mount")]
  ∧ tracerCalls
      (hookFunction Scenario.trackAll "mount" Scenario.mount "mounted" Scenario.Foo
         (hookFunction Scenario.trackAll "mount" Scenario.mount "beforeMount" Scenario.Foo
            (hookFunction Scenario.trackAll "mount" Scenario.mount "beforeMount" Scenario.Foo
               (Scenario.idle (Some Scenario.trace)))))
    = [SpanStarted 0%nat (componentSpanOptions "Foo" "mount"); SpanEnded 0%nat None;
       SpanStarted 1%nat (componentSpanOptions "Foo" "mount"); SpanEnded 1%nat None]
  ∧ ∃ that op,
      spansOf that (hookFunction Scenario.trackAll "mount" Scenario.mount "beforeMount"
                      Scenario.Foo Scenario.mounting) !! op = Some 1%nat
      ∧ ∀ b op',
          spansOf b (hookFunction Scenario.trackAll "mount" Scenario.mount "beforeMount"
                       Scenario.Foo Scenario.mounting) !! op' = Some 1%nat →
          vm_id b = vm_id that ∧ op' = op.
Proof.
  assert (Hm : is_Some (startingSpan Scenario.Foo Scenario.mounting))
    by (exists Scenario.trace; reflexivity).
  assert (Hi : is_Some (startingSpan Scenario.Foo (Scenario.idle (Some Scenario.trace))))
    by (exists Scenario.trace; reflexivity).
  assert (Hinit : initial (Scenario.idle (Some Scenario.trace))) by (repeat split).
  assert (Hrun : run Scenario.trackAll
                   [HookFired "mount" Scenario.mount "beforeMount" Scenario.Foo;
                    HookFired "mount" Scenario.mount "beforeMount" Scenario.Foo]
                   (Scenario.idle (Some Scenario.trace))
                 = Some (hookFunction Scenario.trackAll "mount" Scenario.mount "beforeMount"
                           Scenario.Foo Scenario.mounting))
    by reflexivity.
  split; [|split].
  - apply (proj1 (defensive_close Scenario.trackAll "mount" Scenario.mount "beforeMount"
                    "mounted" Scenario.Foo Scenario.mounting
                    eq_refl eq_refl ltac:(discriminate) Hm)).
    reflexivity.
  - apply (proj1 (proj2 (defensive_close Scenario.trackAll "mount" Scenario.mount
                           "beforeMount" "mounted" Scenario.Foo
                           (Scenario.idle (Some Scenario.trace))
                           eq_refl eq_refl ltac:(discriminate) Hi))).
    reflexivity.
  - apply (proj2 (proj2 (defensive_close Scenario.trackAll "mount" Scenario.mount
                           "beforeMount" "mounted" Scenario.Foo Scenario.mounting
                           eq_refl eq_refl ltac:(discriminate) Hm))
             _ _ _ Hinit Hrun 1%nat (componentSpanOptions "Foo" "mount")).
    + vm_compute. do 2 apply list_elem_of_further. apply list_elem_of_here.
    + reflexivity.
    + vm_compute. reflexivity.
Defined.

(** C5, as stated, fails without a starting span: the stored span is not
    ended by the next before-hook, and before, before, after end nothing
    at all when no trace is active. *)
Lemma stale_span_kept_without_context :
  tracked Scenario.trackAll Scenario.Foo = true
  ∧ spansOf Scenario.Foo Scenario.orphaned !! "mount" = Some 0%nat
  ∧ hookFunction Scenario.trackAll "mount" Scenario.mount "beforeMount" Scenario.Foo
      Scenario.orphaned = Scenario.orphaned
  ∧ ended Scenario.orphaned = []
  ∧ ended
      (hookFunction Scenario.trackAll "mount" Scenario.mount "mounted" Scenario.Foo
         (hookFunction Scenario.trackAll "mount" Scenario.mount "beforeMount" Scenario.Foo
            (hookFunction Scenario.trackAll "mount" Scenario.mount "beforeMount" Scenario.Foo
               (Scenario.idle None)))) = [].
Proof. repeat split. Qed.

(** ** Letting time pass *)





Lemma consistent_set_now t w : consistent w → consistent (set_now t w).
Proof. done. Qed.



(** ** A burst of operations on one instance *)




(** ** Every due timer fires *)

Lemma nextDue_result limit ts :
  match nextDue limit ts with
  | Some t => t ∈ ts ∧ (t_due t ≤ limit)%Z
  | None => ∀ t, t ∈ ts → (limit < t_due t)%Z
  end.
Proof.
  unfold nextDue. induction ts as [|x ts IH] using rev_ind.
  - simpl. intros t Ht. by apply elem_of_nil in Ht.
  - rewrite foldl_app. simpl. case_bool_decide as Hx.
    + destruct (foldl _ None ts) as [b|].
      * case_bool_decide.
        -- split; [|done]. apply elem_of_app. right. by apply list_elem_of_singleton.
        -- destruct IH as [Hb Hd]. split; [|done]. apply elem_of_app. by left.
      * split; [|done]. apply elem_of_app. right. by apply list_elem_of_singleton.
    + destruct (foldl _ None ts) as [b|].
      * destruct IH as [Hb Hd]. split; [|done]. apply elem_of_app. by left.
      * intros t [Ht | ->%list_elem_of_singleton]%elem_of_app; [by apply IH | lia].
Qed.

(** The fuel [advance] gives itself is enough: when it returns, no pending
    timer is due any more. *)
Lemma advanceTo_fires_all fuel limit :
  ∀ w, (length (pending w) ≤ fuel)%nat →
       ∀ t, t ∈ pending (advanceTo fuel limit w) → (limit < t_due t)%Z.
Proof.
  induction fuel as [|fuel IH]; intros w Hlen t; simpl.
  - destruct (pending w); [|simpl in Hlen; lia]. intros Ht. by apply elem_of_nil in Ht.
  - pose proof (nextDue_result limit (pending w)) as Hnext.
    destruct (nextDue limit (pending w)) as [t'|]; [|by apply Hnext].
    destruct Hnext as [Hin Hdue]. apply IH.
    destruct (runTask_frame t' (set_now (Z.max (now w) (t_due t')) w))
      as (_ & _ & -> & _).
    simpl.
    assert (length (filter (λ x, t_handle x ≠ t_handle t') (pending w)) < length (pending w))%nat;
      [|lia].
    apply (length_filter_lt _ _ t'); [done | auto].
Qed.

Lemma advance_fires_all_due d w t :
  t ∈ pending (advance d w) → (now w + d < t_due t)%Z.
Proof. by apply advanceTo_fires_all. Qed.

Section Burst.
Variables (options : TracingOptions) (this : VueSentry) (s : Span).
Hypothesis Htracked : tracked options this = true.







End Burst.



(** C2 at its failing input: after [Foo] and the root completed their
    mounts 50 ms apart, two close timers for the same root are pending, one
    on each instance; the first to come due ends the root span 50 ms after
    the root's own completion, with the earlier completion as timestamp. *)
Lemma two_pending_close_timers :
  run Scenario.trackAll Scenario.mountBoth (Scenario.idle (Some Scenario.trace))
  = Some Scenario.bothMounted
  ∧ (λ t, (t_handle t, vm_id (t_vm t), vm_root (t_vm t), t_due t))
      <$> pending Scenario.bothMounted
    = [(1%positive, 1%nat, 0%nat, 105%Z); (2%positive, 0%nat, 0%nat, 155%Z)]
  ∧ now Scenario.bothMounted = 55%Z
  ∧ ended (advance 50 Scenario.bothMounted)
    = [(2%nat, None); (1%nat, None); (0%nat, Some (5 # 1000))].
Proof. vm_compute. repeat split. Qed.

Lemma root_span_ended_at_most_once_witness :
  (endCalls 0%nat Scenario.bothTimersFired ≤ 1)%nat
  ∧ tracerCalls (runTask {| t_handle := 2%positive; t_due := 155; t_vm := Scenario.App;
                            t_timestamp := 55 # 1000 |} Scenario.bothTimersFired)
    = tracerCalls Scenario.bothTimersFired.
Proof.
  assert (Hinit : initial (Scenario.idle (Some Scenario.trace))) by (repeat split).
  assert (Hrun : run Scenario.trackAll
                   (Scenario.mountBoth
                    ++ [ClockAdvanced 60; TimerFired 1%positive; ClockAdvanced 50;
                        TimerFired 2%positive])
                   (Scenario.idle (Some Scenario.trace)) = Some Scenario.bothTimersFired)
    by (vm_compute; reflexivity).
  destruct (root_span_ended_at_most_once Scenario.trackAll _ _ _ Hinit Hrun)
    as (Honce & Hnone & _).
  split.
  - apply Honce. vm_compute. apply list_elem_of_here.
  - apply Hnone. vm_compute. reflexivity.
Defined.

(** * Further properties of the tracing mixins *)

(** ** What one hook does to the timers *)

Lemma beforeHook_activeSpan operation this w :
  activeSpan (beforeHook operation this w) = activeSpan w.
Proof.
  unfold beforeHook. destruct (startingSpan this w); [|done].
  by destruct (spansOf this w !! operation).
Qed.

Lemma prelude_frame this w :
  let w0 := initSpans this (startRootSpan this w) in
  activeSpan w0 = activeSpan w ∧ pending w0 = pending w ∧ nextTimer w0 = nextTimer w
  ∧ now w0 = now w
  ∧ ∀ j, _sentryRootSpanTimer (data w0 j) = _sentryRootSpanTimer (data w j).
Proof.
  intros w0. subst w0.
  destruct (initSpans_tracer this (startRootSpan this w)) as (_ & _ & ->).
  destruct (initSpans_timers this (startRootSpan this w)) as (-> & -> & -> & _).
  destruct (startRootSpan_rest this w) as (-> & -> & -> & -> & _).
  repeat split. intros j. by rewrite initSpans_timer, startRootSpan_timer.
Qed.

Lemma hookFunction_timers options operation internalHooks internalHook this w :
  let w' := hookFunction options operation internalHooks internalHook this w in
  now w' = now w ∧ activeSpan w' = activeSpan w
  ∧ ((pending w' = pending w ∧ nextTimer w' = nextTimer w
      ∧ ∀ j, _sentryRootSpanTimer (data w' j) = _sentryRootSpanTimer (data w j))
     ∨ (pending w'
        = match _sentryRootSpanTimer (data w (vm_id this)) with
          | Some h => filter (λ t, t_handle t ≠ h) (pending w)
          | None => pending w
          end
          ++ [{| t_handle := nextTimer w;
                 t_due := now w + Z.max 0 (timeout options);
                 t_vm := this;
                 t_timestamp := timestampInSeconds w |}]
        ∧ nextTimer w' = Pos.succ (nextTimer w)
        ∧ ∀ j, _sentryRootSpanTimer (data w' j)
               = if decide (vm_id this = j) then Some (nextTimer w)
                 else _sentryRootSpanTimer (data w j))).
Proof.
  intros w'.
  destruct (prelude_frame this w) as (Ha0 & Hp0 & Hn0 & Hnow0 & Hs0).
  destruct (hookFunction_cases options operation internalHooks internalHook this w)
    as [(_ & _ & E) | [(_ & Hb & E) | [(_ & _ & _ & E) | (s & _ & _ & E0 & _ & E)]]];
    fold w' in E; rewrite E.
  - split; [done|]. split; [done|]. by left.
  - destruct (beforeHook_timers operation this (initSpans this (startRootSpan this w)))
      as (-> & -> & -> & _).
    rewrite beforeHook_activeSpan.
    split; [done|]. split; [done|]. left. split; [done|]. split; [done|].
    intros j.
    destruct (beforeHook_root operation this (initSpans this (startRootSpan this w)) j)
      as [_ ->].
    apply Hs0.
  - split; [done|]. split; [done|]. by left.
  - destruct (afterHook_timers options operation this _ s E0) as (-> & -> & -> & _).
    destruct (afterHook_tracer options operation this _ s E0) as (_ & _ & ->).
    split; [done|]. split; [done|]. right.
    unfold timestampInSeconds. rewrite Hs0, Hp0, Hn0, Hnow0.
    split; [done|]. split; [done|]. intros j.
    destruct (afterHook_data options operation this _ s j E0) as (_ & _ & ->).
    by rewrite Hn0, Hs0.
Qed.

(** No hook makes an end call with an explicit timestamp. *)
Lemma hookFunction_no_timestamp options operation internalHooks internalHook this w s ts :
  SpanEnded s (Some ts)
  ∈ tracerCalls (hookFunction options operation internalHooks internalHook this w) →
  SpanEnded s (Some ts) ∈ tracerCalls w.
Proof.
  destruct (hookFunction_effect options operation internalHooks internalHook this w)
    as (rest & -> & Hrest).
  rewrite !elem_of_app. intros [Hin | [Hin | Hin]]; [done | |]; exfalso.
  - destruct (rootSpanDue this w); [|by apply elem_of_nil in Hin].
    by apply list_elem_of_singleton in Hin.
  - destruct Hrest as [(-> & _) | [(-> & _) | (s' & _ & -> & _)]].
    + by apply elem_of_nil in Hin.
    + apply elem_of_app in Hin as [Hin | Hin%list_elem_of_singleton]; [|done].
      destruct (spansOf this w !! operation); [|by apply elem_of_nil in Hin].
      by apply list_elem_of_singleton in Hin.
    + by apply list_elem_of_singleton in Hin.
Qed.

(** ** The timers of reachable worlds *)

Lemma NoDup_fmap_filter {A B} (f : A → B) (P : A → Prop) `{∀ x, Decision (P x)} (l : list A) :
  NoDup (f <$> l) → NoDup (f <$> filter P l).
Proof.
  induction l as [|x l IH]; [done|]. rewrite fmap_cons, NoDup_cons. intros [Hx Hl].
  destruct (decide (P x)).
  - rewrite filter_cons_True by done. rewrite fmap_cons, NoDup_cons. split; [|auto].
    intros (y & Hy & [_ Hin]%list_elem_of_filter)%list_elem_of_fmap.
    apply Hx, list_elem_of_fmap. eauto.
  - rewrite filter_cons_False by done. auto.
Qed.

Lemma NoDup_fmap_eq {A B} (f : A → B) (l : list A) x y :
  NoDup (f <$> l) → x ∈ l → y ∈ l → f x = f y → x = y.
Proof.
  induction l as [|z l IH]; [by intros _ ?%elem_of_nil|].
  rewrite fmap_cons, NoDup_cons. intros [Hz Hl].
  intros [->|Hx]%elem_of_cons [->|Hy]%elem_of_cons Hf; [done | | | by apply IH].
  - destruct Hz. rewrite Hf. by apply list_elem_of_fmap_2.
  - destruct Hz. rewrite <- Hf. by apply list_elem_of_fmap_2.
Qed.

Lemma timersOk_initial options w : initial w → timersOk options w.
Proof.
  intros (_ & Hc & Hp). unfold timersOk. rewrite Hp, Hc.
  split; [|split; [|split; [|split]]]; try (intros t Ht; by apply elem_of_nil in Ht).
  - apply NoDup_nil_2.
  - intros s ts Hin. by apply elem_of_nil in Hin.
Qed.

Lemma timersOk_hook options operation internalHooks internalHook this w :
  timersOk options w →
  timersOk options (hookFunction options operation internalHooks internalHook this w).
Proof.
  intros (T1 & T2 & T3 & T4 & T5).
  destruct (hookFunction_timers options operation internalHooks internalHook this w)
    as (Hnow & _ & Hcase).
  set (w' := hookFunction options operation internalHooks internalHook this w) in *.
  assert (T5' : ∀ s ts, SpanEnded s (Some ts) ∈ tracerCalls w' →
                        ∃ n, ts = (n # 1000)%Q
                             ∧ (n + Z.max 0 (timeout options) ≤ now w')%Z).
  { intros s ts Hin%hookFunction_no_timestamp. rewrite Hnow. by eapply T5. }
  destruct Hcase as [(Hp & Hn & Hs) | (Hp & Hn & Hs)].
  - unfold timersOk. rewrite Hp, Hn, Hnow.
    split; [done|]. split; [done|]. split; [|split; [done|]].
    + intros t Ht. rewrite Hs. by apply T3.
    + intros s ts Hin. destruct (T5' s ts Hin) as (n & ? & ?). exists n. by rewrite <- Hnow.
  - set (old := match _sentryRootSpanTimer (data w (vm_id this)) with
                | Some h => filter (λ t, t_handle t ≠ h) (pending w)
                | None => pending w
                end) in *.
    assert (Hold : ∀ t, t ∈ old → t ∈ pending w ∧ vm_id (t_vm t) ≠ vm_id this).
    { intros t Ht. subst old.
      destruct (_sentryRootSpanTimer (data w (vm_id this))) as [h|] eqn:Eh.
      - apply list_elem_of_filter in Ht as [Hne Ht]. split; [done|].
        intros Hid. specialize (T3 t Ht). rewrite Hid, Eh in T3. congruence.
      - split; [done|]. intros Hid. specialize (T3 t Ht). rewrite Hid, Eh in T3. done. }
    assert (Hnd : NoDup (t_handle <$> old)).
    { subst old. destruct (_sentryRootSpanTimer (data w (vm_id this))); [|done].
      by apply NoDup_fmap_filter. }
    unfold timersOk. rewrite Hp, Hn.
    split; [|split; [|split; [|split; [|done]]]].
    + intros t [Ht | ->%list_elem_of_singleton]%elem_of_app.
      * destruct (Hold t Ht) as [Ht' _]. specialize (T1 t Ht'). lia.
      * simpl. lia.
    + rewrite fmap_app. apply NoDup_app. split; [done|]. split.
      * intros h (t & -> & Ht)%list_elem_of_fmap Hin.
        apply list_elem_of_singleton in Hin. simpl in Hin.
        destruct (Hold t Ht) as [Ht' _]. specialize (T1 t Ht'). lia.
      * apply NoDup_singleton.
    + intros t [Ht | ->%list_elem_of_singleton]%elem_of_app.
      * destruct (Hold t Ht) as [Ht' Hid]. rewrite Hs.
        rewrite decide_False by done. by apply T3.
      * simpl. rewrite Hs. by rewrite decide_True.
    + intros t [Ht | ->%list_elem_of_singleton]%elem_of_app.
      * destruct (Hold t Ht) as [Ht' _]. rewrite Hnow. by apply T4.
      * simpl. exists (now w). rewrite Hnow. unfold timestampInSeconds.
        split; [done|]. split; [done | lia].
Qed.

Lemma timersOk_runTask options t w :
  timersOk options w → t ∈ pending w → (t_due t ≤ now w)%Z →
  timersOk options (runTask t w).
Proof.
  intros (T1 & T2 & T3 & T4 & T5) Ht Hdue.
  destruct (runTask_frame t w) as (_ & _ & Hp & Hn & Hnow & _ & _ & Hs).
  unfold timersOk. rewrite Hp, Hn, Hnow.
  split; [|split; [|split; [|split]]].
  - intros t' [_ Ht']%list_elem_of_filter. by apply T1.
  - by apply NoDup_fmap_filter.
  - intros t' [_ Ht']%list_elem_of_filter. rewrite Hs. by apply T3.
  - intros t' [_ Ht']%list_elem_of_filter. by apply T4.
  - intros s ts. pose proof (runTask_tracer t w) as Hc.
    destruct (_sentryRootSpan (data w (vm_root (t_vm t)))) as [s'|].
    + destruct Hc as [-> _]. intros [Hin | Hin%list_elem_of_singleton]%elem_of_app.
      * by eapply T5.
      * injection Hin as -> ->. destruct (T4 t Ht) as (n & Hts & Hd & _).
        exists n. split; [done | lia].
    + destruct Hc as [-> _]. apply T5.
Qed.

Lemma timersOk_step options e w w' :
  timersOk options w → step options e w = Some w' → timersOk options w'.
Proof.
  intros Hw. destruct e as [operation internalHooks internalHook this | h | a | dt]; simpl.
  - intros [= <-]. by apply timersOk_hook.
  - destruct (list_find _ (pending w)) as [[i t]|] eqn:E; [|done].
    case_bool_decide; [|done]. intros [= <-].
    apply list_find_Some in E as (Hl & _). apply timersOk_runTask; [done | | done].
    by eapply list_elem_of_lookup_2.
  - by intros [= <-].
  - case_bool_decide; [|done]. intros [= <-].
    destruct Hw as (T1 & T2 & T3 & T4 & T5).
    split; [done|]. split; [done|]. split; [done|]. split.
    + intros t Ht. destruct (T4 t Ht) as (n & ? & ? & ?). exists n. simpl.
      split; [done|]. split; [done | lia].
    + intros s ts Hin. destruct (T5 s ts Hin) as (n & ? & ?). exists n. simpl.
      split; [done | lia].
Qed.

Lemma timersOk_run options es :
  ∀ w w', timersOk options w → run options es w = Some w' → timersOk options w'.
Proof.
  induction es as [|e es IH]; intros w w' Hw; simpl.
  - by intros [= <-].
  - destruct (step options e w) as [w1|] eqn:E; [|done].
    apply IH. by eapply timersOk_step.
Qed.

(** ** The order and kind of tracer calls *)

Lemma elem_of_startedIds s calls : s ∈ startedIds calls ↔ ∃ o, SpanStarted s o ∈ calls.
Proof.
  unfold startedIds. rewrite list_elem_of_fmap. split.
  - intros ([s' o] & -> & Hin%elem_of_startedIn). eauto.
  - intros (o & Hin%elem_of_startedIn). by exists (s, o).
Qed.

Lemma startedIds_app l k : startedIds (l ++ k) = startedIds l ++ startedIds k.
Proof. unfold startedIds. by rewrite startedIn_app, fmap_app. Qed.

Lemma endsFollowStarts_mono calls :
  ∀ seen seen', (∀ s, s ∈ seen → s ∈ seen') →
                endsFollowStarts seen calls → endsFollowStarts seen' calls.
Proof.
  induction calls as [|[s o|s t] calls IH]; intros seen seen' Hsub; simpl; [done | |].
  - apply IH. intros s' [->|?]%elem_of_cons; [apply list_elem_of_here|].
    apply list_elem_of_further. auto.
  - intros [Hs Hrest]. split; [auto|]. by eapply IH.
Qed.

Lemma endsFollowStarts_app l :
  ∀ seen k, endsFollowStarts seen l → endsFollowStarts (startedIds l ++ seen) k →
            endsFollowStarts seen (l ++ k).
Proof.
  induction l as [|[s o|s t] l IH]; intros seen k; simpl; [done | |].
  - intros Hl Hk. apply IH; [done|].
    eapply endsFollowStarts_mono; [|exact Hk].
    intros s'. change (startedIds (SpanStarted s o :: l)) with (s :: startedIds l).
    rewrite !elem_of_app, !elem_of_cons, elem_of_app. tauto.
  - intros [Hs Hl] Hk. split; [done|]. by apply IH.
Qed.

(** A list of calls is in order as soon as all its ends are for spans seen. *)
Lemma endsFollowStarts_seen calls :
  ∀ seen, (∀ s t, SpanEnded s t ∈ calls → s ∈ seen) → endsFollowStarts seen calls.
Proof.
  induction calls as [|[s o|s t] calls IH]; intros seen Hall; simpl; [done | |].
  - apply IH. intros s' t' Hin. apply list_elem_of_further.
    eapply Hall. by apply list_elem_of_further.
  - split; [eapply Hall; apply list_elem_of_here|].
    apply IH. intros s' t' Hin. eapply Hall. by apply list_elem_of_further.
Qed.

Lemma endsFollowStarts_split l1 :
  ∀ seen s t l2, endsFollowStarts seen (l1 ++ SpanEnded s t :: l2) →
                 s ∈ seen ∨ s ∈ startedIds l1.
Proof.
  induction l1 as [|[s' o|s' t'] l1 IH]; intros seen s t l2; simpl.
  - intros [Hs _]. by left.
  - intros H. apply IH in H as [[->|H]%elem_of_cons | H].
    + right. apply list_elem_of_here.
    + by left.
    + right. by apply list_elem_of_further.
  - intros [_ H]. apply IH in H as [H | H]; [by left | by right].
Qed.

(** What one hook does to the tracer and to the span maps, span by span. *)
Lemma hookFunction_summary options operation internalHooks internalHook this w :
  let w' := hookFunction options operation internalHooks internalHook this w in
  let n := nextSpan (startRootSpan this w) in
  ∃ rest,
    tracerCalls w'
    = tracerCalls w
      ++ (if rootSpanDue this w then [SpanStarted (nextSpan w) rootSpanOptions] else [])
      ++ rest
    ∧ n = (if rootSpanDue this w then S (nextSpan w) else nextSpan w)
    ∧ (∀ s o, SpanStarted s o ∈ rest →
              s = n ∧ o = componentSpanOptions (vm_name this) operation)
    ∧ (∀ s t, SpanEnded s t ∈ rest → t = None ∧ spansOf this w !! operation = Some s)
    ∧ (∀ that op s, spansOf that w' !! op = Some s →
                    spansOf that w !! op = Some s
                    ∨ SpanStarted s (componentSpanOptions (vm_name this) operation) ∈ rest).
Proof.
  intros w' n.
  destruct (hookFunction_effect options operation internalHooks internalHook this w)
    as (rest & Hcalls & Hrest).
  destruct (startRootSpan_tracer this w) as (_ & HnN).
  fold w' in Hcalls, Hrest. fold n in Hrest, HnN.
  exists rest. split; [done|]. split; [done|]. split; [|split].
  - intros s o Hin.
    destruct Hrest as [(-> & _) | [(-> & Hn & _) | (s' & _ & -> & _)]].
    + by apply elem_of_nil in Hin.
    + apply elem_of_app in Hin as [Hin | Hin%list_elem_of_singleton].
      * destruct (spansOf this w !! operation); [|by apply elem_of_nil in Hin].
        by apply list_elem_of_singleton in Hin.
      * by injection Hin as -> ->.
    + by apply list_elem_of_singleton in Hin.
  - intros s t Hin.
    destruct Hrest as [(-> & _) | [(-> & _) | (s' & Hs' & -> & _)]].
    + by apply elem_of_nil in Hin.
    + apply elem_of_app in Hin as [Hin | Hin%list_elem_of_singleton]; [|done].
      destruct (spansOf this w !! operation); [|by apply elem_of_nil in Hin].
      apply list_elem_of_singleton in Hin. by injection Hin as -> ->.
    + apply list_elem_of_singleton in Hin. by injection Hin as -> ->.
  - intros that op s Hs.
    destruct Hrest as [(_ & _ & Hsp) | [(-> & Hn & Hsp & Hother) | (s' & _ & _ & _ & Hsp)]].
    + left. by rewrite <- Hsp.
    + destruct (decide (vm_id that = vm_id this)) as [Hid|Hid].
      * rewrite (spansOf_id that this w' Hid), Hsp in Hs.
        rewrite (spansOf_id that this w Hid).
        apply lookup_insert_Some in Hs as [[_ <-] | [_ Hs]]; [|by left].
        right. apply elem_of_app. right. apply list_elem_of_here.
      * left. by rewrite <- Hother.
    + left. by rewrite <- Hsp.
Qed.

Lemma tracerOk_initial w : initial w → tracerOk w.
Proof.
  intros (Hh & Hc & _). unfold tracerOk, rootSpans, spansOf, data. rewrite Hh, Hc.
  split; [done|]. split; [|split; [|split; [|split]]].
  - intros j s. by rewrite lookup_empty.
  - intros that operation s. rewrite lookup_empty. simpl. by rewrite lookup_empty.
  - intros s ts Hin. by apply elem_of_nil in Hin.
  - intros s Hin. by apply elem_of_nil in Hin.
  - intros s o Hin. by apply elem_of_nil in Hin.
Qed.

Lemma tracerOk_hook options operation internalHooks internalHook this w :
  consistent w → tracerOk w →
  tracerOk (hookFunction options operation internalHooks internalHook this w).
Proof.
  intros (I1 & I6 & I2 & I3 & I4 & I5) (O1 & O2 & O3 & O4 & O5 & O6).
  destruct (hookFunction_summary options operation internalHooks internalHook this w)
    as (rest & Hcalls & HnN & F2 & F3 & F4).
  pose proof (hookFunction_rootSpan options operation internalHooks internalHook this w)
    as Hroot.
  pose proof (hookFunction_rootSpans options operation internalHooks internalHook this w)
    as Hrs.
  set (w' := hookFunction options operation internalHooks internalHook this w) in *.
  set (due := rootSpanDue this w) in *.
  assert (Hsub : ∀ s, s ∈ startedIds (tracerCalls w) → s ∈ startedIds (tracerCalls w')).
  { intros s Hs. rewrite Hcalls, startedIds_app. apply elem_of_app. by left. }
  split; [|split; [|split; [|split; [|split]]]].
  - rewrite Hcalls. apply endsFollowStarts_app; [done|].
    apply endsFollowStarts_seen. intros s t [Hin | Hin]%elem_of_app.
    + destruct due; [|by apply elem_of_nil in Hin].
      by apply list_elem_of_singleton in Hin.
    + apply F3 in Hin as [_ Hs]. apply elem_of_app. left. by eapply O3.
  - intros j s. rewrite Hroot. destruct due; simpl.
    + case_bool_decide; [|intros Hs; by eapply Hsub, O2]. intros [= <-].
      rewrite Hcalls, !startedIds_app, !elem_of_app. right; left. apply list_elem_of_here.
    + intros Hs. by eapply Hsub, O2.
  - intros that op s [Hs | Hs]%F4; [by eapply Hsub, O3|].
    rewrite Hcalls, !startedIds_app, !elem_of_app. right; right.
    apply elem_of_startedIds. eauto.
  - intros s ts Hin%hookFunction_no_timestamp. rewrite Hrs. apply elem_of_app. left. eauto.
  - intros s. rewrite Hcalls, Hrs, !elem_of_app.
    assert (Hfresh : ∀ s', (s' < nextSpan w)%nat → s' ∈ rootSpans w
                           ∨ s' ∈ (if due then [nextSpan w] else []) → s' ∈ rootSpans w).
    { intros s' Hlt [? | Hin]; [done|]. destruct due; [|by apply elem_of_nil in Hin].
      apply list_elem_of_singleton in Hin. lia. }
    intros [Hin | [Hin | Hin]] Hr.
    + apply (O5 s Hin). apply Hfresh; [by eapply I6 | done].
    + destruct due; [|by apply elem_of_nil in Hin].
      by apply list_elem_of_singleton in Hin.
    + apply F3 in Hin as [_ Hs]. destruct (I4 _ _ _ Hs) as [Hlt Hnr].
      apply Hnr. by apply Hfresh.
  - intros s o. rewrite Hcalls, !elem_of_app. intros [Hin | [Hin | Hin]].
    + by eapply O6.
    + destruct due; [|by apply elem_of_nil in Hin].
      apply list_elem_of_singleton in Hin. injection Hin as _ ->. by left.
    + apply F2 in Hin as [_ ->]. right. eauto.
Qed.

Lemma tracerOk_runTask t w : consistent w → tracerOk w → tracerOk (runTask t w).
Proof.
  intros (I1 & I6 & I2 & I3 & I4 & I5) (O1 & O2 & O3 & O4 & O5 & O6).
  destruct (runTask_frame t w) as (_ & _ & _ & _ & _ & _ & Hsp & _).
  pose proof (runTask_tracer t w) as Ht.
  destruct (_sentryRootSpan (data w (vm_root (t_vm t)))) as [s|] eqn:E.
  - destruct Ht as [Hc Hroot]. destruct (I2 _ _ E) as [Hsr _].
    assert (Hr : rootSpans (runTask t w) = rootSpans w).
    { unfold rootSpans. rewrite Hc, rootSpansIn_app. apply app_nil_r. }
    assert (Hst : startedIds (tracerCalls (runTask t w)) = startedIds (tracerCalls w)).
    { rewrite Hc, startedIds_app. apply app_nil_r. }
    unfold tracerOk. rewrite Hr, Hst.
    split; [|split; [|split; [|split; [|split]]]].
    + rewrite Hc. apply endsFollowStarts_app; [done|]. simpl. split; [|done].
      rewrite app_nil_r. by eapply O2.
    + intros j s'. rewrite Hroot. case_decide; [done|]. apply O2.
    + intros that op s'. rewrite Hsp. apply O3.
    + intros s' ts. rewrite Hc. intros [Hin | Hin%list_elem_of_singleton]%elem_of_app.
      * by eapply O4.
      * by injection Hin as -> _.
    + intros s'. rewrite Hc. intros [Hin | Hin%list_elem_of_singleton]%elem_of_app.
      * by apply O5.
      * done.
    + intros s' o. rewrite Hc. intros [Hin | Hin%list_elem_of_singleton]%elem_of_app.
      * by eapply O6.
      * done.
  - destruct Ht as [Hc Hroot]. unfold tracerOk, rootSpans. rewrite Hc.
    split; [done|]. split; [|split; [|done]].
    + intros j s. rewrite Hroot. apply O2.
    + intros that op s. rewrite Hsp. apply O3.
Qed.

Lemma reachable_tracerOk options es :
  ∀ w w', consistent w → tracerOk w → run options es w = Some w' → tracerOk w'.
Proof.
  induction es as [|e es IH]; intros w w' Hw Ho; simpl.
  - by intros [= <-].
  - destruct (step options e w) as [w1|] eqn:E; [|done].
    apply IH; [by eapply consistent_step|].
    destruct e as [operation internalHooks internalHook this | h | a | dt]; simpl in E.
    + injection E as <-. by apply tracerOk_hook.
    + destruct (list_find _ (pending w)) as [[i t]|]; [|done].
      case_bool_decide; [|done]. injection E as <-. by apply tracerOk_runTask.
    + by injection E as <-.
    + case_bool_decide; [|done]. by injection E as <-.
Qed.

(** ** Close timers *)

(** X1. In every world reached from an initial one, the pending close
    timers have distinct handles, the handle of each is the one stored in
    [_sentryRootSpanTimer] of the instance whose after-hook armed it, and
    no instance has two of them pending: [finishRootSpan] cancels the
    instance's previous timer before it arms the next. *)
Theorem one_close_timer_per_instance
    (options : TracingOptions) (es : list Event) (w0 w : World) :
  initial w0 →
  run options es w0 = Some w →
  NoDup (t_handle <$> pending w)
  ∧ (∀ t, t ∈ pending w →
          _sentryRootSpanTimer (data w (vm_id (t_vm t))) = Some (t_handle t))
  ∧ (∀ t1 t2, t1 ∈ pending w → t2 ∈ pending w →
              vm_id (t_vm t1) = vm_id (t_vm t2) → t1 = t2).
Proof.
  intros Hinit Hrun.
  destruct (timersOk_run options es w0 w (timersOk_initial options w0 Hinit) Hrun)
    as (_ & T2 & T3 & _).
  split; [done|]. split; [done|].
  intros t1 t2 H1 H2 Hid. apply (NoDup_fmap_eq t_handle (pending w)); try done.
  pose proof (T3 _ H1) as E1. pose proof (T3 _ H2) as E2.
  rewrite Hid in E1. congruence.
Qed.

Lemma one_close_timer_per_instance_witness :
  NoDup (t_handle <$> pending Scenario.bothMounted).
Proof.
  assert (Hinit : initial (Scenario.idle (Some Scenario.trace))) by (repeat split).
  assert (Hrun : run Scenario.trackAll Scenario.mountBoth (Scenario.idle (Some Scenario.trace))
                 = Some Scenario.bothMounted)
    by (vm_compute; reflexivity).
  exact (proj1 (one_close_timer_per_instance Scenario.trackAll _ _ _ Hinit Hrun)).
Defined.

(** X2. For a timeout that the platform timer takes as it is, from 1 ms
    to [TIMEOUT_MAX]: a close timer is due [options.timeout] milliseconds
    after the clock reading its after-hook passed as timestamp, and a
    timer only fires when it is due, so whenever a span has been ended
    with an explicit timestamp, that timestamp lies at least the timeout
    in the past. *)
Theorem close_timer_waits_for_timeout
    (options : TracingOptions) (es : list Event) (w0 w : World) :
  (0 < timeout options ≤ TIMEOUT_MAX)%Z →
  initial w0 →
  run options es w0 = Some w →
  (∀ t, t ∈ pending w →
        ∃ n, t_timestamp t = (n # 1000)%Q
             ∧ t_due t = (n + timeout options)%Z ∧ (n ≤ now w)%Z)
  ∧ (∀ s ts, SpanEnded s (Some ts) ∈ tracerCalls w →
             ∃ n, ts = (n # 1000)%Q ∧ (n + timeout options ≤ now w)%Z).
Proof.
  intros Hto Hinit Hrun.
  destruct (timersOk_run options es w0 w (timersOk_initial options w0 Hinit) Hrun)
    as (_ & _ & _ & T4 & T5).
  rewrite (Z.max_r 0 (timeout options)) in T4, T5 by lia.
  by split.
Qed.

Lemma close_timer_waits_for_timeout_witness :
  ∃ n, (5 # 1000)%Q = (n # 1000)%Q
       ∧ (n + timeout Scenario.trackAll ≤ now Scenario.bothTimersFired)%Z.
Proof.
  assert (Hto : (0 < timeout Scenario.trackAll ≤ TIMEOUT_MAX)%Z)
    by (unfold TIMEOUT_MAX; simpl; lia).
  assert (Hinit : initial (Scenario.idle (Some Scenario.trace))) by (repeat split).
  assert (Hrun : run Scenario.trackAll
                   (Scenario.mountBoth
                    ++ [ClockAdvanced 60; TimerFired 1%positive; ClockAdvanced 50;
                        TimerFired 2%positive])
                   (Scenario.idle (Some Scenario.trace)) = Some Scenario.bothTimersFired)
    by (vm_compute; reflexivity).
  apply (proj2 (close_timer_waits_for_timeout Scenario.trackAll _ _ _ Hto Hinit Hrun) 0%nat).
  vm_compute. repeat (apply list_elem_of_here || apply list_elem_of_further).
Defined.

(** ** The order and the kind of the tracer calls *)

(** X3. The hooks and the close timers only end spans they started
    themselves: in the log of a reachable world, every [end] call comes
    after the [startInactiveSpan] call that returned the span. *)
Theorem span_ended_after_it_started
    (options : TracingOptions) (es : list Event) (w0 w : World)
    (l1 l2 : list TracerCall) (s : Span) (t : option Q) :
  initial w0 →
  run options es w0 = Some w →
  tracerCalls w = l1 ++ SpanEnded s t :: l2 →
  ∃ o, SpanStarted s o ∈ l1.
Proof.
  intros Hinit Hrun Hcalls.
  destruct (reachable_tracerOk options es w0 w (consistent_initial w0 Hinit)
              (tracerOk_initial w0 Hinit) Hrun) as (O1 & _).
  rewrite Hcalls in O1.
  apply endsFollowStarts_split in O1 as [Hs | Hs]; [by apply elem_of_nil in Hs|].
  by apply elem_of_startedIds.
Qed.

Lemma span_ended_after_it_started_witness :
  ∃ o, SpanStarted 2%nat o
       ∈ [SpanStarted 0%nat rootSpanOptions;
          SpanStarted 1%nat (componentSpanOptions "App" "mount");
          SpanStarted 2%nat (componentSpanOptions "Foo" "mount")].
Proof.
  assert (Hinit : initial (Scenario.idle (Some Scenario.trace))) by (repeat split).
  assert (Hrun : run Scenario.trackAll Scenario.mountBoth (Scenario.idle (Some Scenario.trace))
                 = Some Scenario.bothMounted)
    by (vm_compute; reflexivity).
  apply (span_ended_after_it_started Scenario.trackAll _ _ _ _ [SpanEnded 1%nat None] 2%nat None
           Hinit Hrun).
  vm_compute. reflexivity.
Defined.



(** ** Where spans come from *)

(** The calls one hook appends to the log, and who may start a span. *)
Lemma hookFunction_appended options operation internalHooks internalHook this w :
  ∃ new,
    tracerCalls (hookFunction options operation internalHooks internalHook this w)
    = tracerCalls w ++ new
    ∧ ∀ s o, SpanStarted s o ∈ new →
             (o = rootSpanOptions ∧ isRoot this = true)
             ∨ (o = componentSpanOptions (vm_name this) operation
                ∧ tracked options this = true
                ∧ internalHooks !! 0%nat = Some internalHook).
Proof.
  set (root := if rootSpanDue this w
               then [SpanStarted (nextSpan w) rootSpanOptions] else []).
  assert (H0 : tracerCalls (initSpans this (startRootSpan this w)) = tracerCalls w ++ root).
  { destruct (initSpans_tracer this (startRootSpan this w)) as (-> & _).
    by destruct (startRootSpan_tracer this w) as (-> & _). }
  assert (Hroot : ∀ s o, SpanStarted s o ∈ root → o = rootSpanOptions ∧ isRoot this = true).
  { intros s o Hin. subst root.
    destruct (rootSpanDue this w) eqn:Hdue; [|by apply elem_of_nil in Hin].
    apply list_elem_of_singleton in Hin. injection Hin as -> ->.
    unfold rootSpanDue in Hdue.
    by apply andb_true_iff in Hdue as [[Hr _]%andb_true_iff _]. }
  destruct (hookFunction_cases options operation internalHooks internalHook this w)
    as [(_ & _ & ->) | [(Ht & Hb & ->) | [(_ & _ & _ & ->) | (span & _ & _ & E & _ & ->)]]].
  - exists []. rewrite app_nil_r. split; [done|]. by intros s o ?%elem_of_nil.
  - destruct (startingSpan this (initSpans this (startRootSpan this w))) as [ctx|] eqn:Hctx.
    + destruct (beforeHook_tracer operation this (initSpans this (startRootSpan this w)))
        as (-> & _); [by eexists|].
      rewrite H0, <- app_assoc. eexists. split; [reflexivity|].
      intros s o. rewrite !elem_of_app. intros [Hin | [Hin | Hin]].
      * left. by apply (Hroot s).
      * destruct (spansOf _ _ !! operation); [|by apply elem_of_nil in Hin].
        by apply list_elem_of_singleton in Hin.
      * apply list_elem_of_singleton in Hin. injection Hin as -> ->. by right.
    + rewrite beforeHook_no_context by done. exists root. split; [done|].
      intros s o Hin. left. by apply (Hroot s).
  - exists root. split; [done|]. intros s o Hin. left. by apply (Hroot s).
  - destruct (afterHook_tracer options operation this _ span E) as (-> & _).
    rewrite H0, <- app_assoc. eexists. split; [reflexivity|].
    intros s o [Hin | Hin]%elem_of_app.
    + left. by apply (Hroot s).
    + by apply list_elem_of_singleton in Hin.
Qed.

(** What one event appends to the log; only a hook appends a start. *)
Lemma step_appended options e w w' :
  step options e w = Some w' →
  ∃ new, tracerCalls w' = tracerCalls w ++ new
         ∧ ((∃ operation internalHooks internalHook this,
               e = HookFired operation internalHooks internalHook this)
            ∨ ∀ s o, SpanStarted s o ∉ new).
Proof.
  destruct e as [operation internalHooks internalHook this | h | a | dt]; simpl.
  - intros [= <-].
    destruct (hookFunction_appended options operation internalHooks internalHook this w)
      as (new & Hc & _).
    exists new. split; [done|]. left. by do 4 eexists.
  - destruct (list_find _ (pending w)) as [[i t]|]; [|done].
    case_bool_decide; [|done]. intros [= <-].
    pose proof (runTask_tracer t w) as Ht.
    destruct (_sentryRootSpan (data w (vm_root (t_vm t)))) as [r|].
    + destruct Ht as [-> _]. eexists. split; [reflexivity|]. right.
      intros s o Hin. by apply list_elem_of_singleton in Hin.
    + destruct Ht as [-> _]. exists []. rewrite app_nil_r. split; [done|]. right.
      intros s o Hin. by apply elem_of_nil in Hin.
  - intros [= <-]. exists []. rewrite app_nil_r. split; [done|]. right.
    intros s o Hin. by apply elem_of_nil in Hin.
  - case_bool_decide; [|done]. intros [= <-]. exists []. rewrite app_nil_r.
    split; [done|]. right. intros s o Hin. by apply elem_of_nil in Hin.
Qed.

Lemma run_log_grows options es :
  ∀ w w', run options es w = Some w' → ∃ new, tracerCalls w' = tracerCalls w ++ new.
Proof.
  induction es as [|e es IH]; intros w w'; simpl.
  - intros [= <-]. exists []. by rewrite app_nil_r.
  - destruct (step options e w) as [w1|] eqn:E; [|done]. intros Hrun.
    destruct (step_appended options e w w1 E) as (l1 & H1 & _).
    destruct (IH _ _ Hrun) as (l2 & H2).
    exists (l1 ++ l2). by rewrite H2, H1, app_assoc.
Qed.

Lemma run_started_at options es :
  ∀ w w' k s o,
    run options es w = Some w' →
    tracerCalls w' !! k = Some (SpanStarted s o) →
    (k < length (tracerCalls w))%nat
    ∨ ∃ es1 operation internalHooks internalHook this es2 w1,
        es = es1 ++ HookFired operation internalHooks internalHook this :: es2
        ∧ run options es1 w = Some w1
        ∧ (length (tracerCalls w1) ≤ k
           < length (tracerCalls
                       (hookFunction options operation internalHooks internalHook this w1)))%nat
        ∧ ((o = rootSpanOptions ∧ isRoot this = true)
           ∨ (o = componentSpanOptions (vm_name this) operation
              ∧ tracked options this = true
              ∧ internalHooks !! 0%nat = Some internalHook)).
Proof.
  induction es as [|e es IH]; intros w w' k s o; simpl.
  - intros [= <-] Hk. left. by eapply lookup_lt_Some.
  - destruct (step options e w) as [w1|] eqn:E; [|done]. intros Hrun Hk.
    destruct (IH _ _ _ _ _ Hrun Hk)
      as [Hlt | (es1 & op & hs & h & this & es2 & w2 & -> & Hrun1 & Hpos & Hcase)].
    2: { right. exists (e :: es1), op, hs, h, this, es2, w2.
         split; [done|]. split; [|done]. simpl. by rewrite E. }
    destruct (decide (k < length (tracerCalls w))%nat) as [Hold | Hnew]; [by left|].
    right.
    destruct (run_log_grows options es w1 w' Hrun) as (l2 & H2).
    rewrite H2, lookup_app_l in Hk by done.
    destruct e as [operation internalHooks internalHook this | h | a | dt].
    + simpl in E. injection E as <-.
      destruct (hookFunction_appended options operation internalHooks internalHook this w)
        as (new & Hc & Hnew').
      exists [], operation, internalHooks, internalHook, this, es, w.
      split; [done|]. split; [done|]. split; [lia|].
      rewrite Hc, lookup_app_r in Hk by lia.
      apply (Hnew' s). by eapply list_elem_of_lookup_2.
    + destruct (step_appended options _ w w1 E) as (new & Hc & [(? & ? & ? & ? & ?) | Hno]);
        [done|].
      rewrite Hc, lookup_app_r in Hk by lia.
      destruct (Hno s o). by eapply list_elem_of_lookup_2.
    + destruct (step_appended options _ w w1 E) as (new & Hc & [(? & ? & ? & ? & ?) | Hno]);
        [done|].
      rewrite Hc, lookup_app_r in Hk by lia.
      destruct (Hno s o). by eapply list_elem_of_lookup_2.
    + destruct (step_appended options _ w w1 E) as (new & Hc & [(? & ? & ? & ? & ?) | Hno]);
        [done|].
      rewrite Hc, lookup_app_r in Hk by lia.
      destruct (Hno s o). by eapply list_elem_of_lookup_2.
Qed.

(** X5. Every [startInactiveSpan] call in the log of a reachable world was
    made by a hook that fired: the call at any position of the log was
    appended by one hook event of the run, and it started either the root
    span [Application Render], in a hook of a root instance, be it a
    before- or an after-hook, or the span [Vue <name>] of an operation, in
    the first hook of that operation on an instance that is the root or
    is tracked. No span is started by a close timer, and none of an
    operation by an after-hook. *)
Theorem spans_started_by_hooks
    (options : TracingOptions) (es : list Event) (w0 w : World)
    (k : nat) (s : Span) (o : SpanOptions) :
  initial w0 →
  run options es w0 = Some w →
  tracerCalls w !! k = Some (SpanStarted s o) →
  ∃ es1 operation internalHooks internalHook this es2 w1,
    es = es1 ++ HookFired operation internalHooks internalHook this :: es2
    ∧ run options es1 w0 = Some w1
    ∧ (length (tracerCalls w1) ≤ k
       < length (tracerCalls
                   (hookFunction options operation internalHooks internalHook this w1)))%nat
    ∧ ((o = rootSpanOptions ∧ isRoot this = true)
       ∨ (o = componentSpanOptions (vm_name this) operation
          ∧ tracked options this = true
          ∧ internalHooks !! 0%nat = Some internalHook)).
Proof.
  intros (_ & Hc & _) Hrun Hk.
  destruct (run_started_at options es w0 w k s o Hrun Hk) as [Hlt | H]; [|done].
  rewrite Hc in Hlt. simpl in Hlt. lia.
Qed.

Lemma spans_started_by_hooks_witness :
  ∃ es1 operation internalHooks internalHook this es2 w1,
    Scenario.mountBoth = es1 ++ HookFired operation internalHooks internalHook this :: es2
    ∧ run Scenario.trackAll es1 (Scenario.idle (Some Scenario.trace)) = Some w1
    ∧ (length (tracerCalls w1) ≤ 2
       < length (tracerCalls
                   (hookFunction Scenario.trackAll operation internalHooks internalHook
                      this w1)))%nat
    ∧ ((componentSpanOptions "Foo" "mount" = rootSpanOptions ∧ isRoot this = true)
       ∨ (componentSpanOptions "Foo" "mount" = componentSpanOptions (vm_name this) operation
          ∧ tracked Scenario.trackAll this = true
          ∧ internalHooks !! 0%nat = Some internalHook)).
Proof.
  assert (Hinit : initial (Scenario.idle (Some Scenario.trace))) by (repeat split).
  assert (Hrun : run Scenario.trackAll Scenario.mountBoth (Scenario.idle (Some Scenario.trace))
                 = Some Scenario.bothMounted)
    by (vm_compute; reflexivity).
  apply (spans_started_by_hooks Scenario.trackAll _ _ _ 2%nat 2%nat _ Hinit Hrun).
  vm_compute. reflexivity.
Defined.

(** ** What a hook leaves alone *)

Lemma hookFunction_data_frame options operation internalHooks internalHook this w j :
  j ≠ vm_id this →
  data (hookFunction options operation internalHooks internalHook this w) j = data w j.
Proof.
  intros Hj.
  assert (S1 : data (startRootSpan this w) j = data w j).
  { unfold startRootSpan, getActiveSpan.
    destruct (isRoot this), (activeSpan w), (_sentryRootSpan (data w (vm_id this)));
      try done.
    heap_simpl. by rewrite decide_False. }
  assert (S2 : ∀ w1, data (initSpans this w1) j = data w1 j).
  { intros w1. unfold initSpans. destruct (_sentrySpans _); [done|].
    heap_simpl. by rewrite decide_False. }
  assert (S3 : ∀ w1, data (beforeHook operation this w1) j = data w1 j).
  { intros w1. unfold beforeHook. destruct (startingSpan this w1); [|done].
    destruct (spansOf this w1 !! operation); heap_simpl; by rewrite decide_False. }
  assert (S4 : ∀ w1, data (afterHook options operation this w1) j = data w1 j).
  { intros w1. unfold afterHook. destruct (spansOf this w1 !! operation); [|done].
    unfold finishRootSpan. simpl.
    destruct (_sentryRootSpanTimer _); heap_simpl; by rewrite decide_False. }
  unfold hookFunction. destruct (negb _ && negb _); [done|].
  case_bool_decide; by rewrite ?S3, ?S4, S2, S1.
Qed.

(** X6. A hook function writes only to [this.$data]: the data of every
    other instance is as before, so a hook of a child component stores
    neither a span nor a timer handle on the root. It also leaves the
    clock, the active span and the logger alone. *)
Theorem hook_writes_only_own_data
    (options : TracingOptions) (operation : Operation)
    (internalHooks : list Hook) (internalHook : Hook) (this : VueSentry) (w : World)
    (j : nat) :
  j ≠ vm_id this →
  let w' := hookFunction options operation internalHooks internalHook this w in
  data w' j = data w j
  ∧ now w' = now w ∧ activeSpan w' = activeSpan w ∧ warnings w' = warnings w.
Proof.
  intros Hj w'. subst w'. split; [by apply hookFunction_data_frame|].
  destruct (hookFunction_timers options operation internalHooks internalHook this w)
    as (-> & -> & _).
  by rewrite hookFunction_warnings.
Qed.

Lemma hook_writes_only_own_data_witness :
  data (hookFunction Scenario.trackAll "mount" Scenario.mount "mounted" Scenario.Foo
          Scenario.mounting) (vm_root Scenario.Foo)
  = data Scenario.mounting (vm_root Scenario.Foo).
Proof.
  apply (hook_writes_only_own_data Scenario.trackAll "mount" Scenario.mount "mounted"
           Scenario.Foo Scenario.mounting (vm_root Scenario.Foo)).
  vm_compute. discriminate.
Defined.

(** ** Without a trace *)

Lemma quiet_hook options operation internalHooks internalHook this w :
  quiet w → quiet (hookFunction options operation internalHooks internalHook this w).
Proof.
  intros (Ha & Hc & Hp & Hr & Hs).
  assert (H0 : startRootSpan this w = w) by (apply startRootSpan_noop; auto).
  assert (Hq : quiet (initSpans this w)).
  { destruct (initSpans_tracer this w) as (Hc' & _ & Ha').
    destruct (initSpans_timers this w) as (Hp' & _).
    unfold quiet. rewrite Hc', Ha', Hp'. repeat split; try done.
    - intros j. by rewrite initSpans_rootSpan.
    - intros that op. by rewrite initSpans_spansOf. }
  destruct (hookFunction_cases options operation internalHooks internalHook this w)
    as [(_ & _ & ->) | [(_ & _ & ->) | [(_ & _ & _ & ->) | (span & _ & _ & _ & E & _)]]].
  - done.
  - rewrite H0. rewrite beforeHook_no_context; [done|].
    destruct Hq as (Ha' & _ & _ & Hr' & _).
    unfold startingSpan, getActiveSpan. by rewrite Hr', Ha'.
  - by rewrite H0.
  - by rewrite Hs in E.
Qed.

Lemma quiet_run options es :
  ∀ w w', (∀ a, ActiveSpanChanged (Some a) ∉ es) →
          quiet w → run options es w = Some w' → quiet w'.
Proof.
  induction es as [|e es IH]; intros w w' Hes Hq; simpl.
  - by intros [= <-].
  - destruct (step options e w) as [w1|] eqn:E; [|done].
    apply IH.
    { intros a Hin. apply (Hes a). by apply list_elem_of_further. }
    destruct e as [operation internalHooks internalHook this | h | a | dt]; simpl in E.
    + injection E as <-. by apply quiet_hook.
    + destruct Hq as (_ & _ & Hp & _). by rewrite Hp in E.
    + injection E as <-. destruct a as [a|].
      * destruct (Hes a). apply list_elem_of_here.
      * destruct Hq as (_ & Hc & Hp & Hr & Hs).
        exact (conj eq_refl (conj Hc (conj Hp (conj Hr Hs)))).
    + case_bool_decide; [|done]. injection E as <-. exact Hq.
Qed.

(** X7. While no span is active the mixins do nothing observable: from an
    initial world without an active span, whatever hooks fire on whatever
    instances and however time passes, no span is started or ended and no
    close timer is armed. *)
Theorem nothing_traced_without_active_span
    (options : TracingOptions) (es : list Event) (w0 w : World) :
  initial w0 →
  activeSpan w0 = None →
  (∀ a, ActiveSpanChanged (Some a) ∉ es) →
  run options es w0 = Some w →
  tracerCalls w = [] ∧ pending w = [].
Proof.
  intros (Hh & Hc & Hp) Ha Hes Hrun.
  assert (Hq : quiet w0).
  { unfold quiet, spansOf, data. rewrite Hh. repeat split; done. }
  destruct (quiet_run options es w0 w Hes Hq Hrun) as (_ & ? & ? & _). done.
Qed.

Lemma nothing_traced_without_active_span_witness :
  tracerCalls (hookFunction Scenario.trackAll "mount" Scenario.mount "mounted" Scenario.App
                 (set_now 5
                    (hookFunction Scenario.trackAll "mount" Scenario.mount "beforeMount"
                       Scenario.App (Scenario.idle None)))) = []
  ∧ pending (hookFunction Scenario.trackAll "mount" Scenario.mount "mounted" Scenario.App
               (set_now 5
                  (hookFunction Scenario.trackAll "mount" Scenario.mount "beforeMount"
                     Scenario.App (Scenario.idle None)))) = [].
Proof.
  apply (nothing_traced_without_active_span Scenario.trackAll
           [HookFired "mount" Scenario.mount "beforeMount" Scenario.App;
            ClockAdvanced 5;
            HookFired "mount" Scenario.mount "mounted" Scenario.App]
           (Scenario.idle None)).
  - repeat split.
  - reflexivity.
  - intros a Hin. repeat (apply elem_of_cons in Hin as [Hin | Hin]; [discriminate|]).
    by apply elem_of_nil in Hin.
  - reflexivity.
Defined.

(** ** After a quiet period *)

Lemma advanceTo_pending fuel limit :
  ∀ w t, t ∈ pending (advanceTo fuel limit w) → t ∈ pending w.
Proof.
  induction fuel as [|fuel IH]; intros w t; simpl; [done|].
  destruct (nextDue limit (pending w)) as [t0|]; [|done].
  intros Ht%IH. destruct (runTask_frame t0 (set_now (Z.max (now w) (t_due t0)) w))
    as (_ & _ & Hp & _).
  rewrite Hp in Ht. by apply list_elem_of_filter in Ht as [_ Ht].
Qed.

Lemma runTask_rootSpan_None t w j :
  _sentryRootSpan (data w j) = None → _sentryRootSpan (data (runTask t w) j) = None.
Proof.
  intros Hj. pose proof (runTask_tracer t w) as Ht.
  destruct (_sentryRootSpan (data w (vm_root (t_vm t)))).
  - destruct Ht as [_ ->]. by case_decide.
  - destruct Ht as [_ ->]. done.
Qed.

Lemma runTask_clears_root t w :
  _sentryRootSpan (data (runTask t w) (vm_root (t_vm t))) = None.
Proof.
  pose proof (runTask_tracer t w) as Ht.
  destruct (_sentryRootSpan (data w (vm_root (t_vm t)))) eqn:E.
  - destruct Ht as [_ ->]. by rewrite decide_True.
  - destruct Ht as [_ ->]. done.
Qed.

Lemma advanceTo_rootSpan_None fuel limit :
  ∀ w j, _sentryRootSpan (data w j) = None →
         _sentryRootSpan (data (advanceTo fuel limit w) j) = None.
Proof.
  induction fuel as [|fuel IH]; intros w j Hj; simpl; [done|].
  destruct (nextDue limit (pending w)) as [t0|]; [|done].
  apply IH. by apply runTask_rootSpan_None.
Qed.

(** A task that left the queue while time passed was run, and the root
    span of its instance is gone. *)
Lemma advanceTo_fired fuel limit :
  ∀ w t, NoDup (t_handle <$> pending w) → t ∈ pending w →
         t ∉ pending (advanceTo fuel limit w) →
         _sentryRootSpan (data (advanceTo fuel limit w) (vm_root (t_vm t))) = None.
Proof.
  induction fuel as [|fuel IH]; intros w t Hnd Ht; simpl; [done|].
  pose proof (nextDue_result limit (pending w)) as Hnext.
  destruct (nextDue limit (pending w)) as [t0|]; [|done].
  destruct Hnext as [Ht0 _].
  set (w1 := set_now (Z.max (now w) (t_due t0)) w).
  destruct (runTask_frame t0 w1) as (_ & _ & Hp & _).
  destruct (decide (t_handle t = t_handle t0)) as [Hh | Hne].
  - assert (t = t0) as -> by (by apply (NoDup_fmap_eq t_handle (pending w))).
    intros _. apply advanceTo_rootSpan_None, runTask_clears_root.
  - apply IH.
    + rewrite Hp. by apply NoDup_fmap_filter.
    + rewrite Hp. by apply list_elem_of_filter.
Qed.

(** X8. Once nothing has happened for [options.timeout] milliseconds,
    every close timer has fired: from any reachable world, letting that
    much time pass leaves no timer pending, and no root span stored on
    the root of any instance that had armed one. *)
Theorem quiet_period_closes_root_spans
    (options : TracingOptions) (es : list Event) (w0 w : World) (d : Z) :
  initial w0 →
  run options es w0 = Some w →
  (Z.max 0 (timeout options) ≤ d)%Z →
  pending (advance d w) = []
  ∧ ∀ t, t ∈ pending w →
         _sentryRootSpan (data (advance d w) (vm_root (t_vm t))) = None.
Proof.
  intros Hinit Hrun Hd.
  destruct (timersOk_run options es w0 w (timersOk_initial options w0 Hinit) Hrun)
    as (_ & T2 & _ & T4 & _).
  assert (Hnone : pending (advance d w) = []).
  { destruct (pending (advance d w)) as [|t l] eqn:E; [done|]. exfalso.
    assert (Ht : t ∈ pending (advance d w)) by (rewrite E; apply list_elem_of_here).
    pose proof (advance_fires_all_due d w t Ht) as Hlate.
    apply advanceTo_pending in Ht. destruct (T4 t Ht) as (n & _ & Hdue & Hn). lia. }
  split; [done|].
  intros t Ht. unfold advance. apply advanceTo_fired; [done | done |].
  fold (advance d w). rewrite Hnone. apply not_elem_of_nil.
Qed.

Lemma quiet_period_closes_root_spans_witness :
  pending (advance 100 Scenario.bothMounted) = []
  ∧ ∀ t, t ∈ pending Scenario.bothMounted →
         _sentryRootSpan (data (advance 100 Scenario.bothMounted) (vm_root (t_vm t))) = None.
Proof.
  assert (Hinit : initial (Scenario.idle (Some Scenario.trace))) by (repeat split).
  assert (Hrun : run Scenario.trackAll Scenario.mountBoth (Scenario.idle (Some Scenario.trace))
                 = Some Scenario.bothMounted)
    by (vm_compute; reflexivity).
  apply (quiet_period_closes_root_spans Scenario.trackAll _ _ _ 100 Hinit Hrun).
  vm_compute. discriminate.
Defined.

(** ** Building the mixins: order and failure *)

(** X9. The duplicate filter keeps the first occurrence of every requested
    operation and drops the later ones, without reordering: the result is
    a sublist of its argument; appending a name adds it at the end when it
    is new and changes nothing when it occurred before; and a list without
    duplicates is returned as it is. *)
Theorem removeDuplicates_keeps_first_occurrences (self : list string) :
  removeDuplicates self `sublist_of` self
  ∧ (∀ x, removeDuplicates (self ++ [x])
          = if decide (x ∈ self) then removeDuplicates self else removeDuplicates self ++ [x])
  ∧ (NoDup self → removeDuplicates self = self).
Proof.
  split; [apply removeDuplicates_sublist|].
  split; [apply removeDuplicates_snoc | apply removeDuplicates_NoDup].
Qed.

Lemma removeDuplicates_keeps_first_occurrences_witness :
  NoDup ["mount"; "update"; "create"]
  ∧ removeDuplicates ["mount"; "update"; "create"] = ["mount"; "update"; "create"].
Proof.
  assert (Hnd : NoDup ["mount"; "update"; "create"]).
  { apply (bool_decide_unpack _). vm_compute. reflexivity. }
  split; [exact Hnd|].
  exact (proj2 (proj2 (removeDuplicates_keeps_first_occurrences ["mount"; "update"; "create"]))
           Hnd).
Defined.

Lemma HOOKS_not_inherited operation internalHooks :
  HOOKS !! operation = Some internalHooks → operation ∉ Object_prototype_keys.
Proof. intros H Hk. hooks_cases H; hook_cases Hk; discriminate. Qed.

Lemma HOOKS_get_Inherited operation :
  HOOKS_get operation = Inherited ↔ operation ∈ Object_prototype_keys.
Proof.
  unfold HOOKS_get. destruct (HOOKS !! operation) as [hs|] eqn:E.
  - split; [done|]. intros Hk. by destruct (HOOKS_not_inherited _ _ E).
  - case_bool_decide; split; done.
Qed.

Lemma installHooks_completion DEBUG_BUILD ops :
  ∀ mixins w,
    (installHooks DEBUG_BUILD ops mixins w = Thrown (TypeError "internalHooks is not iterable")
     ∧ ∃ operation, operation ∈ ops ∧ operation ∈ Object_prototype_keys)
    ∨ (returns (installHooks DEBUG_BUILD ops mixins w) = true
       ∧ ∀ operation, operation ∈ ops → operation ∉ Object_prototype_keys).
Proof.
  induction ops as [|operation rest IH]; intros mixins w; simpl.
  - right. split; [done|]. by intros op ?%elem_of_nil.
  - destruct (HOOKS_get operation) as [internalHooks | |] eqn:E.
    + apply HOOKS_get_Own, HOOKS_not_inherited in E.
      destruct (IH (bindHooks operation internalHooks mixins) w)
        as [(-> & op & Hop & Hk) | (Hr & Hall)].
      * left. split; [done|]. exists op. split; [by apply list_elem_of_further | done].
      * right. split; [done|]. by intros op [-> | Hop]%elem_of_cons; [|apply Hall].
    + left. split; [done|]. exists operation. split; [apply list_elem_of_here|].
      by apply HOOKS_get_Inherited.
    + assert (Hk : operation ∉ Object_prototype_keys).
      { intros Hk%HOOKS_get_Inherited. congruence. }
      destruct (IH mixins
                  (if DEBUG_BUILD then logger_warn ("Unknown hook: " +:+ operation) w else w))
        as [(-> & op & Hop & Hkeys) | (Hr & Hall)].
      * left. split; [done|]. exists op. split; [by apply list_elem_of_further | done].
      * right. split; [done|]. by intros op [-> | Hop]%elem_of_cons; [|apply Hall].
Qed.

(** X10. [createTracingMixins] throws exactly when one of the requested
    operations, configured or default, names a property that [HOOKS]
    inherits from [Object.prototype]; the error is the [TypeError] of
    iterating over what the lookup found. In every other case it returns. *)
Theorem createTracingMixins_throws_iff
    (DEFAULT_HOOKS : list Operation) (DEBUG_BUILD : bool)
    (options : TracingOptions) (w : World) :
  let requested := default [] (hooks options) ++ DEFAULT_HOOKS in
  (createTracingMixins DEFAULT_HOOKS DEBUG_BUILD options w
   = Thrown (TypeError "internalHooks is not iterable")
   ↔ ∃ operation, operation ∈ requested ∧ operation ∈ Object_prototype_keys)
  ∧ (returns (createTracingMixins DEFAULT_HOOKS DEBUG_BUILD options w) = true
     ↔ ∀ operation, operation ∈ requested → operation ∉ Object_prototype_keys).
Proof.
  intros requested. unfold createTracingMixins, resolveHooks. fold requested.
  destruct (installHooks_completion DEBUG_BUILD (removeDuplicates requested)
              {["data" := DataMixin]} w)
    as [(Hthrown & op & Hop & Hk) | (Hret & Hall)].
  - apply (proj1 (elem_of_removeDuplicates _ _)) in Hop. rewrite Hthrown. split.
    + split; [intros _; exists op; by split | done].
    + split; [done|]. intros Hnone. by destruct (Hnone op Hop).
  - assert (Hall' : ∀ operation, operation ∈ requested → operation ∉ Object_prototype_keys).
    { intros op Hop. by apply Hall, elem_of_removeDuplicates. }
    split.
    + split.
      * intros Hthrown. by rewrite Hthrown in Hret.
      * intros (op & Hop & Hk). by destruct (Hall' op Hop).
    + split; done.
Qed.

(** * Properties of the replay entries *)

Section ReplayEntriesLemmas.
Variables (origin : option Q) (windowOrigin : Q).
Variable Foreign : Type.
Variable callInherited :
  string → ReplayEntries.AllPerformanceEntry → Completion (option Foreign).

Let createPerformanceEntry :=
  ReplayEntries.createPerformanceEntry origin windowOrigin Foreign callInherited.
Let createPerformanceEntries :=
  ReplayEntries.createPerformanceEntries origin windowOrigin Foreign callInherited.
Let getAbsoluteTime := ReplayEntries.getAbsoluteTime origin windowOrigin.

Lemma ENTRY_TYPES_lookup (key : string) :
  ReplayEntries.ENTRY_TYPES origin windowOrigin !! key
  = if decide (key = "resource")
    then Some (ReplayEntries.createResourceEntry origin windowOrigin)
    else if decide (key = "paint")
    then Some (λ entry, Some (ReplayEntries.createPaintEntry origin windowOrigin entry))
    else if decide (key = "navigation")
    then Some (ReplayEntries.createNavigationEntry origin windowOrigin)
    else None.
Proof.
  unfold ReplayEntries.ENTRY_TYPES. simpl.
  rewrite !lookup_insert, lookup_empty.
  repeat case_decide; congruence.
Qed.

(** The three entry types with a function of their own are no properties
    of [Object.prototype]. *)
Lemma own_not_inherited (key : string) :
  key ∈ ["resource"; "paint"; "navigation"] → key ∉ Object_prototype_keys.
Proof. intros Hk Hp. hook_cases Hk; hook_cases Hp; discriminate. Qed.

(** What [createPerformanceEntry] does with an entry, by its type. *)
Lemma createPerformanceEntry_cases (entry : ReplayEntries.AllPerformanceEntry) :
  (ReplayEntries.entryType entry = "resource"
   ∧ createPerformanceEntry entry
     = Returned (inl <$> ReplayEntries.createResourceEntry origin windowOrigin entry))
  ∨ (ReplayEntries.entryType entry = "paint"
     ∧ createPerformanceEntry entry
       = Returned (Some (inl (ReplayEntries.createPaintEntry origin windowOrigin entry))))
  ∨ (ReplayEntries.entryType entry = "navigation"
     ∧ createPerformanceEntry entry
       = Returned (inl <$> ReplayEntries.createNavigationEntry origin windowOrigin entry))
  ∨ (ReplayEntries.entryType entry ∈ Object_prototype_keys
     ∧ createPerformanceEntry entry
       = match callInherited (ReplayEntries.entryType entry) entry with
         | Returned v => Returned (inr <$> v)
         | Thrown e => Thrown e
         end)
  ∨ (ReplayEntries.entryType entry ≠ "resource"
     ∧ ReplayEntries.entryType entry ≠ "paint"
     ∧ ReplayEntries.entryType entry ≠ "navigation"
     ∧ createPerformanceEntry entry = Returned None).
Proof.
  subst createPerformanceEntry. unfold ReplayEntries.createPerformanceEntry.
  rewrite ENTRY_TYPES_lookup.
  destruct (decide (ReplayEntries.entryType entry = "resource")) as [Hr | Hr];
    [by left|].
  destruct (decide (ReplayEntries.entryType entry = "paint")) as [Hp | Hp];
    [right; by left|].
  destruct (decide (ReplayEntries.entryType entry = "navigation")) as [Hn | Hn];
    [right; right; by left|].
  case_bool_decide as Hk; [right; right; right; by left|].
  by do 4 right.
Qed.

Lemma createPerformanceEntry_recorded (entry : ReplayEntries.AllPerformanceEntry) :
  ReplayEntries.entryType entry ∉ Object_prototype_keys →
  (ReplayEntries.recorded entry = true
   ∧ ∃ r, createPerformanceEntry entry = Returned (Some (inl r))
          ∧ ReplayEntries.rpe_name r = ReplayEntries.name entry
          ∧ ReplayEntries.rpe_start r = getAbsoluteTime (ReplayEntries.startTime entry))
  ∨ (ReplayEntries.recorded entry = false ∧ createPerformanceEntry entry = Returned None).
Proof.
  intros Hk. unfold ReplayEntries.recorded.
  destruct (createPerformanceEntry_cases entry)
    as [[Ht ->] | [[Ht ->] | [[Ht ->] | [[Ht _] | (Hr & Hp & Hn & ->)]]]].
  - rewrite Ht. simpl. unfold ReplayEntries.createResourceEntry.
    case_bool_decide; simpl; [right; by split|]. left. split; [done|]. by eexists.
  - rewrite Ht. simpl. left. split; [done|]. by eexists.
  - rewrite Ht. simpl. unfold ReplayEntries.createNavigationEntry.
    destruct (Qeq_bool _ 0); simpl; [right; by split|]. left. split; [done|]. by eexists.
  - done.
  - right. split; [|done]. rewrite !bool_decide_false by done. done.
Qed.

Lemma mapCompletion_app {A B} (f : A → Completion B) (l k : list A) :
  ReplayEntries.mapCompletion f (l ++ k)
  = match ReplayEntries.mapCompletion f l with
    | Thrown e => Thrown e
    | Returned xs =>
        match ReplayEntries.mapCompletion f k with
        | Thrown e => Thrown e
        | Returned ys => Returned (xs ++ ys)
        end
    end.
Proof.
  induction l as [|x l IH]; simpl.
  - by destruct (ReplayEntries.mapCompletion f k).
  - destruct (f x); [|done]. rewrite IH.
    destruct (ReplayEntries.mapCompletion f l); [|done].
    by destruct (ReplayEntries.mapCompletion f k).
Qed.

Lemma createPerformanceEntries_cons entry entries :
  createPerformanceEntries (entry :: entries)
  = match createPerformanceEntry entry with
    | Thrown e => Thrown e
    | Returned v =>
        match createPerformanceEntries entries with
        | Thrown e => Thrown e
        | Returned out => Returned (option_list v ++ out)
        end
    end.
Proof.
  subst createPerformanceEntries createPerformanceEntry.
  unfold ReplayEntries.createPerformanceEntries. simpl.
  destruct (ReplayEntries.createPerformanceEntry _ _ _ _ entry) as [[v|]|]; try done.
  - by destruct (ReplayEntries.mapCompletion _ entries).
  - by destruct (ReplayEntries.mapCompletion _ entries).
Qed.

(** X11. From entries whose types name no property of [Object.prototype],
    [createPerformanceEntries] returns replay entries only, one for each
    paint entry, each navigation entry with a duration and each resource
    entry that neither [fetch] nor XHR initiated, in the order of the
    input: the names are those of these entries and the start times
    their start times, made absolute and turned into seconds. Entries of
    any other type are dropped. *)
Theorem createPerformanceEntries_selects (entries : list ReplayEntries.AllPerformanceEntry) :
  (∀ entry, entry ∈ entries → ReplayEntries.entryType entry ∉ Object_prototype_keys) →
  ∃ out,
    createPerformanceEntries entries = Returned (inl <$> out)
    ∧ ReplayEntries.rpe_name <$> out
      = ReplayEntries.name <$> filter (λ entry, ReplayEntries.recorded entry = true) entries
    ∧ ReplayEntries.rpe_start <$> out
      = (λ entry, getAbsoluteTime (ReplayEntries.startTime entry))
          <$> filter (λ entry, ReplayEntries.recorded entry = true) entries.
Proof.
  induction entries as [|entry entries IH]; intros Hk.
  - by exists [].
  - destruct IH as (out & Hout & Hnames & Hstarts).
    { intros e He. apply Hk. by apply list_elem_of_further. }
    rewrite createPerformanceEntries_cons, Hout.
    destruct (createPerformanceEntry_recorded entry)
      as [(Hrec & r & -> & Hn & Hs) | (Hrec & ->)].
    { apply Hk, list_elem_of_here. }
    + exists (r :: out). rewrite filter_cons_True by done.
      rewrite !fmap_cons, Hn, Hs, Hnames, Hstarts. done.
    + exists out. rewrite filter_cons_False by (by rewrite Hrec). done.
Qed.

(** X12. A replay entry made from a browser entry is made by the
    function of the entry's type, and keeps the entry's name. From a
    paint entry it has the entry type as its type, ends at start plus
    [duration] and has no data. From a navigation entry, which then has
    a duration, its type is [navigation.<type>], it ends at
    [domComplete] and its data are the sizes and timings of the entry,
    [transferSize] as [size]. From a resource entry, which then was
    initiated by neither [fetch] nor XHR, its type is
    [resource.<initiatorType>], it ends at [responseEnd] and its data
    are the sizes and [responseStatus] as [statusCode]. Start and end
    are the results of [getAbsoluteTime]. *)
Theorem recorded_entry_fields
    (entry : ReplayEntries.AllPerformanceEntry) (r : ReplayEntries.ReplayPerformanceEntry) :
  createPerformanceEntry entry = Returned (Some (inl r)) →
  ReplayEntries.rpe_name r = ReplayEntries.name entry
  ∧ ReplayEntries.rpe_start r = getAbsoluteTime (ReplayEntries.startTime entry)
  ∧ ((ReplayEntries.entryType entry = "paint"
      ∧ ReplayEntries.rpe_type r = "paint"
      ∧ ReplayEntries.rpe_end r
        = (getAbsoluteTime (ReplayEntries.startTime entry) + ReplayEntries.duration entry)%Q
      ∧ ReplayEntries.rpe_data r = None)
     ∨ (ReplayEntries.entryType entry = "navigation"
        ∧ Qeq_bool (ReplayEntries.duration entry) 0 = false
        ∧ ReplayEntries.rpe_type r = ("navigation." +:+ ReplayEntries.type entry)
        ∧ ReplayEntries.rpe_end r = getAbsoluteTime (ReplayEntries.domComplete entry)
        ∧ ∃ d, ReplayEntries.rpe_data r = Some (ReplayEntries.Navigation d)
               ∧ ReplayEntries.nd_size d = ReplayEntries.transferSize entry
               ∧ ReplayEntries.nd_decodedBodySize d = ReplayEntries.decodedBodySize entry
               ∧ ReplayEntries.nd_encodedBodySize d = ReplayEntries.encodedBodySize entry
               ∧ ReplayEntries.nd_duration d = ReplayEntries.duration entry
               ∧ ReplayEntries.nd_domInteractive d = ReplayEntries.domInteractive entry
               ∧ ReplayEntries.nd_domContentLoadedEventStart d
                 = ReplayEntries.domContentLoadedEventStart entry
               ∧ ReplayEntries.nd_domContentLoadedEventEnd d
                 = ReplayEntries.domContentLoadedEventEnd entry
               ∧ ReplayEntries.nd_loadEventStart d = ReplayEntries.loadEventStart entry
               ∧ ReplayEntries.nd_loadEventEnd d = ReplayEntries.loadEventEnd entry
               ∧ ReplayEntries.nd_domComplete d = ReplayEntries.domComplete entry
               ∧ ReplayEntries.nd_redirectCount d = ReplayEntries.redirectCount entry)
     ∨ (ReplayEntries.entryType entry = "resource"
        ∧ ¬ (ReplayEntries.initiatorType entry ∈ ["fetch"; "xmlhttprequest"])
        ∧ ReplayEntries.rpe_type r = ("resource." +:+ ReplayEntries.initiatorType entry)
        ∧ ReplayEntries.rpe_end r = getAbsoluteTime (ReplayEntries.responseEnd entry)
        ∧ ∃ d, ReplayEntries.rpe_data r = Some (ReplayEntries.Resource d)
               ∧ ReplayEntries.rd_size d = ReplayEntries.transferSize entry
               ∧ ReplayEntries.rd_statusCode d = ReplayEntries.responseStatus entry
               ∧ ReplayEntries.rd_decodedBodySize d = ReplayEntries.decodedBodySize entry
               ∧ ReplayEntries.rd_encodedBodySize d = ReplayEntries.encodedBodySize entry)).
Proof.
  destruct (createPerformanceEntry_cases entry)
    as [[Ht ->] | [[Ht ->] | [[Ht ->] | [[Ht ->] | (_ & _ & _ & ->)]]]].
  - unfold ReplayEntries.createResourceEntry. case_bool_decide as Hi; [done|].
    simpl. intros [= <-]. simpl. split; [done|]. split; [done|].
    right; right. rewrite Ht. repeat split; try done.
    eexists. split; [reflexivity|]. by repeat split.
  - intros [= <-]. simpl. split; [done|]. split; [done|].
    left. by rewrite Ht.
  - unfold ReplayEntries.createNavigationEntry.
    destruct (Qeq_bool _ 0) eqn:Hd; [done|].
    simpl. intros [= <-]. simpl. split; [done|]. split; [done|].
    right; left. rewrite Ht. repeat split; try done.
    eexists. split; [reflexivity|]. by repeat split.
  - by destruct (callInherited _ entry) as [[v|]|].
  - done.
Qed.

(** X13. Converting a batch of entries in two parts gives the same as
    converting it at once: the results of the parts, one after the other,
    or the first error thrown. *)
Theorem createPerformanceEntries_app (entries more : list ReplayEntries.AllPerformanceEntry) :
  createPerformanceEntries (entries ++ more)
  = match createPerformanceEntries entries with
    | Thrown e => Thrown e
    | Returned out =>
        match createPerformanceEntries more with
        | Thrown e => Thrown e
        | Returned out' => Returned (out ++ out')
        end
    end.
Proof.
  subst createPerformanceEntries. unfold ReplayEntries.createPerformanceEntries.
  rewrite mapCompletion_app.
  destruct (ReplayEntries.mapCompletion _ entries) as [xs|]; [|done].
  destruct (ReplayEntries.mapCompletion _ more) as [ys|]; [|done].
  by rewrite omap_app.
Qed.
End ReplayEntriesLemmas.

Lemma createPerformanceEntries_selects_witness :
  ∃ out,
    ReplayEntries.createPerformanceEntries None 1000 Empty_set Scenario.noInherited
      Scenario.observed = Returned (inl <$> out)
    ∧ ReplayEntries.rpe_name <$> out
      = ReplayEntries.name
          <$> filter (λ entry, ReplayEntries.recorded entry = true) Scenario.observed
    ∧ ReplayEntries.rpe_start <$> out
      = (λ entry, ReplayEntries.getAbsoluteTime None 1000 (ReplayEntries.startTime entry))
          <$> filter (λ entry, ReplayEntries.recorded entry = true) Scenario.observed.
Proof.
  apply (createPerformanceEntries_selects None 1000 Empty_set Scenario.noInherited
           Scenario.observed).
  intros entry He Hk. unfold Scenario.observed in He.
  hook_cases He; vm_compute in Hk; hook_cases Hk; discriminate.
Defined.

Lemma recorded_entry_fields_witness :
  ∃ r,
    ReplayEntries.createPerformanceEntry None 1000 Empty_set Scenario.noInherited
      Scenario.scriptEntry = Returned (Some (inl r))
    ∧ ReplayEntries.rpe_name r = "https://example.com/app.js"
    ∧ ReplayEntries.rpe_type r = "resource.script"
    ∧ ReplayEntries.rpe_start r = ReplayEntries.getAbsoluteTime None 1000 120
    ∧ ReplayEntries.rpe_end r = ReplayEntries.getAbsoluteTime None 1000 180
    ∧ ∃ d, ReplayEntries.rpe_data r = Some (ReplayEntries.Resource d)
           ∧ ReplayEntries.rd_size d = 350%Q
           ∧ ReplayEntries.rd_statusCode d = Some 200%Q.
Proof.
  assert (Hr : ∃ r, ReplayEntries.createPerformanceEntry None 1000 Empty_set
                      Scenario.noInherited Scenario.scriptEntry = Returned (Some (inl r)))
    by (eexists; reflexivity).
  destruct Hr as [r Hr]. exists r. split; [exact Hr|].
  destruct (recorded_entry_fields None 1000 Empty_set Scenario.noInherited
              Scenario.scriptEntry r Hr)
    as (Hname & Hstart
        & [(Hp & _) | [(Hn & _) | (_ & _ & Htype & Hend & d & Hdata & Hsize & Hstatus & _)]]).
  - discriminate Hp.
  - discriminate Hn.
  - split; [exact Hname|]. split; [exact Htype|]. split; [exact Hstart|].
    split; [exact Hend|]. exists d. split; [exact Hdata|]. split; [exact Hsize | exact Hstatus].
Defined.

(** ** Web-vital handlers *)

(** X14. Whichever of the four getters a web-vital handler was made with,
    a call that returns has pushed exactly one entry behind those already
    buffered: an entry of type [web-vital] under the name of the metric,
    which starts and ends at the same instant, the metric's value counted
    from the time origin in seconds, and whose data repeat the value, as
    [value] and as [size], and the rating. *)
Theorem web_vital_handler_appends_instant
    {Node Rect : Type} (origin : option Q) (windowOrigin : Q) (getId : Node → Z)
    (getter : PerformanceEntries.Metric Node Rect
              → Completion PerformanceEntries.ReplayPerformanceEntry)
    (name : string)
    (buffer buffer' : list PerformanceEntries.ReplayPerformanceEntry)
    (metric : PerformanceEntries.Metric Node Rect) :
  (getter, name)
  ∈ [(PerformanceEntries.getLargestContentfulPaint Node Rect origin windowOrigin getId,
      "largest-contentful-paint");
     (PerformanceEntries.getCumulativeLayoutShift Node Rect origin windowOrigin getId,
      "cumulative-layout-shift");
     (PerformanceEntries.getFirstInputDelay Node Rect origin windowOrigin getId,
      "first-input-delay");
     (PerformanceEntries.getInteractionToNextPaint Node Rect origin windowOrigin getId,
      "interaction-to-next-paint")] →
  ReplayEntries.webVitalHandler getter buffer metric = Returned buffer' →
  ∃ e,
    buffer' = buffer ++ [e]
    ∧ PerformanceEntries.rpe_type e = "web-vital"
    ∧ PerformanceEntries.rpe_name e = name
    ∧ PerformanceEntries.rpe_start e = PerformanceEntries.rpe_end e
    ∧ PerformanceEntries.rpe_end e
      = PerformanceEntries.getAbsoluteTime origin windowOrigin
          (PerformanceEntries.value _ _ metric)
    ∧ PerformanceEntries.wv_value (PerformanceEntries.rpe_data e)
      = PerformanceEntries.value _ _ metric
    ∧ PerformanceEntries.wv_size (PerformanceEntries.rpe_data e)
      = PerformanceEntries.value _ _ metric
    ∧ PerformanceEntries.wv_rating (PerformanceEntries.rpe_data e)
      = PerformanceEntries.rating _ _ metric.
Proof.
  intros Hg. unfold ReplayEntries.webVitalHandler.
  repeat (apply elem_of_cons in Hg as [Hg | Hg]; [injection Hg as -> -> |]);
    [.. | by apply elem_of_nil in Hg].
  - simpl. intros [= <-]. eexists. split; [reflexivity|]. by repeat split.
  - unfold PerformanceEntries.getCumulativeLayoutShift.
    destruct (PerformanceEntries.entries metric !! 0%nat) as [firstEntry|].
    + destruct (PerformanceEntries.sources firstEntry) as [srcs|].
      * destruct (srcs !! 0%nat) as [attribution|]; [|done].
        intros [= <-]. eexists. split; [reflexivity|]. by repeat split.
      * intros [= <-]. eexists. split; [reflexivity|]. by repeat split.
    + intros [= <-]. eexists. split; [reflexivity|]. by repeat split.
  - simpl. intros [= <-]. eexists. split; [reflexivity|]. by repeat split.
  - simpl. intros [= <-]. eexists. split; [reflexivity|]. by repeat split.
Qed.

Lemma web_vital_handler_appends_instant_witness :
  ∃ e,
    [PerformanceEntries.getWebVital nat unit None 1000 Z.of_nat Scenario.lcpMetric
       "largest-contentful-paint" (Some 3%nat);
     PerformanceEntries.getWebVital nat unit None 1000 Z.of_nat Scenario.clsOneSource
       "cumulative-layout-shift" (Some 7%nat)]
    = [PerformanceEntries.getWebVital nat unit None 1000 Z.of_nat Scenario.lcpMetric
         "largest-contentful-paint" (Some 3%nat)] ++ [e]
    ∧ PerformanceEntries.rpe_type e = "web-vital"
    ∧ PerformanceEntries.rpe_name e = "cumulative-layout-shift"
    ∧ PerformanceEntries.rpe_start e = PerformanceEntries.rpe_end e
    ∧ PerformanceEntries.rpe_end e
      = PerformanceEntries.getAbsoluteTime None 1000
          (PerformanceEntries.value _ _ Scenario.clsOneSource)
    ∧ PerformanceEntries.wv_value (PerformanceEntries.rpe_data e)
      = PerformanceEntries.value _ _ Scenario.clsOneSource
    ∧ PerformanceEntries.wv_size (PerformanceEntries.rpe_data e)
      = PerformanceEntries.value _ _ Scenario.clsOneSource
    ∧ PerformanceEntries.wv_rating (PerformanceEntries.rpe_data e)
      = PerformanceEntries.rating _ _ Scenario.clsOneSource.
Proof.
  apply (web_vital_handler_appends_instant None 1000 Z.of_nat
           (PerformanceEntries.getCumulativeLayoutShift nat unit None 1000 Z.of_nat)
           "cumulative-layout-shift"
           [PerformanceEntries.getWebVital nat unit None 1000 Z.of_nat Scenario.lcpMetric
              "largest-contentful-paint" (Some 3%nat)]
           _ Scenario.clsOneSource).
  - apply list_elem_of_further, list_elem_of_here.
  - reflexivity.
Defined.
